(** * The markdown renderer of Chat-Jiam: [src/utils/markdownRenderer.ts]

    [renderSimpleMarkdown] turns a message text into an HTML string.  It
    splits the text into lines, walks over them once with a single piece of
    state (the kind of list that is open, if any) and passes the text of
    every block through [applyInlineFormatting], a cascade of eight global
    regular-expression replacements.

    The development follows the source: JavaScript strings are sequences of
    UTF-16 code units, every regular expression of the source is written
    with backtracking combinators that follow the ECMAScript matching order
    (greedy and lazy quantifiers, alternation, back references), the global
    [replace] is the library's left-to-right scan, and the [while] loop is a
    step function on the remaining lines, run for as many turns as it is
    given.

    Two things are kept that the source does not have.  Each code unit
    carries a mark that tells whether it was copied from the input or written
    by the renderer; no function reads it ([origin_marks_not_read]), and it
    lets the escaping property speak of the characters of the input.  And
    [html] is kept as the sequence of the fragments that the [html += ...]
    statements append, one constructor of [piece] for each statement; the
    string that the source builds is their concatenation ([htmlString]).

    After the renderer come three smaller parts of the application, written
    with the same strings and regular expressions: [removeMarkdown] of the
    chat interface, which prepares a message for speech; [validate] and
    [handleSubmit] of the login screen; and the handlers of the chat
    interface that stage an image or a file for the next message. *)

From Stdlib Require Import NArith Ascii String DecimalString Bool Arith Lia List.
From Equations Require Import Equations.
Import ListNotations.

Set Implicit Arguments.

(** ** Strings *)

(** Where a code unit of a string comes from: copied from the text handed to
    the renderer, or written by the renderer (a string literal of the
    source).  The mark is carried along and never read: every test below
    looks at [code] only ([origin_marks_not_read]). *)
Inductive origin : Type := Input | Markup.

(** A UTF-16 code unit. *)
Record unit16 : Type := U16 { code : N; from : origin }.

Definition str : Type := list unit16.

Definition codes (s : str) : list N := map code s.

Definition units (o : origin) (s : string) : str :=
  map (fun a => U16 (N_of_ascii a) o) (list_ascii_of_string s).

(** A string literal of the source. *)
Definition lit (s : string) : str := units Markup s.
Arguments lit s%_string : simpl never.

(** A piece of the text given to the renderer. *)
Definition input (s : string) : str := units Input s.
Arguments input s%_string : simpl never.

(** A string literal of the source that contains double quotes, written here
    with an apostrophe in the place of each double quote (no literal of the
    source contains an apostrophe). *)
Definition tpl (s : string) : str :=
  map (fun a => U16 (if N.eqb (N_of_ascii a) 39 then 34 else N_of_ascii a) Markup)
      (list_ascii_of_string s).
Arguments tpl s%_string : simpl never.

Definition c_nl : N := 10.
Definition c_hash : N := 35.
Definition c_amp : N := 38.
Definition c_lparen : N := 40.
Definition c_rparen : N := 41.
Definition c_star : N := 42.
Definition c_dash : N := 45.
Definition c_dot : N := 46.
Definition c_lt : N := 60.
Definition c_gt : N := 62.
Definition c_lbracket : N := 91.
Definition c_rbracket : N := 93.
Definition c_underscore : N := 95.
Definition c_backtick : N := 96.
Definition c_tilde : N := 126.

Definition has_code (n : N) (c : unit16) : bool := N.eqb (code c) n.

(** LineTerminator of ECMAScript: LF, CR, LS, PS. *)
Definition is_line_terminator (c : unit16) : bool :=
  has_code 10 c || has_code 13 c || has_code 8232 c || has_code 8233 c.

(** [\s] of a regular expression, and the characters [trim] removes:
    WhiteSpace and LineTerminator. *)
Definition is_space (c : unit16) : bool :=
  (N.leb 9 (code c) && N.leb (code c) 13) || has_code 32 c || has_code 160 c || has_code 5760 c
  || (N.leb 8192 (code c) && N.leb (code c) 8202)
  || has_code 8232 c || has_code 8233 c || has_code 8239 c || has_code 8287 c || has_code 12288 c || has_code 65279 c.

(** [.] of a regular expression without the [s] flag. *)
Definition is_dot (c : unit16) : bool := negb (is_line_terminator c).

(** [\d] *)
Definition is_digit (c : unit16) : bool := N.leb 48 (code c) && N.leb (code c) 57.

(** [[-*_]] *)
Definition is_rule_char (c : unit16) : bool :=
  has_code c_dash c || has_code c_star c || has_code c_underscore c.

(** [[\-*]] *)
Definition is_bullet (c : unit16) : bool := has_code c_dash c || has_code c_star c.

(** [[^`]] *)
Definition not_backtick (c : unit16) : bool := negb (has_code c_backtick c).

(** ** Regular expressions

    A pattern is matched at the head of a string; what follows it in the
    regular expression is its continuation [k], called on the rest of the
    string.  A quantifier returns the text it matched together with the
    result of the continuation, and tries its alternatives in the order of
    ECMAScript: a greedy quantifier the longest repetition first, a lazy one
    the shortest first, moving on when the continuation fails. *)
Section Regex.
Variable R : Type.

(** The continuation [k] after a repetition that took [lo] characters
    fewer than its minimum. *)
Definition stop (lo : nat) (k : str -> option R) (s : str) : option (str * R) :=
  match lo with
  | O => option_map (pair []) (k s)
  | S _ => None
  end.

Definition more (c : unit16) (r : option (str * R)) : option (str * R) :=
  match r with
  | Some (g, x) => Some (c :: g, x)
  | None => None
  end.

(** Greedy [p{lo,}]: [p*] is [greedy 0 p], [p+] is [greedy 1 p]. *)
Fixpoint greedy (lo : nat) (p : unit16 -> bool) (k : str -> option R) (s : str)
  : option (str * R) :=
  match s with
  | c :: s' =>
      if p c then
        match greedy (pred lo) p k s' with
        | Some (g, x) => Some (c :: g, x)
        | None => stop lo k s
        end
      else stop lo k s
  | [] => stop lo k s
  end.

(** Greedy [p{lo,lo+extra}]: [p?] is [greedy_upto 0 1 p]. *)
Fixpoint greedy_upto (lo extra : nat) (p : unit16 -> bool) (k : str -> option R)
  (s : str) : option (str * R) :=
  match lo, extra with
  | O, O => stop 0 k s
  | _, _ =>
      match s with
      | c :: s' =>
          if p c then
            match greedy_upto (pred lo) (match lo with O => pred extra | S _ => extra end)
                    p k s' with
            | Some (g, x) => Some (c :: g, x)
            | None => stop lo k s
            end
          else stop lo k s
      | [] => stop lo k s
      end
  end.

(** Lazy [p{lo,}?]: [p*?] is [lazy 0 p], [p+?] is [lazy 1 p]. *)
Fixpoint lazy (lo : nat) (p : unit16 -> bool) (k : str -> option R) (s : str)
  : option (str * R) :=
  match stop lo k s with
  | Some r => Some r
  | None =>
      match s with
      | c :: s' => if p c then more c (lazy (pred lo) p k s') else None
      | [] => None
      end
  end.

(** A single character of a class. *)
Definition one (p : unit16 -> bool) (k : str -> option R) (s : str) : option R :=
  match s with
  | c :: s' => if p c then k s' else None
  | [] => None
  end.

(** A sequence of literal characters. *)
Fixpoint exact (d : list N) (k : str -> option R) (s : str) : option R :=
  match d with
  | [] => k s
  | n :: d' =>
      match s with
      | c :: s' => if has_code n c then exact d' k s' else None
      | [] => None
      end
  end.

(** Alternation [a|b]: [b] is tried when [a] fails. *)
Definition alt (a b : str -> option R) (s : str) : option R :=
  match a s with
  | Some r => Some r
  | None => b s
  end.
End Regex.

(** [$] without the [m] flag: the end of the string. *)
Definition at_end (s : str) : option unit :=
  match s with
  | [] => Some tt
  | _ :: _ => None
  end.

(** The end of a regular expression: the match succeeds, whatever follows. *)
Definition done (s : str) : option str := Some s.

(** ** [String.prototype.replace] with a global regular expression

    [m] matches the expression at the head of a string and returns the
    captured groups with the rest of the string after the match; [repl]
    builds the replacement text from the groups.  The string is scanned from
    left to right; the search resumes after each match, and one character
    further when the match was empty. *)
Equations replace_global {G : Type} (m : str -> option (G * str)) (repl : G -> str)
  (s : str) : str by wf (length s) lt :=
  replace_global m repl [] := [];
  replace_global m repl (c :: s') with m (c :: s') => {
    | Some (g, rest) with le_lt_dec (length (c :: s')) (length rest) => {
        | left _ := repl g ++ c :: replace_global m repl s';
        | right _ := repl g ++ replace_global m repl rest };
    | None := c :: replace_global m repl s' }.

(** ** Inline formatting *)

(** [/&/g], [/</g], [/>/g]: a single literal character, no group. *)
Definition charMatch (n : N) (s : str) : option (unit * str) :=
  exact [n] (fun r => Some (tt, r)) s.

(** [d(.*?)d] for a literal delimiter [d]; the result is the group and the
    rest of the string. *)
Definition delimited (d : list N) (s : str) : option (str * str) :=
  exact d (lazy 0 is_dot (exact d done)) s.

(** [/(\*\*|__)(.*?)\1/g]: the back reference [\1] is the delimiter that the
    first group matched; the result is the second group. *)
Definition strongMatch : str -> option (str * str) :=
  alt (delimited [c_star; c_star]) (delimited [c_underscore; c_underscore]).

(** [/(\*|_)(.*?)\1/g] *)
Definition emMatch : str -> option (str * str) :=
  alt (delimited [c_star]) (delimited [c_underscore]).

(** [/~~(.*?)~~/g] *)
Definition delMatch : str -> option (str * str) :=
  delimited [c_tilde; c_tilde].

(** [/`([^`]+?)`/g] *)
Definition codeMatch (s : str) : option (str * str) :=
  exact [c_backtick] (lazy 1 not_backtick (exact [c_backtick] done)) s.

(** [/\[(.*?)\]\((.*?)\)/g]: the result is the pair of the two groups. *)
Definition linkMatch (s : str) : option ((str * str) * str) :=
  match
    exact [c_lbracket]
      (lazy 0 is_dot
         (exact [c_rbracket; c_lparen] (lazy 0 is_dot (exact [c_rparen] done)))) s
  with
  | Some (label, (url, rest)) => Some ((label, url), rest)
  | None => None
  end.

Definition strong_open : str := tpl "<strong class='font-semibold text-white'>".
Definition strong_close : str := lit "</strong>".
Definition code_open : str :=
  tpl "<code class='font-code bg-black/30 px-1 py-0.5 rounded-sm text-sm text-cyan-300'>".
Definition code_close : str := lit "</code>".

Definition strongHtml (g : str) : str := strong_open ++ g ++ strong_close.
Definition emHtml (g : str) : str := lit "<em>" ++ g ++ lit "</em>".
Definition delHtml (g : str) : str := lit "<del>" ++ g ++ lit "</del>".
Definition codeHtml (g : str) : str := code_open ++ g ++ code_close.
Definition linkHtml (g : str * str) : str :=
  tpl "<a href='" ++ snd g
  ++ tpl "' target='_blank' rel='noopener noreferrer' class='text-cyan-400 hover:underline'>"
  ++ fst g ++ lit "</a>".

(** The first three replacements of [applyInlineFormatting]. *)
Definition escapeHtml (line : str) : str :=
  replace_global (charMatch c_gt) (fun _ => lit "&gt;")
    (replace_global (charMatch c_lt) (fun _ => lit "&lt;")
       (replace_global (charMatch c_amp) (fun _ => lit "&amp;") line)).

Definition applyInlineFormatting (line : str) : str :=
  replace_global linkMatch linkHtml
    (replace_global codeMatch codeHtml
       (replace_global delMatch delHtml
          (replace_global emMatch emHtml
             (replace_global strongMatch strongHtml
                (escapeHtml line))))).

(** ** Lines *)

(** [text.split('\n')] *)
Fixpoint split (s : str) : list str :=
  match s with
  | [] => [[]]
  | c :: s' =>
      if has_code c_nl c then [] :: split s'
      else match split s' with
           | l :: ls => (c :: l) :: ls
           | [] => [[c]]
           end
  end.

(** The string literal ['\n']. *)
Definition newline : str := lit (String "010" EmptyString).

(** [lines.join('\n')] *)
Fixpoint join (ls : list str) : str :=
  match ls with
  | [] => []
  | [l] => l
  | l :: ls' => l ++ newline ++ join ls'
  end.

Fixpoint trimStart (s : str) : str :=
  match s with
  | c :: s' => if is_space c then trimStart s' else s
  | [] => []
  end.

Definition trimEnd (s : str) : str := rev (trimStart (rev s)).

(** [s.trim()] *)
Definition trim (s : str) : str := trimEnd (trimStart s).

(** [s.startsWith('>')] *)
Definition startsWith (n : N) (s : str) : bool :=
  match s with
  | c :: _ => has_code n c
  | [] => false
  end.

(** [s.substring(1)] *)
Definition substring1 (s : str) : str := tl s.

(** [s.trim() === ''] *)
Definition isBlank (s : str) : bool :=
  match trim s with
  | [] => true
  | _ :: _ => false
  end.

(** ** The block patterns *)

Definition matched {A : Type} (r : option A) : bool :=
  match r with
  | Some _ => true
  | None => false
  end.

(** The heading pattern: [^], the group [#{1,3}], [\s+], and a second group
    [.*] that ends the expression.  The result is the number of [#] and the
    second group. *)
Definition headingMatch (line : str) : option (nat * str) :=
  match greedy_upto 1 2 (has_code c_hash) (greedy 1 is_space (greedy 0 is_dot done)) line with
  | Some (hashes, (_, (content, _))) => Some (length hashes, content)
  | None => None
  end.

(** The blockquote pattern: [^>\s?] and a group [.*] that ends the
    expression.  The result is the group. *)
Definition blockquoteMatch (line : str) : option str :=
  match exact [c_gt] (greedy_upto 0 1 is_space (greedy 0 is_dot done)) line with
  | Some (_, (content, _)) => Some content
  | None => None
  end.

(** [/^[-*_]{3,}$/] *)
Definition hrMatch (line : str) : bool :=
  matched (greedy 3 is_rule_char at_end line).

(** The pattern of an unordered item: [^], the group [\s*], [[\-*]\s+], and
    a second group [.*] that ends the expression.  The result is the second
    group. *)
Definition ulMatch (line : str) : option str :=
  match greedy 0 is_space (one is_bullet (greedy 1 is_space (greedy 0 is_dot done))) line with
  | Some (_, (_, (content, _))) => Some content
  | None => None
  end.

(** The pattern of an ordered item: [^], the group [\s*], [\d+\.\s+], and a
    second group [.*] that ends the expression.  The result is the second
    group. *)
Definition olMatch (line : str) : option str :=
  match
    greedy 0 is_space
      (greedy 1 is_digit (exact [c_dot] (greedy 1 is_space (greedy 0 is_dot done)))) line
  with
  | Some (_, (_, (_, (content, _)))) => Some content
  | None => None
  end.

(** The test that ends a paragraph: [^] and a group of five alternatives,
    [#{1,3}\s+.*], [>\s?.*], [[-*_]{3,}], [\s*[\-*]\s+.*] and
    [\s*\d+\.\s+.*] (each [\s*] in a group of its own), one for each block
    pattern; the third one has no [$]. *)
Definition startsBlock (line : str) : bool :=
  matched (greedy_upto 1 2 (has_code c_hash) (greedy 1 is_space (greedy 0 is_dot done)) line)
  || matched (exact [c_gt] (greedy_upto 0 1 is_space (greedy 0 is_dot done)) line)
  || matched (greedy 3 is_rule_char done line)
  || matched (greedy 0 is_space (one is_bullet (greedy 1 is_space (greedy 0 is_dot done))) line)
  || matched
       (greedy 0 is_space
          (greedy 1 is_digit (exact [c_dot] (greedy 1 is_space (greedy 0 is_dot done)))) line).

(** ** The output *)

Inductive list_kind : Type := UL | OL.

(** What one [html += ...] statement of the source appends. *)
Inductive piece : Type :=
| ListOpen (k : list_kind)
| ListClose (k : list_kind)
| ListItem (content : str)
| Heading (level : nat) (content : str)
| Blockquote (quoteContent : list str)
| Rule
| Paragraph (content : str).

Definition tagName (k : list_kind) : str :=
  match k with
  | UL => lit "ul"
  | OL => lit "ol"
  end.

(** [level === 1 ? ... : level === 2 ? ... : ...] *)
Definition size (level : nat) : str :=
  match level with
  | 1 => lit "text-xl mt-5 mb-3"
  | 2 => lit "text-lg mt-4 mb-2"
  | _ => lit "text-base mt-3 mb-1"
  end.

(** A number inside a template literal. *)
Definition number (n : nat) : str := lit (NilEmpty.string_of_uint (Nat.to_uint n)).

(** The text of each piece: the string and template literals of the source. *)
Definition markup (p : piece) : str :=
  match p with
  | ListOpen UL => tpl "<ul class='list-disc list-outside space-y-2 my-3 pl-6'>"
  | ListOpen OL => tpl "<ol class='list-decimal list-outside space-y-2 my-3 pl-6'>"
  | ListClose k => lit "</" ++ tagName k ++ lit ">"
  | ListItem content => lit "<li>" ++ content ++ lit "</li>"
  | Heading level content =>
      lit "<h" ++ number level ++ tpl " class='" ++ size level
      ++ tpl " font-semibold text-white'>" ++ content ++ lit "</h" ++ number level ++ lit ">"
  | Blockquote quoteContent =>
      tpl "<blockquote class='border-l-4 border-cyan-500/50 pl-4 my-3 text-gray-300 italic bg-black/25 py-2 whitespace-pre-wrap'>"
      ++ join quoteContent ++ lit "</blockquote>"
  | Rule => tpl "<hr class='my-4 border-gray-600'/>"
  | Paragraph content => tpl "<p class='my-2 leading-relaxed'>" ++ content ++ lit "</p>"
  end.

(** ** The loop *)

(** The variables of [renderSimpleMarkdown]: [lines] from index [i] on, the
    pieces appended to [html] so far, and [inList]. *)
Record state : Type := State {
  pending : list str;
  html : list piece;
  inList : option list_kind
}.

Definition closeListIfNeeded (html : list piece) (inList : option list_kind) : list piece :=
  match inList with
  | Some k => html ++ [ListClose k]
  | None => html
  end.

(** The inner loop of the blockquote case: the lines after the first that
    start with [>], formatted, and the lines left. *)
Fixpoint quoteLines (rest : list str) : list str * list str :=
  match rest with
  | l :: rest' =>
      if startsWith c_gt l then
        let (q, r) := quoteLines rest' in
        (applyInlineFormatting (trim (substring1 l)) :: q, r)
      else ([], rest)
  | [] => ([], [])
  end.

(** The inner loop of the paragraph case: the lines that continue the
    paragraph, and the lines left. *)
Fixpoint paragraphLines (rest : list str) : list str * list str :=
  match rest with
  | nextLine :: rest' =>
      if isBlank nextLine || startsBlock nextLine then ([], rest)
      else let (p, r) := paragraphLines rest' in (nextLine :: p, r)
  | [] => ([], [])
  end.

(** One turn of the [while] loop, on the line [lines[i]] and the lines after
    it. *)
Definition iteration (line : str) (rest : list str) (html : list piece)
  (inList : option list_kind) : state :=
  match headingMatch line with
  | Some (level, content) =>
      State rest
        (closeListIfNeeded html inList ++ [Heading level (applyInlineFormatting content)])
        None
  | None =>
  match blockquoteMatch line with
  | Some content =>
      let (q, rest') := quoteLines rest in
      State rest'
        (closeListIfNeeded html inList ++ [Blockquote (applyInlineFormatting content :: q)])
        None
  | None =>
  if hrMatch line then
    State rest (closeListIfNeeded html inList ++ [Rule]) None
  else
  match ulMatch line with
  | Some content =>
      State rest
        (match inList with
         | Some UL => html
         | _ => closeListIfNeeded html inList ++ [ListOpen UL]
         end ++ [ListItem (applyInlineFormatting content)])
        (Some UL)
  | None =>
  match olMatch line with
  | Some content =>
      State rest
        (match inList with
         | Some OL => html
         | _ => closeListIfNeeded html inList ++ [ListOpen OL]
         end ++ [ListItem (applyInlineFormatting content)])
        (Some OL)
  | None =>
  if negb (isBlank line) then
    let (p, rest') := paragraphLines rest in
    State rest'
      (closeListIfNeeded html inList ++ [Paragraph (applyInlineFormatting (join (line :: p)))])
      None
  else
    State rest (closeListIfNeeded html inList) None
  end end end end.

(** The [while] loop and the statement after it; [None] when [fuel] turns of
    the loop were not enough to reach the end of the lines. *)
Fixpoint loop (fuel : nat) (st : state) : option (list piece) :=
  match pending st with
  | [] => Some (closeListIfNeeded (html st) (inList st))
  | line :: rest =>
      match fuel with
      | O => None
      | S fuel' => loop fuel' (iteration line rest (html st) (inList st))
      end
  end.

(** The pieces that make up the result for a non-empty text. *)
Definition renderPieces (text : str) : option (list piece) :=
  let lines := split text in
  loop (length lines) (State lines [] None).

Definition htmlString (ps : list piece) : str := flat_map markup ps.

Definition renderSimpleMarkdown (text : str) : option str :=
  match text with
  | [] => Some []
  | _ :: _ => option_map htmlString (renderPieces text)
  end.

(** A text given as its lines. *)
Definition textOf (ls : list string) : str :=
  concat (map (fun l => input l) (firstn 1 ls)
          ++ map (fun l => U16 c_nl Input :: input l) (skipn 1 ls)).

Arguments textOf ls%_list.

(** * Text for speech: [removeMarkdown] of [ChatInterface] *)

(** The text of a match: what stands in [s] before [rest]. *)
Definition taken (s rest : str) : str := firstn (length s - length rest) s.

(** [replace] with a global expression that has the [m] flag and starts
    with [^].  [bol] tells whether the place where [s] starts is the start of
    a line of the whole string: its beginning, or the place after a line
    terminator.  [m] is given [bol] together with the string. *)
Equations replace_lines {G : Type} (m : bool -> str -> option (G * str))
  (repl : G -> str) (bol : bool) (s : str) : str by wf (length s) lt :=
  replace_lines m repl bol [] := [];
  replace_lines m repl bol (c :: s') with m bol (c :: s') => {
    | Some (g, rest) with le_lt_dec (length (c :: s')) (length rest) => {
        | left _ := repl g ++ c :: replace_lines m repl (is_line_terminator c) s';
        | right _ :=
            repl g
            ++ replace_lines m repl
                 (is_line_terminator (last (taken (c :: s') rest) c)) rest };
    | None := c :: replace_lines m repl (is_line_terminator c) s' }.

(** [^] with the [m] flag in front of an expression. *)
Definition atLineStart (R : Type) (m : str -> option R) (bol : bool) (s : str)
  : option R :=
  if bol then m s else None.

(** [$] with the [m] flag: the end of the string, or the place in front of a
    line terminator. *)
Definition at_line_end (s : str) : option str :=
  match s with
  | [] => Some s
  | c :: _ => if is_line_terminator c then Some s else None
  end.

(** [[\s\S]] *)
Definition any_char (c : unit16) : bool := true.

Definition c_bang : N := 33.
Definition c_plus : N := 43.

(** [[-*+]] *)
Definition is_marker (c : unit16) : bool :=
  has_code c_dash c || has_code c_star c || has_code c_plus c.

(** [/```[\s\S]*?```/g] *)
Definition fenceMatch (s : str) : option (str * str) :=
  exact [c_backtick; c_backtick; c_backtick]
    (lazy 0 any_char (exact [c_backtick; c_backtick; c_backtick] done)) s.

(** [/!\[(.*?)\]\(.*?\)/g]: the result is the group. *)
Definition imageMatch (s : str) : option (str * str) :=
  match
    exact [c_bang; c_lbracket]
      (lazy 0 is_dot
         (exact [c_rbracket; c_lparen] (lazy 0 is_dot (exact [c_rparen] done)))) s
  with
  | Some (alt_, (_, rest)) => Some (alt_, rest)
  | None => None
  end.

(** [/^#{1,6}\s+/gm] *)
Definition headingMark : bool -> str -> option (unit * str) :=
  atLineStart
    (fun s =>
       match greedy_upto 1 5 (has_code c_hash) (greedy 1 is_space done) s with
       | Some (_, (_, rest)) => Some (tt, rest)
       | None => None
       end).

(** [/^>\s+/gm] *)
Definition quoteMark : bool -> str -> option (unit * str) :=
  atLineStart
    (fun s =>
       match exact [c_gt] (greedy 1 is_space done) s with
       | Some (_, rest) => Some (tt, rest)
       | None => None
       end).

(** [/^\s*[-*+]\s+/gm] *)
Definition bulletMark : bool -> str -> option (unit * str) :=
  atLineStart
    (fun s =>
       match greedy 0 is_space (one is_marker (greedy 1 is_space done)) s with
       | Some (_, (_, rest)) => Some (tt, rest)
       | None => None
       end).

(** [/^\s*\d+\.\s+/gm] *)
Definition numberMark : bool -> str -> option (unit * str) :=
  atLineStart
    (fun s =>
       match
         greedy 0 is_space (greedy 1 is_digit (exact [c_dot] (greedy 1 is_space done))) s
       with
       | Some (_, (_, (_, rest))) => Some (tt, rest)
       | None => None
       end).

(** [/^-{3,}\s*$/gm] *)
Definition ruleMark : bool -> str -> option (unit * str) :=
  atLineStart
    (fun s =>
       match greedy 3 (has_code c_dash) (greedy 0 is_space at_line_end) s with
       | Some (_, (_, rest)) => Some (tt, rest)
       | None => None
       end).

(** [/\n{2,}/g] *)
Definition newlinesMatch (s : str) : option (unit * str) :=
  match greedy 2 (has_code c_nl) done s with
  | Some (_, rest) => Some (tt, rest)
  | None => None
  end.

Definition nothing (G : Type) (g : G) : str := [].
Definition group (g : str) : str := g.

(** The replacements of [removeMarkdown], one after the other. *)
Definition unfenced (text : str) : str := replace_global fenceMatch (@nothing str) text.
Definition unimaged (text : str) : str := replace_global imageMatch group (unfenced text).
Definition unlinked (text : str) : str :=
  replace_global linkMatch (fun g => fst g) (unimaged text).
Definition unheaded (text : str) : str :=
  replace_lines headingMark (@nothing unit) true (unlinked text).
Definition unbolded (text : str) : str := replace_global strongMatch group (unheaded text).
Definition unslanted (text : str) : str := replace_global emMatch group (unbolded text).
Definition unstruck (text : str) : str := replace_global delMatch group (unslanted text).
Definition unquoted (text : str) : str :=
  replace_lines quoteMark (@nothing unit) true (unstruck text).
Definition unbulleted (text : str) : str :=
  replace_lines bulletMark (@nothing unit) true (unquoted text).
Definition unnumbered (text : str) : str :=
  replace_lines numberMark (@nothing unit) true (unbulleted text).
Definition unruled (text : str) : str :=
  replace_lines ruleMark (@nothing unit) true (unnumbered text).
Definition collapsed (text : str) : str :=
  replace_global newlinesMatch (fun _ => newline) (unruled text).

Definition removeMarkdown (text : str) : str :=
  match text with
  | [] => []
  | _ :: _ => trim (collapsed text)
  end.

(** * The login form: [validate] and [handleSubmit] of [LoginScreen] *)

(** [\S] *)
Definition not_space (c : unit16) : bool := negb (is_space c).

Definition c_at : N := 64.

(** [regex.test(s)] for an expression without [^]: the expression is tried
    at every position of the string, from the left. *)
Fixpoint test (R : Type) (m : str -> option R) (s : str) : bool :=
  matched (m s)
  || match s with
     | [] => false
     | _ :: s' => test m s'
     end.

(** [/\S+@\S+\.\S+/] at the head of a string. *)
Definition emailMatch (s : str) : option (str * (str * (str * str))) :=
  greedy 1 not_space
    (exact [c_at] (greedy 1 not_space (exact [c_dot] (greedy 1 not_space done)))) s.

(** The object [newErrors] of [validate]: a field is [None] when the key is
    not set. *)
Record fieldErrors : Type := FieldErrors {
  usernameError : option str;
  passwordError : option str
}.

(** [Object.keys(newErrors).length === 0] *)
Definition noErrors (e : fieldErrors) : bool :=
  match usernameError e, passwordError e with
  | None, None => true
  | _, _ => false
  end.

(** [validate]: the errors it stores with [setErrors] and the value it
    returns. *)
Definition validate (username password : str) : fieldErrors * bool :=
  let newErrors :=
    FieldErrors
      (match username with
       | [] => Some (lit "Email address is required.")
       | _ :: _ =>
           if negb (test emailMatch username)
           then Some (lit "Please enter a valid email address.")
           else None
       end)
      (match password with
       | [] => Some (lit "Password is required.")
       | _ :: _ =>
           if length password <? 6
           then Some (lit "Password must be at least 6 characters.")
           else None
       end) in
  (newErrors, noErrors newErrors).

(** The state of [LoginScreen]; [errors] holds the two field errors and the
    error of the form. *)
Record loginForm : Type := LoginForm {
  username : str;
  password : str;
  isLoginView : bool;
  isLoading : bool;
  errors : fieldErrors;
  formError : option str
}.

Inductive authAction : Type := OnLogin | OnSignup.

(** [handleSubmit] up to its [await]: the new state, and the call of
    [onLogin] or [onSignup] that it makes, if any. *)
Definition handleSubmit (f : loginForm) : loginForm * option (authAction * str * str) :=
  let (newErrors, ok) := validate (username f) (password f) in
  if negb ok then
    (LoginForm (username f) (password f) (isLoginView f) (isLoading f) newErrors None, None)
  else
    (LoginForm (username f) (password f) (isLoginView f) true newErrors None,
     Some (if isLoginView f then OnLogin else OnSignup, username f, password f)).

(** [handleSubmit] after its [await], on the result of the call: the new
    state and the toast it adds, if any. *)
Definition handleSubmitResult (f : loginForm) (success : bool) (message : str)
  : loginForm * option str :=
  if success then (f, Some message)
  else
    (LoginForm (username f) (password f) (isLoginView f) false
       (FieldErrors None None) (Some message),
     None).

(** [toggleView] *)
Definition toggleView (f : loginForm) : loginForm :=
  LoginForm [] [] (negb (isLoginView f)) (isLoading f) (FieldErrors None None) None.

(** * Staged attachments: [ChatInterface] *)

Section Staging.
Variable File : Type.

(** The state that [handleSendMessage], [handleStageImage] and
    [handleStageFile] read and write. *)
Record composer : Type := Composer {
  inputValue : str;
  selectedImageApi : str;
  stagedImage : option File;
  stagedFile : option File
}.

(** The arguments of a call of [sendMessage]. *)
Record sent : Type := Sent {
  prompt : str;
  apiName : str;
  imageFile : option File;
  analysisFile : option File
}.

Definition handleSendMessage (st : composer) : composer * sent :=
  (Composer [] (selectedImageApi st) None None,
   Sent (inputValue st) (selectedImageApi st) (stagedImage st) (stagedFile st)).

Definition handleStageImage (file : option File) (st : composer) : composer :=
  Composer (inputValue st) (selectedImageApi st) file
    (match file with
     | Some _ => None
     | None => stagedFile st
     end).

Definition handleStageFile (file : option File) (st : composer) : composer :=
  Composer (inputValue st) (selectedImageApi st)
    (match file with
     | Some _ => None
     | None => stagedImage st
     end)
    file.

(** What the user does to the composer. *)
Inductive composerEvent : Type :=
| InputChange (text : str)
| ApiChange (api : str)
| StageImage (file : option File)
| StageFile (file : option File)
| Send.

(** One event: the new state, and the call of [sendMessage], if any. *)
Definition composerStep (st : composer) (e : composerEvent) : composer * option sent :=
  match e with
  | InputChange text => (Composer text (selectedImageApi st) (stagedImage st) (stagedFile st), None)
  | ApiChange api => (Composer (inputValue st) api (stagedImage st) (stagedFile st), None)
  | StageImage file => (handleStageImage file st, None)
  | StageFile file => (handleStageFile file st, None)
  | Send => let (st', call) := handleSendMessage st in (st', Some call)
  end.

(** A sequence of events: the last state and the calls of [sendMessage], in
    order. *)
Fixpoint composerRun (st : composer) (es : list composerEvent) : composer * list sent :=
  match es with
  | [] => (st, [])
  | e :: es' =>
      let (st', call) := composerStep st e in
      let (st'', calls) := composerRun st' es' in
      (st'', match call with
             | Some c => c :: calls
             | None => calls
             end)
  end.

(** [useState('All')], [useState('')], [useState(null)], [useState(null)] *)
Definition composerStart : composer := Composer [] (lit "All") None None.
End Staging.

(** * Notions used in the properties *)

(** What the three escaping replacements make of one character. *)
Definition escapeUnit (c : unit16) : str :=
  if has_code c_amp c then lit "&amp;"
  else if has_code c_lt c then lit "&lt;"
  else if has_code c_gt c then lit "&gt;"
  else [c].

(** A character of the output is harmless when it was written by the
    renderer or, copied from the input, is none of [&], [<], [>]. *)
Definition escaped (c : unit16) : Prop :=
  from c = Input -> code c <> c_amp /\ code c <> c_lt /\ code c <> c_gt.

(** Reading the pieces from left to right with the kind of list that is
    open: a list is opened only when none is open, items come only inside a
    list, a list is closed by the closing tag of its own kind, and every
    other block comes only when no list is open.  The result is the list left
    open at the end, or [None] when a piece was out of place. *)
Fixpoint scan (open : option list_kind) (ps : list piece) : option (option list_kind) :=
  match ps with
  | [] => Some open
  | ListOpen k :: ps' =>
      match open with
      | None => scan (Some k) ps'
      | Some _ => None
      end
  | ListClose k :: ps' =>
      match open, k with
      | Some UL, UL | Some OL, OL => scan None ps'
      | _, _ => None
      end
  | ListItem _ :: ps' =>
      match open with
      | Some _ => scan open ps'
      | None => None
      end
  | _ :: ps' =>
      match open with
      | None => scan None ps'
      | Some _ => None
      end
  end.

(** Every list that is opened is closed, with its items in between. *)
Definition wellBracketed (ps : list piece) : bool :=
  match scan None ps with
  | Some None => true
  | _ => false
  end.

Definition pieceEscaped (p : piece) : Prop := Forall escaped (markup p).

(** The tags of the blocks, read from a string.  [startsWithText t s]: the
    string [s] starts with the characters of [t]. *)
Inductive tag : Type :=
| TagOpen (k : list_kind)
| TagClose (k : list_kind)
| TagItem
| TagBlock.

Definition c_slash : N := 47.

Definition startsWithText (t : string) (s : str) : bool :=
  matched (exact (codes (lit t)) done s).

(** The tag whose name stands at the head of [s], the text after a [<]:
    the opening and the closing tag of a list of either kind, the opening tag
    of an item, or the opening tag of a heading, a blockquote, a rule or a
    paragraph. *)
Definition tagAfter (s : str) : option tag :=
  if startsWithText "ul " s then Some (TagOpen UL)
  else if startsWithText "ol " s then Some (TagOpen OL)
  else if startsWithText "/ul>" s then Some (TagClose UL)
  else if startsWithText "/ol>" s then Some (TagClose OL)
  else if startsWithText "li>" s then Some TagItem
  else if startsWithText "h1 " s || startsWithText "h2 " s || startsWithText "h3 " s
          || startsWithText "blockquote " s || startsWithText "hr " s
          || startsWithText "p " s
       then Some TagBlock
  else None.

(** The tags of the blocks in a string, from left to right. *)
Fixpoint tags (s : str) : list tag :=
  match s with
  | c :: s' =>
      match (if has_code c_lt c then tagAfter s' else None) with
      | Some t => t :: tags s'
      | None => tags s'
      end
  | [] => []
  end.

(** [scan] on tags: a list is opened only when none is open, items come
    only inside a list, a list is closed by the closing tag of its own kind,
    and every other block comes only when no list is open. *)
Fixpoint scanTags (open : option list_kind) (ts : list tag) : option (option list_kind) :=
  match ts with
  | [] => Some open
  | TagOpen k :: ts' =>
      match open with
      | None => scanTags (Some k) ts'
      | Some _ => None
      end
  | TagClose k :: ts' =>
      match open, k with
      | Some UL, UL | Some OL, OL => scanTags None ts'
      | _, _ => None
      end
  | TagItem :: ts' =>
      match open with
      | Some _ => scanTags open ts'
      | None => None
      end
  | TagBlock :: ts' =>
      match open with
      | None => scanTags None ts'
      | Some _ => None
      end
  end.

(** In the string [out], every opening tag of a list is followed by items
    only and then by the closing tag of the same kind, and no item and no
    closing tag of a list stands elsewhere. *)
Definition tagsWellBracketed (out : str) : bool :=
  match scanTags None (tags out) with
  | Some None => true
  | _ => false
  end.

(** The tag with which the text of a piece starts. *)
Definition tagOf (p : piece) : tag :=
  match p with
  | ListOpen k => TagOpen k
  | ListClose k => TagClose k
  | ListItem _ => TagItem
  | _ => TagBlock
  end.

(** The first letters of the names of the inline elements: [a], [code],
    [del], [em], [strong]. *)
Definition is_inline_letter (c : unit16) : bool :=
  has_code 97 c || has_code 99 c || has_code 100 c || has_code 101 c || has_code 115 c.

(** The text after a [<] is the name of an inline element, or [/] and such
    a name. *)
Definition inlineTagStart (s : str) : bool :=
  match s with
  | y :: t =>
      is_inline_letter y
      || (has_code c_slash y
          && match t with
             | z :: _ => is_inline_letter z
             | [] => false
             end)
  | [] => false
  end.

(** Every [<] of [s] opens or closes an inline element. *)
Fixpoint inlineTagsOnly (s : str) : bool :=
  match s with
  | c :: t => (if has_code c_lt c then inlineTagStart t else true) && inlineTagsOnly t
  | [] => true
  end.

(** A piece whose content holds inline elements only, and a heading of
    level one to three. *)
Definition pieceTidy (p : piece) : Prop :=
  match p with
  | ListItem content | Paragraph content => inlineTagsOnly content = true
  | Heading level content => 1 <= level <= 3 /\ inlineTagsOnly content = true
  | Blockquote quoteContent => inlineTagsOnly (join quoteContent) = true
  | _ => True
  end.

(** A string that does not start with a character of the class. *)
Definition stopsAt (p : unit16 -> bool) (s : str) : Prop :=
  match s with
  | c :: _ => p c = false
  | [] => True
  end.

(** The result of the case of a horizontal rule. *)
Definition ruleEmitted (rest : list str) (html : list piece) (inList : option list_kind)
  : state :=
  State rest (closeListIfNeeded html inList ++ [Rule]) None.

(** The reading of the specification: three or more copies of one of [-],
    [*], [_], white space around them allowed. *)
Definition specRuleLine (line : str) : bool :=
  match trim line with
  | c :: r => is_rule_char c && forallb (has_code (code c)) r && (3 <=? length (c :: r))
  | [] => false
  end.

(** The characters at which a match of one of the eight replacements can
    start. *)
Definition special (c : unit16) : bool :=
  has_code c_amp c || has_code c_lt c || has_code c_gt c || has_code c_star c
  || has_code c_underscore c || has_code c_tilde c || has_code c_backtick c
  || has_code c_lbracket c.

Definition plain (s : str) : Prop := Forall (fun c => special c = false) s.

(** The markup after escaping: the last five replacements. *)
Definition inlineMarkup (s : str) : str :=
  replace_global linkMatch linkHtml
    (replace_global codeMatch codeHtml
       (replace_global delMatch delHtml
          (replace_global emMatch emHtml
             (replace_global strongMatch strongHtml s)))).

(** The pieces up to and including the opening tag of a list of kind [k],
    when a line of that kind is met. *)
Definition listStart (k : list_kind) (html : list piece) (inList : option list_kind)
  : list piece :=
  match inList, k with
  | Some UL, UL | Some OL, OL => html
  | _, _ => closeListIfNeeded html inList ++ [ListOpen k]
  end.

(** The characters at which a match of the replacements before the one for
    code spans can start. *)
Definition earlier (c : unit16) : bool :=
  has_code c_amp c || has_code c_lt c || has_code c_gt c || has_code c_star c
  || has_code c_underscore c || has_code c_tilde c.

(** The replacements before the one for code spans. *)
Definition beforeCode (s : str) : str :=
  replace_global delMatch delHtml
    (replace_global emMatch emHtml
       (replace_global strongMatch strongHtml (escapeHtml s))).

(** The characters that the markup replacements react to. *)
Definition delimiterChar (c : unit16) : bool :=
  has_code c_star c || has_code c_underscore c || has_code c_tilde c
  || has_code c_backtick c || has_code c_lbracket c.

Definition quiet (s : str) : Prop := Forall (fun c => delimiterChar c = false) s.

(** The characters of bold, italic and strikethrough. *)
Definition is_emphasis_mark (c : unit16) : bool :=
  has_code c_star c || has_code c_underscore c || has_code c_tilde c.

(** Where a place of a line is with respect to the backticks before it:
    outside a pair, just after the first backtick of a pair, or further in. *)
Inductive tick_state : Type := Outside | Opened | Inside.

Definition afterText (st : tick_state) : tick_state :=
  match st with
  | Outside => Outside
  | _ => Inside
  end.

Fixpoint ticksFrom (st : tick_state) (s : str) : bool :=
  match s with
  | [] =>
      match st with
      | Outside => true
      | _ => false
      end
  | c :: s' =>
      if has_code c_backtick c then
        match st with
        | Outside => ticksFrom Opened s'
        | Opened => false
        | Inside => ticksFrom Outside s'
        end
      else ticksFrom (afterText st) s'
  end.

(** The backticks of [p] come in pairs, the first with the second, the third
    with the fourth and so on, each pair with one character or more between
    its two backticks. *)
Definition ticksPaired (p : str) : bool := ticksFrom Outside p.

(** [decorated s out]: [out] is [s] in which some runs of [*], [_] and [~]
    have been replaced by text without backtick and without [[]. *)
Inductive decorated : str -> str -> Prop :=
| decorated_nil : decorated [] []
| decorated_keep c s out : decorated s out -> decorated (c :: s) (c :: out)
| decorated_mark d m s out :
    d <> [] -> Forall (fun c => is_emphasis_mark c = true) d ->
    m <> [] -> Forall (fun c => has_code c_backtick c = false) m ->
    Forall (fun c => has_code c_lbracket c = false) m ->
    decorated s out -> decorated (d ++ s) (m ++ out).

(** [[-*_]{3,}] without [$]: three rule characters at the start of a line. *)
Definition ruleStart (line : str) : bool :=
  matched (greedy 3 is_rule_char done line).

Definition erase (s : str) : str := map (fun c => U16 (code c) Markup) s.

(** A class of characters that is a class of code units. *)
Definition unmarked (p : unit16 -> bool) : Prop :=
  forall c, p (U16 (code c) Markup) = p c.

(** The erasure of the text of a quantifier and of what follows it. *)
Definition eraseGroup (R : Type) (f : R -> R) (r : str * R) : str * R :=
  (erase (fst r), f (snd r)).

(** A continuation that does not read the marks. *)
Definition blind (R : Type) (f : R -> R) (k : str -> option R) : Prop :=
  forall t, k (erase t) = option_map f (k t).

Definition eraseHeading (r : nat * str) : nat * str := (fst r, erase (snd r)).

(** The erasure of a piece, of the pieces and of a state. *)
Definition erasePiece (p : piece) : piece :=
  match p with
  | ListItem content => ListItem (erase content)
  | Heading level content => Heading level (erase content)
  | Blockquote quoteContent => Blockquote (map erase quoteContent)
  | Paragraph content => Paragraph (erase content)
  | _ => p
  end.

Definition eraseState (st : state) : state :=
  State (map erase (pending st)) (map erasePiece (html st)) (inList st).

(** A line that only the loop itself can take: the inner loops of the
    blockquote and paragraph cases stop in front of it. *)
Definition reachesLoop (line : str) (rest : list str) : Prop :=
  quoteLines (line :: rest) = ([], line :: rest)
  /\ paragraphLines (line :: rest) = ([], line :: rest).

(** The lines at which one of the inner loops stops: none is left, or the
    first one left passes the test [stopper]. *)
Definition runEnds (stopper : str -> bool) (r : list str) : Prop :=
  match r with
  | [] => True
  | l :: _ => stopper l = true
  end.

(** A line of prose: no character that a replacement reacts to, no line
    break, and a first character that starts no block. *)
Definition prose (line : str) : Prop :=
  plain line
  /\ Forall (fun c => has_code c_nl c = false) line
  /\ match line with
     | c :: _ =>
         is_space c = false /\ has_code c_hash c = false /\ is_rule_char c = false
         /\ is_digit c = false
     | [] => False
     end.

(** The lines of a text put together again, with [nl] between them. *)
Fixpoint unlines (nl : unit16) (ls : list str) : str :=
  match ls with
  | [] => []
  | [l] => l
  | l :: ls' => l ++ nl :: unlines nl ls'
  end.

(** What [/\S+@\S+\.\S+/] looks for: somewhere in the string, a character
    that is no white space, [@], one or more characters that are no white
    space, [.], and a character that is no white space. *)
Definition emailLike (u : str) : Prop :=
  exists a x at_ mid dot y b,
    u = a ++ x :: at_ :: mid ++ dot :: y :: b
    /\ not_space x = true /\ code at_ = c_at
    /\ mid <> [] /\ Forall (fun c => not_space c = true) mid
    /\ code dot = c_dot /\ not_space y = true.

(** At most one attachment. *)
Definition oneAttachment (File : Type) (image file : option File) : Prop :=
  image = None \/ file = None.

(** ** Notions for escaping and for the text for speech *)

(** The code units that the escaping makes of one code unit. *)
Definition escapeCode (n : N) : list N :=
  if N.eqb n c_amp then [38; 97; 109; 112; 59]%N
  else if N.eqb n c_lt then [38; 108; 116; 59]%N
  else if N.eqb n c_gt then [38; 103; 116; 59]%N
  else [n].

(** The characters with which a code block, an image or a link starts. *)
Definition is_opener (c : unit16) : bool :=
  has_code c_backtick c || has_code c_bang c || has_code c_lbracket c.

(** The characters of the marks inside a line. *)
Definition is_inline_mark (c : unit16) : bool :=
  has_code c_backtick c || has_code c_lbracket c || has_code c_star c
  || has_code c_underscore c || has_code c_tilde c.

(** [*] and [_], the characters of bold and italic text. *)
Definition is_emphasis_char (c : unit16) : bool :=
  has_code c_star c || has_code c_underscore c.

(** The characters with which the mark of a line starts. *)
Definition is_line_mark (c : unit16) : bool :=
  has_code c_hash c || has_code c_gt c || is_marker c || is_digit c.

(** The characters that start a match of one of the first seven
    replacements. *)
Definition is_early_mark (c : unit16) : bool :=
  is_opener c || is_inline_mark c || has_code c_hash c.

(** A character that starts no mark, neither inside a line nor at its start. *)
Definition is_plain_char (c : unit16) : bool :=
  negb (is_opener c || is_inline_mark c || is_line_mark c).

(** Another character than the one with code [n]. *)
Definition notCode (n : N) (c : unit16) : bool := negb (has_code n c).

(** Whether the place after [a] is the start of a line, where [bol] tells
    it for the place in front of [a]. *)
Definition lineStartAfter (bol : bool) (a : str) : bool :=
  fold_left (fun _ c => is_line_terminator c) a bol.

(** The expression [m], which starts with [^], matches nowhere in [s]. *)
Fixpoint matchesNowhere (G : Type) (m : bool -> str -> option (G * str))
  (bol : bool) (s : str) : Prop :=
  m bol s = None
  /\ match s with
     | [] => True
     | c :: s' => matchesNowhere m (is_line_terminator c) s'
     end.

(** [s] neither starts nor ends with white space. *)
Definition tidyEnds (s : str) : bool :=
  match s with
  | c :: _ => negb (is_space c) && negb (is_space (last s c))
  | [] => true
  end.

(** Two line feeds in a row somewhere in [s]. *)
Fixpoint doubled (s : str) : bool :=
  match s with
  | c :: t =>
      match t with
      | d :: _ => (has_code c_nl c && has_code c_nl d) || doubled t
      | [] => false
      end
  | [] => false
  end.

(** The first character of [s] that is not white space, if there is one,
    satisfies [ok]. *)
Definition startOk (ok : unit16 -> bool) (s : str) : bool :=
  match trimStart s with
  | c :: _ => ok c
  | [] => true
  end.

(** [startOk] at the start of every line of [s]; [bol] tells whether [s]
    itself starts at the start of a line. *)
Fixpoint linesStartWith (ok : unit16 -> bool) (bol : bool) (s : str) : bool :=
  (if bol then startOk ok s else true)
  && match s with
     | c :: s' => linesStartWith ok (is_line_terminator c) s'
     | [] => true
     end.

(** The last character of [s] is not white space. *)
Fixpoint endsVisible (s : str) : bool :=
  match s with
  | c :: s' =>
      match s' with
      | [] => negb (is_space c)
      | _ :: _ => endsVisible s'
      end
  | [] => false
  end.

(** What may stand in front of a mark: nothing, or lines that start with
    no mark, the last of them ended by its line terminator and with a visible
    character in front of it. *)
Definition linesBefore (p : str) : Prop :=
  p = []
  \/ exists q lt, p = q ++ [lt] /\ is_line_terminator lt = true
                  /\ endsVisible q = true
                  /\ linesStartWith (fun c => negb (is_line_mark c)) true q = true.

(** * Properties *)

(** ** The global replacement *)

Section ReplaceGlobal.
Variable G : Type.
Variable m : str -> option (G * str).
Variable repl : G -> str.

Lemma replace_global_nil : replace_global m repl [] = [].
Proof. now simp replace_global. Qed.

Lemma replace_global_none c s :
  m (c :: s) = None ->
  replace_global m repl (c :: s) = c :: replace_global m repl s.
Proof. intros H. simp replace_global. rewrite H. reflexivity. Qed.

Lemma replace_global_some c s g rest :
  m (c :: s) = Some (g, rest) ->
  length rest < length (c :: s) ->
  replace_global m repl (c :: s) = repl g ++ replace_global m repl rest.
Proof.
  intros H Hlt. simp replace_global. rewrite H.
  unfold replace_global_unfold_clause_2.
  destruct (le_lt_dec (length (c :: s)) (length rest)) as [Hle | Hlt'].
  - simpl in *. lia.
  - reflexivity.
Qed.

Lemma replace_global_empty c s g rest :
  m (c :: s) = Some (g, rest) ->
  length (c :: s) <= length rest ->
  replace_global m repl (c :: s) = repl g ++ c :: replace_global m repl s.
Proof.
  intros H Hle. simp replace_global. rewrite H.
  unfold replace_global_unfold_clause_2.
  destruct (le_lt_dec (length (c :: s)) (length rest)) as [Hle' | Hlt].
  - reflexivity.
  - simpl in *. lia.
Qed.

(** Induction along the scan. *)
Lemma replace_global_scan (Q : str -> str -> Prop) :
  Q [] [] ->
  (forall c s, m (c :: s) = None ->
     Q s (replace_global m repl s) -> Q (c :: s) (c :: replace_global m repl s)) ->
  (forall c s g rest, m (c :: s) = Some (g, rest) -> length rest < length (c :: s) ->
     Q rest (replace_global m repl rest) ->
     Q (c :: s) (repl g ++ replace_global m repl rest)) ->
  (forall c s g rest, m (c :: s) = Some (g, rest) -> length (c :: s) <= length rest ->
     Q s (replace_global m repl s) ->
     Q (c :: s) (repl g ++ c :: replace_global m repl s)) ->
  forall s, Q s (replace_global m repl s).
Proof.
  intros Hnil Hnone Hsome Hempty s.
  remember (length s) as n eqn:Hn.
  revert s Hn. induction n as [n IH] using lt_wf_ind. intros s Hn.
  destruct s as [| c s].
  - rewrite replace_global_nil. exact Hnil.
  - destruct (m (c :: s)) as [[g rest] |] eqn:Hm.
    + destruct (le_lt_dec (length (c :: s)) (length rest)) as [Hle | Hlt].
      * rewrite (replace_global_empty Hm Hle).
        apply (Hempty _ _ _ _ Hm Hle).
        apply (IH (length s)); [subst n; simpl; lia | reflexivity].
      * rewrite (replace_global_some Hm Hlt).
        apply (Hsome _ _ _ _ Hm Hlt).
        apply (IH (length rest)); [subst n; exact Hlt | reflexivity].
    + rewrite (replace_global_none Hm).
      apply (Hnone _ _ Hm).
      apply (IH (length s)); [subst n; simpl; lia | reflexivity].
Qed.

(** The replacement keeps a property of the characters that the matches
    and the replacement texts keep. *)
Lemma replace_global_Forall (P : unit16 -> Prop) :
  (forall t g rest, m t = Some (g, rest) -> Forall P t ->
     Forall P (repl g) /\ Forall P rest) ->
  forall s, Forall P s -> Forall P (replace_global m repl s).
Proof.
  intros Hm s. apply (replace_global_scan (fun s r => Forall P s -> Forall P r)).
  - intros _. constructor.
  - intros c t _ IH Hc. inversion Hc; subst. constructor; auto.
  - intros c t g rest Hg _ IH Hc.
    destruct (Hm _ _ _ Hg Hc) as [Hr Hrest].
    apply Forall_app. split; auto.
  - intros c t g rest Hg _ IH Hc.
    destruct (Hm _ _ _ Hg Hc) as [Hr _].
    inversion Hc; subst.
    apply Forall_app. split; [exact Hr | constructor; auto].
Qed.

(** A prefix on which no match can start is copied. *)
Lemma replace_global_skip (T : unit16 -> bool) :
  (forall c t, T c = false -> m (c :: t) = None) ->
  forall a b, Forall (fun c => T c = false) a ->
  replace_global m repl (a ++ b) = a ++ replace_global m repl b.
Proof.
  intros Hm a b Ha. induction Ha as [| c a Hc Ha IH]; [reflexivity |].
  simpl. rewrite replace_global_none by (apply Hm; exact Hc).
  now rewrite IH.
Qed.

Lemma replace_global_id (T : unit16 -> bool) :
  (forall c t, T c = false -> m (c :: t) = None) ->
  forall a, Forall (fun c => T c = false) a ->
  replace_global m repl a = a.
Proof.
  intros Hm a Ha.
  rewrite <- (app_nil_r a) at 1.
  rewrite (@replace_global_skip T Hm a [] Ha), replace_global_nil.
  apply app_nil_r.
Qed.
End ReplaceGlobal.

(** ** What a successful match looks like *)

Section RegexSound.
Variable R : Type.
Variable p : unit16 -> bool.
Variable k : str -> option R.

Lemma stop_sound lo s g x :
  stop lo k s = Some (g, x) -> lo = 0 /\ g = [] /\ k s = Some x.
Proof.
  destruct lo; simpl; [| discriminate].
  destruct (k s); simpl; [| discriminate].
  intros H. inversion H. auto.
Qed.

Lemma greedy_sound s : forall lo g x,
  greedy lo p k s = Some (g, x) ->
  exists s', s = g ++ s' /\ k s' = Some x
             /\ Forall (fun c => p c = true) g /\ lo <= length g.
Proof.
  induction s as [| c s IH]; intros lo g x H; simpl in H.
  - apply stop_sound in H. destruct H as (-> & -> & H).
    exists []. auto.
  - destruct (p c) eqn:Hp.
    + destruct (greedy (pred lo) p k s) as [[g' x'] |] eqn:Hg.
      * inversion H; subst. destruct (IH _ _ _ Hg) as (s' & -> & Hk & Hall & Hlen).
        exists s'. repeat split; auto. simpl. lia.
      * apply stop_sound in H. destruct H as (-> & -> & H).
        exists (c :: s). auto.
    + apply stop_sound in H. destruct H as (-> & -> & H).
      exists (c :: s). auto.
Qed.

Lemma greedy_upto_sound s : forall lo extra g x,
  greedy_upto lo extra p k s = Some (g, x) ->
  exists s', s = g ++ s' /\ k s' = Some x
             /\ Forall (fun c => p c = true) g /\ lo <= length g <= lo + extra.
Proof.
  induction s as [| c s IH]; intros lo extra g x H.
  - assert (H' : stop lo k [] = Some (g, x)) by (destruct lo, extra; exact H).
    apply stop_sound in H'. destruct H' as (-> & -> & H').
    exists []. repeat split; auto; simpl; lia.
  - destruct lo as [| lo].
    + destruct extra as [| extra].
      * simpl in H. apply (stop_sound 0) in H. destruct H as (_ & -> & H).
        exists (c :: s). repeat split; auto.
      * simpl in H. destruct (p c) eqn:Hp.
        -- destruct (greedy_upto 0 extra p k s) as [[g' x'] |] eqn:Hg.
           ++ inversion H; subst.
              destruct (IH _ _ _ _ Hg) as (s' & -> & Hk & Hall & Hlen).
              exists s'. repeat split; auto; simpl in *; lia.
           ++ apply (stop_sound 0) in H. destruct H as (_ & -> & H).
              exists (c :: s). repeat split; auto; simpl; lia.
        -- apply (stop_sound 0) in H. destruct H as (_ & -> & H).
           exists (c :: s). repeat split; auto; simpl; lia.
    + assert (H' : (if p c then
                      match greedy_upto lo extra p k s with
                      | Some (g, x) => Some (c :: g, x)
                      | None => None
                      end
                    else None) = Some (g, x)) by (destruct extra; exact H).
      destruct (p c) eqn:Hp; [| discriminate].
      destruct (greedy_upto lo extra p k s) as [[g' x'] |] eqn:Hg; [| discriminate].
      inversion H'; subst.
      destruct (IH _ _ _ _ Hg) as (s' & -> & Hk & Hall & Hlen).
      exists s'. repeat split; auto; simpl in *; lia.
Qed.

Lemma lazy_sound s : forall lo g x,
  lazy lo p k s = Some (g, x) ->
  exists s', s = g ++ s' /\ k s' = Some x
             /\ Forall (fun c => p c = true) g /\ lo <= length g.
Proof.
  induction s as [| c s IH]; intros lo g x H; simpl in H.
  - destruct (stop lo k []) as [[g' x'] |] eqn:Hs.
    + inversion H; subst. apply stop_sound in Hs. destruct Hs as (-> & -> & Hs).
      exists []. auto.
    + discriminate.
  - destruct (stop lo k (c :: s)) as [[g' x'] |] eqn:Hs.
    + inversion H; subst. apply stop_sound in Hs. destruct Hs as (-> & -> & Hs).
      exists (c :: s). auto.
    + destruct (p c) eqn:Hp; [| discriminate].
      destruct (lazy (pred lo) p k s) as [[g' x'] |] eqn:Hg; [| discriminate].
      simpl in H. inversion H; subst.
      destruct (IH _ _ _ Hg) as (s' & -> & Hk & Hall & Hlen).
      exists s'. repeat split; auto. simpl. lia.
Qed.

Lemma exact_sound d : forall s x,
  exact d k s = Some x ->
  exists o s', s = o ++ s' /\ codes o = d /\ k s' = Some x.
Proof.
  induction d as [| n d IH]; intros s x H; simpl in H.
  - exists [], s. auto.
  - destruct s as [| c s]; [discriminate |].
    destruct (has_code n c) eqn:Hc; [| discriminate].
    destruct (IH _ _ H) as (o & s' & -> & <- & Hk).
    exists (c :: o), s'. repeat split; auto.
    simpl. f_equal. now apply N.eqb_eq.
Qed.

Lemma one_sound s x :
  one p k s = Some x -> exists c s', s = c :: s' /\ p c = true /\ k s' = Some x.
Proof.
  destruct s as [| c s]; simpl; [discriminate |].
  destruct (p c) eqn:Hp; [| discriminate].
  intros H. exists c, s. auto.
Qed.
End RegexSound.

(** ** The inline patterns *)

Lemma codes_length (s : str) : length (codes s) = length s.
Proof. apply length_map. Qed.

Lemma charMatch_sound n s u rest :
  charMatch n s = Some (u, rest) -> exists c, s = c :: rest /\ code c = n.
Proof.
  unfold charMatch. intros H. apply exact_sound in H.
  destruct H as (o & s' & -> & Ho & Hk). inversion Hk; subst.
  destruct o as [| c [| c' o]]; try discriminate.
  exists c. split; [reflexivity | now inversion Ho].
Qed.

Lemma delimited_sound d s g rest :
  delimited d s = Some (g, rest) ->
  exists o c, s = o ++ g ++ c ++ rest /\ codes o = d /\ codes c = d
              /\ Forall (fun c => is_dot c = true) g.
Proof.
  unfold delimited. intros H.
  apply exact_sound in H. destruct H as (o & s1 & -> & Ho & H).
  apply lazy_sound in H. destruct H as (s2 & -> & H & Hg & _).
  apply exact_sound in H. destruct H as (c & s3 & -> & Hc & H).
  inversion H; subst. exists o, c. auto.
Qed.

Lemma strongMatch_sound s g rest :
  strongMatch s = Some (g, rest) ->
  exists o c, s = o ++ g ++ c ++ rest /\ length o = 2 /\ length c = 2.
Proof.
  unfold strongMatch, alt. intros H.
  destruct (delimited [c_star; c_star] s) as [r |] eqn:H1.
  - inversion H; subst. apply delimited_sound in H1.
    destruct H1 as (o & c & -> & Ho & Hc & _). exists o, c.
    rewrite <- (codes_length o), <- (codes_length c), Ho, Hc. auto.
  - apply delimited_sound in H.
    destruct H as (o & c & -> & Ho & Hc & _). exists o, c.
    rewrite <- (codes_length o), <- (codes_length c), Ho, Hc. auto.
Qed.

Lemma emMatch_sound s g rest :
  emMatch s = Some (g, rest) ->
  exists o c, s = o ++ g ++ c ++ rest /\ length o = 1 /\ length c = 1.
Proof.
  unfold emMatch, alt. intros H.
  destruct (delimited [c_star] s) as [r |] eqn:H1.
  - inversion H; subst. apply delimited_sound in H1.
    destruct H1 as (o & c & -> & Ho & Hc & _). exists o, c.
    rewrite <- (codes_length o), <- (codes_length c), Ho, Hc. auto.
  - apply delimited_sound in H.
    destruct H as (o & c & -> & Ho & Hc & _). exists o, c.
    rewrite <- (codes_length o), <- (codes_length c), Ho, Hc. auto.
Qed.

Lemma delMatch_sound s g rest :
  delMatch s = Some (g, rest) ->
  exists o c, s = o ++ g ++ c ++ rest /\ length o = 2 /\ length c = 2.
Proof.
  unfold delMatch. intros H. apply delimited_sound in H.
  destruct H as (o & c & -> & Ho & Hc & _). exists o, c.
  rewrite <- (codes_length o), <- (codes_length c), Ho, Hc. auto.
Qed.

Lemma codeMatch_sound s g rest :
  codeMatch s = Some (g, rest) ->
  exists o c, s = o ++ g ++ c ++ rest /\ length o = 1 /\ length c = 1
              /\ 1 <= length g /\ Forall (fun c => not_backtick c = true) g.
Proof.
  unfold codeMatch. intros H.
  apply exact_sound in H. destruct H as (o & s1 & -> & Ho & H).
  apply lazy_sound in H. destruct H as (s2 & -> & H & Hg & Hlen).
  apply exact_sound in H. destruct H as (c & s3 & -> & Hc & H).
  inversion H; subst. exists o, c.
  rewrite <- (codes_length o), <- (codes_length c), Ho, Hc. auto.
Qed.

Lemma linkMatch_sound s label url rest :
  linkMatch s = Some ((label, url), rest) ->
  exists o c e, s = o ++ label ++ c ++ url ++ e ++ rest
                /\ length o = 1 /\ length c = 2 /\ length e = 1.
Proof.
  unfold linkMatch. intros H.
  destruct (exact _ _ s) as [[l [u r]] |] eqn:Hm; [| discriminate].
  inversion H; subst. clear H.
  apply exact_sound in Hm. destruct Hm as (o & s1 & -> & Ho & H).
  apply lazy_sound in H. destruct H as (s2 & -> & H & _ & _).
  apply exact_sound in H. destruct H as (c & s3 & -> & Hc & H).
  apply lazy_sound in H. destruct H as (s4 & -> & H & _ & _).
  apply exact_sound in H. destruct H as (e & s5 & -> & He & H).
  inversion H; subst. exists o, c, e.
  rewrite <- (codes_length o), <- (codes_length c), <- (codes_length e), Ho, Hc, He.
  auto.
Qed.

(** Every match of an inline pattern takes at least one character. *)
Ltac shorter :=
  repeat rewrite ?length_app, ?length_cons in *; simpl in *; lia.

Lemma charMatch_shorter n s u rest :
  charMatch n s = Some (u, rest) -> length rest < length s.
Proof. intros H. apply charMatch_sound in H. destruct H as (c & -> & _). shorter. Qed.

Lemma strongMatch_shorter s g rest :
  strongMatch s = Some (g, rest) -> length rest < length s.
Proof.
  intros H. apply strongMatch_sound in H. destruct H as (o & c & -> & Ho & Hc). shorter.
Qed.

Lemma emMatch_shorter s g rest :
  emMatch s = Some (g, rest) -> length rest < length s.
Proof.
  intros H. apply emMatch_sound in H. destruct H as (o & c & -> & Ho & Hc). shorter.
Qed.

Lemma delMatch_shorter s g rest :
  delMatch s = Some (g, rest) -> length rest < length s.
Proof.
  intros H. apply delMatch_sound in H. destruct H as (o & c & -> & Ho & Hc). shorter.
Qed.

Lemma codeMatch_shorter s g rest :
  codeMatch s = Some (g, rest) -> length rest < length s.
Proof.
  intros H. apply codeMatch_sound in H. destruct H as (o & c & -> & Ho & Hc & _). shorter.
Qed.

Lemma linkMatch_shorter s g rest :
  linkMatch s = Some (g, rest) -> length rest < length s.
Proof.
  destruct g as [label url]. intros H. apply linkMatch_sound in H.
  destruct H as (o & c & e & -> & Ho & Hc & He). shorter.
Qed.

(** ** Escaping *)

Lemma replace_char n r s :
  replace_global (charMatch n) (fun _ => r) s
  = flat_map (fun c => if has_code n c then r else [c]) s.
Proof.
  apply (replace_global_scan (charMatch n) (fun _ => r)
           (fun s out => out = flat_map (fun c => if has_code n c then r else [c]) s)).
  - reflexivity.
  - intros c t Hm IH. simpl. unfold charMatch in Hm. simpl in Hm.
    destruct (has_code n c); [discriminate |]. simpl. now rewrite IH.
  - intros c t u rest Hm _ IH. apply charMatch_sound in Hm.
    destruct Hm as (c' & Heq & Hc). inversion Heq; subst.
    simpl. unfold has_code at 1. rewrite N.eqb_refl. now rewrite IH.
  - intros c t u rest Hm Hle _. apply charMatch_shorter in Hm. lia.
Qed.

Lemma flat_map_flat_map (A B C : Type) (f : A -> list B) (g : B -> list C) l :
  flat_map g (flat_map f l) = flat_map (fun a => flat_map g (f a)) l.
Proof.
  induction l as [| a l IH]; [reflexivity |].
  simpl. now rewrite flat_map_app, IH.
Qed.

Lemma escapeHtml_units line : escapeHtml line = flat_map escapeUnit line.
Proof.
  unfold escapeHtml. rewrite !replace_char, !flat_map_flat_map.
  apply flat_map_ext. intros c. unfold escapeUnit.
  destruct (has_code c_amp c) eqn:Ha; [reflexivity |].
  simpl. destruct (has_code c_lt c) eqn:Hl; [reflexivity |].
  simpl. destruct (has_code c_gt c) eqn:Hg; reflexivity.
Qed.

Lemma units_Markup s : Forall (fun c => from c = Markup) (units Markup s).
Proof. unfold units. apply Forall_map. apply Forall_forall. reflexivity. Qed.

Lemma Markup_escaped s : Forall (fun c => from c = Markup) s -> Forall escaped s.
Proof.
  apply Forall_impl. intros c Hc Hi. rewrite Hc in Hi. discriminate.
Qed.

Lemma lit_escaped s : Forall escaped (lit s).
Proof. apply Markup_escaped, units_Markup. Qed.

Lemma tpl_escaped s : Forall escaped (tpl s).
Proof.
  apply Markup_escaped. unfold tpl. apply Forall_map. apply Forall_forall. reflexivity.
Qed.

Create HintDb escaped.
#[local] Hint Resolve lit_escaped tpl_escaped : escaped.

Ltac escaped_app :=
  repeat (apply Forall_app; split); try assumption; auto with escaped.

Lemma escapeHtml_escaped line : Forall escaped (escapeHtml line).
Proof.
  rewrite escapeHtml_units. induction line as [| c line IH]; [constructor |].
  simpl. apply Forall_app. split; [| exact IH].
  unfold escapeUnit.
  destruct (has_code c_amp c) eqn:Ha; [apply lit_escaped |].
  destruct (has_code c_lt c) eqn:Hl; [apply lit_escaped |].
  destruct (has_code c_gt c) eqn:Hg; [apply lit_escaped |].
  constructor; [| constructor]. intros _.
  unfold has_code in *. apply N.eqb_neq in Ha, Hl, Hg. auto.
Qed.

Lemma applyInlineFormatting_escaped line : Forall escaped (applyInlineFormatting line).
Proof.
  unfold applyInlineFormatting.
  apply replace_global_Forall.
  { intros t [label url] rest H Ht. apply linkMatch_sound in H.
    destruct H as (o & c & e & -> & _).
    repeat (apply Forall_app in Ht; destruct Ht as [? Ht]).
    split; [| assumption]. unfold linkHtml. cbn [fst snd]. escaped_app. }
  apply replace_global_Forall.
  { intros t g rest H Ht. apply codeMatch_sound in H.
    destruct H as (o & c & -> & _).
    repeat (apply Forall_app in Ht; destruct Ht as [? Ht]).
    split; [| assumption]. unfold codeHtml, code_open, code_close. escaped_app. }
  apply replace_global_Forall.
  { intros t g rest H Ht. apply delMatch_sound in H.
    destruct H as (o & c & -> & _).
    repeat (apply Forall_app in Ht; destruct Ht as [? Ht]).
    split; [| assumption]. unfold delHtml. escaped_app. }
  apply replace_global_Forall.
  { intros t g rest H Ht. apply emMatch_sound in H.
    destruct H as (o & c & -> & _).
    repeat (apply Forall_app in Ht; destruct Ht as [? Ht]).
    split; [| assumption]. unfold emHtml. escaped_app. }
  apply replace_global_Forall.
  { intros t g rest H Ht. apply strongMatch_sound in H.
    destruct H as (o & c & -> & _).
    repeat (apply Forall_app in Ht; destruct Ht as [? Ht]).
    split; [| assumption]. unfold strongHtml, strong_open, strong_close. escaped_app. }
  apply escapeHtml_escaped.
Qed.

(** ** The loop *)

Lemma quoteLines_length rest : length (snd (quoteLines rest)) <= length rest.
Proof.
  induction rest as [| l rest IH]; simpl; [lia |].
  destruct (startsWith c_gt l); simpl; [| lia].
  destruct (quoteLines rest) as [q r]. simpl in *. lia.
Qed.

Lemma paragraphLines_length rest : length (snd (paragraphLines rest)) <= length rest.
Proof.
  induction rest as [| l rest IH]; simpl; [lia |].
  destruct (isBlank l || startsBlock l); simpl; [lia |].
  destruct (paragraphLines rest) as [q r]. simpl in *. lia.
Qed.

(** The cases of one turn of the loop. *)
Ltac iteration_cases line rest :=
  unfold iteration;
  destruct (headingMatch line) as [[? ?] |] eqn:?;
  [| destruct (blockquoteMatch line) as [? |] eqn:?;
     [ destruct (quoteLines rest) as [? ?] eqn:?
     | destruct (hrMatch line) eqn:?;
       [| destruct (ulMatch line) as [? |] eqn:?;
          [| destruct (olMatch line) as [? |] eqn:?;
             [| destruct (isBlank line) eqn:?;
                [| destruct (paragraphLines rest) as [? ?] eqn:? ]]]]]];
  cbn [negb pending html inList].

(** Every turn of the loop leaves fewer lines. *)
Lemma iteration_pending line rest h il :
  length (pending (iteration line rest h il)) <= length rest.
Proof.
  pose proof (quoteLines_length rest) as Hq.
  pose proof (paragraphLines_length rest) as Hp.
  iteration_cases line rest; simpl in *; lia.
Qed.

(** As many turns as there are lines left are enough. *)
Lemma loop_terminates fuel : forall st,
  length (pending st) <= fuel -> exists ps, loop fuel st = Some ps.
Proof.
  induction fuel as [| fuel IH]; intros [p h il] Hlen; simpl in *.
  - destruct p; [eauto | simpl in Hlen; lia].
  - destruct p as [| line rest]; [eauto |].
    apply IH. pose proof (iteration_pending line rest h il). simpl in Hlen. lia.
Qed.

(** A property of [html] and [inList] that every turn keeps holds at the
    end of the loop. *)
Lemma loop_invariant (I : list piece -> option list_kind -> Prop) :
  (forall line rest h il, I h il ->
     I (html (iteration line rest h il)) (inList (iteration line rest h il))) ->
  forall fuel st ps, I (html st) (inList st) -> loop fuel st = Some ps ->
  exists h il, I h il /\ ps = closeListIfNeeded h il.
Proof.
  intros Hstep. induction fuel as [| fuel IH]; intros [p h il] ps Hi H; simpl in *.
  - destruct p; [| discriminate]. inversion H. eauto.
  - destruct p as [| line rest]; [inversion H; eauto |].
    apply (IH _ _ (Hstep line rest h il Hi) H).
Qed.

Lemma renderPieces_total text : exists ps, renderPieces text = Some ps.
Proof. unfold renderPieces. apply loop_terminates. simpl. lia. Qed.


Lemma renderSimpleMarkdown_pieces text :
  renderSimpleMarkdown text = option_map htmlString (renderPieces text).
Proof. destruct text; reflexivity. Qed.

(** C10: for every text, the empty one and those of white space, unmatched
    delimiters or malformed blocks included, [renderSimpleMarkdown] reaches
    the end of its loop and returns a string: the loop never needs more turns
    than the text has lines, and no step of it can fail. *)
Theorem renderSimpleMarkdown_total :
  forall text : str, exists out : str, renderSimpleMarkdown text = Some out.
Proof.
  intros text. rewrite renderSimpleMarkdown_pieces.
  destruct (renderPieces_total text) as [ps Hps].
  exists (htmlString ps). now rewrite Hps.
Qed.

(** ** Lists are closed *)

Lemma scan_app ps qs : forall open mid,
  scan open ps = Some mid -> scan open (ps ++ qs) = scan mid qs.
Proof.
  induction ps as [| p ps IH]; intros open mid H; simpl in *.
  - now inversion H.
  - destruct p, open as [[|] |]; try discriminate; try (apply IH; exact H).
    + destruct k; try discriminate; apply IH; exact H.
    + destruct k; try discriminate; apply IH; exact H.
Qed.

Lemma scan_close h il :
  scan None h = Some il -> scan None (closeListIfNeeded h il) = Some None.
Proof.
  intros H. destruct il as [k |]; simpl; [| exact H].
  rewrite (@scan_app _ _ _ _ H). destruct k; reflexivity.
Qed.

Lemma iteration_scan line rest h il :
  scan None h = Some il ->
  scan None (html (iteration line rest h il)) = Some (inList (iteration line rest h il)).
Proof.
  intros H. pose proof (@scan_close _ _ H) as Hc.
  iteration_cases line rest;
    try (rewrite (@scan_app _ _ _ _ Hc); reflexivity); try exact Hc.
  - destruct il as [[|] |].
    + rewrite (@scan_app _ _ _ _ H). reflexivity.
    + rewrite <- app_assoc. rewrite (@scan_app _ _ _ _ Hc). reflexivity.
    + rewrite <- app_assoc. rewrite (@scan_app _ _ _ _ Hc). reflexivity.
  - destruct il as [[|] |].
    + rewrite <- app_assoc. rewrite (@scan_app _ _ _ _ Hc). reflexivity.
    + rewrite (@scan_app _ _ _ _ H). reflexivity.
    + rewrite <- app_assoc. rewrite (@scan_app _ _ _ _ Hc). reflexivity.
Qed.

(** ** Escaped output *)

Lemma join_escaped ls : Forall (Forall escaped) ls -> Forall escaped (join ls).
Proof.
  induction 1 as [| l ls Hl Hls IH]; [constructor |].
  destruct ls as [| l' ls]; [exact Hl |].
  change (join (l :: l' :: ls)) with (l ++ newline ++ join (l' :: ls)).
  escaped_app. apply lit_escaped.
Qed.

Lemma quoteLines_escaped rest : Forall (Forall escaped) (fst (quoteLines rest)).
Proof.
  induction rest as [| l rest IH]; simpl; [constructor |].
  destruct (startsWith c_gt l); [| constructor].
  destruct (quoteLines rest) as [q r]. simpl in *.
  constructor; [apply applyInlineFormatting_escaped | exact IH].
Qed.

Lemma number_escaped n : Forall escaped (number n).
Proof. apply lit_escaped. Qed.

Lemma size_escaped n : Forall escaped (size n).
Proof. destruct n as [| [| [| n]]]; apply lit_escaped. Qed.

Lemma tagName_escaped k : Forall escaped (tagName k).
Proof. destruct k; apply lit_escaped. Qed.

#[local] Hint Resolve number_escaped size_escaped tagName_escaped
  applyInlineFormatting_escaped : escaped.

Lemma ListClose_escaped k : pieceEscaped (ListClose k).
Proof. unfold pieceEscaped, markup. escaped_app. Qed.

Lemma ListOpen_escaped k : pieceEscaped (ListOpen k).
Proof. unfold pieceEscaped. destruct k; apply tpl_escaped. Qed.

Lemma ListItem_escaped line : pieceEscaped (ListItem (applyInlineFormatting line)).
Proof. unfold pieceEscaped, markup. escaped_app. Qed.

Lemma Heading_escaped level line :
  pieceEscaped (Heading level (applyInlineFormatting line)).
Proof. unfold pieceEscaped, markup. escaped_app. Qed.

Lemma Paragraph_escaped line : pieceEscaped (Paragraph (applyInlineFormatting line)).
Proof. unfold pieceEscaped, markup. escaped_app. Qed.

Lemma Blockquote_escaped q :
  Forall (Forall escaped) q -> pieceEscaped (Blockquote q).
Proof.
  intros Hq. unfold pieceEscaped, markup. escaped_app. now apply join_escaped.
Qed.

Lemma Rule_escaped : pieceEscaped Rule.
Proof. apply tpl_escaped. Qed.

Lemma closeListIfNeeded_escaped h il :
  Forall pieceEscaped h -> Forall pieceEscaped (closeListIfNeeded h il).
Proof.
  intros H. destruct il as [k |]; simpl; [| exact H].
  apply Forall_app. split; [exact H |].
  constructor; [apply ListClose_escaped | constructor].
Qed.

Lemma iteration_escaped line rest h il :
  Forall pieceEscaped h -> Forall pieceEscaped (html (iteration line rest h il)).
Proof.
  intros H. pose proof (closeListIfNeeded_escaped il H) as Hc.
  pose proof (quoteLines_escaped rest) as Hq.
  iteration_cases line rest; try exact Hc;
    try (apply Forall_app; split; [try exact Hc | constructor; [| constructor]]).
  - apply Heading_escaped.
  - apply Blockquote_escaped. simpl in Hq.
    constructor; [apply applyInlineFormatting_escaped | exact Hq].
  - apply Rule_escaped.
  - destruct il as [[|] |]; auto.
    + apply Forall_app. split; [exact Hc | constructor; [apply ListOpen_escaped | constructor]].
    + apply Forall_app. split; [exact Hc | constructor; [apply ListOpen_escaped | constructor]].
  - apply ListItem_escaped.
  - destruct il as [[|] |]; auto.
    + apply Forall_app. split; [exact Hc | constructor; [apply ListOpen_escaped | constructor]].
    + apply Forall_app. split; [exact Hc | constructor; [apply ListOpen_escaped | constructor]].
  - apply ListItem_escaped.
  - apply Paragraph_escaped.
Qed.

Lemma htmlString_escaped ps : Forall pieceEscaped ps -> Forall escaped (htmlString ps).
Proof.
  induction 1 as [| p ps Hp Hps IH]; [constructor |].
  unfold htmlString. simpl. apply Forall_app. split; assumption.
Qed.

(** C7: the three escaping replacements, [&] first, then [<], then [>],
    turn each [&], [<] and [>] of a text into its entity and leave every
    other character alone (the [&] of an entity is not escaped again); they
    are the first thing done to the text of every block.  As a consequence,
    for every input, no [<], [>] or [&] of the output is a character of the
    input: each one was written by the renderer. *)
Theorem escaping_is_complete :
  (forall line : str, escapeHtml line = flat_map escapeUnit line)
  /\ (forall line : str, applyInlineFormatting line = inlineMarkup (escapeHtml line))
  /\ (forall text : str, exists out : str,
        renderSimpleMarkdown text = Some out /\ Forall escaped out).
Proof.
  split; [exact escapeHtml_units |].
  split; [reflexivity |].
  intros text. destruct (renderPieces_total text) as [ps Hps].
  exists (htmlString ps). split.
  - rewrite renderSimpleMarkdown_pieces, Hps. reflexivity.
  - unfold renderPieces in Hps.
    destruct (@loop_invariant (fun h _ => Forall pieceEscaped h)
                (fun line rest h il => @iteration_escaped line rest h il)
                _ (State (split text) [] None) _ (Forall_nil _) Hps)
      as (h & il & Hi & ->).
    apply htmlString_escaped, closeListIfNeeded_escaped, Hi.
Qed.

(** ** What makes a match succeed *)

Section RegexComplete.
Variable R : Type.
Variable p : unit16 -> bool.
Variable k : str -> option R.

(** A greedy repetition takes the whole run when what follows accepts the
    rest. *)
Lemma greedy_run g : forall lo s x,
  Forall (fun c => p c = true) g -> lo <= length g -> k s = Some x ->
  stopsAt p s ->
  greedy lo p k (g ++ s) = Some (g, x).
Proof.
  induction g as [| c g IH]; intros lo s x Hg Hlo Hk Hs.
  - simpl in Hlo. assert (lo = 0) by lia. subst lo. simpl.
    destruct s as [| c s]; simpl in *; [now rewrite Hk |].
    rewrite Hs. simpl. now rewrite Hk.
  - inversion Hg; subst. simpl.
    match goal with H : p c = true |- _ => rewrite H end.
    rewrite (IH (pred lo) s x); auto. simpl in Hlo. lia.
Qed.

(** A repetition fails when what follows accepts no string that is left
    after a run of the class. *)
Lemma greedy_fails s : forall lo,
  (forall g t, s = g ++ t -> Forall (fun c => p c = true) g -> k t = None) ->
  greedy lo p k s = None.
Proof.
  induction s as [| c s IH]; intros lo Hk.
  - simpl. destruct lo; simpl; [| reflexivity].
    now rewrite (Hk [] [] eq_refl (Forall_nil _)).
  - assert (Hstop : stop lo k (c :: s) = None).
    { destruct lo; simpl; [| reflexivity].
      now rewrite (Hk [] (c :: s) eq_refl (Forall_nil _)). }
    simpl. destruct (p c) eqn:Hp; [| exact Hstop].
    rewrite IH; [exact Hstop |].
    intros g t -> Hg. apply (Hk (c :: g) t eq_refl). now constructor.
Qed.

(** The same for a lazy repetition. *)
Lemma lazy_fails s : forall lo,
  (forall g t, s = g ++ t -> Forall (fun c => p c = true) g -> k t = None) ->
  lazy lo p k s = None.
Proof.
  induction s as [| c s IH]; intros lo Hk.
  - simpl. destruct lo; simpl; [| reflexivity].
    now rewrite (Hk [] [] eq_refl (Forall_nil _)).
  - assert (Hstop : stop lo k (c :: s) = None).
    { destruct lo; simpl; [| reflexivity].
      now rewrite (Hk [] (c :: s) eq_refl (Forall_nil _)). }
    simpl. rewrite Hstop. destruct (p c) eqn:Hp; [| reflexivity].
    rewrite IH; [reflexivity |].
    intros g t -> Hg. apply (Hk (c :: g) t eq_refl). now constructor.
Qed.

(** A lazy repetition stops at the first place where what follows
    accepts the rest. *)
Lemma lazy_first g : forall lo s x,
  Forall (fun c => p c = true) g -> lo <= length g -> k s = Some x ->
  (forall a b, g = a ++ b -> b <> [] -> k (b ++ s) = None) ->
  lazy lo p k (g ++ s) = Some (g, x).
Proof.
  induction g as [| c g IH]; intros lo s x Hg Hlo Hk Hno.
  - simpl in Hlo. assert (lo = 0) by lia. subst lo.
    destruct s; simpl in *; now rewrite Hk.
  - inversion Hg; subst.
    assert (Hstop : stop lo k ((c :: g) ++ s) = None).
    { destruct lo; [unfold stop | reflexivity].
      rewrite (Hno [] (c :: g) eq_refl); [reflexivity | discriminate]. }
    simpl in *. rewrite Hstop.
    match goal with H : p c = true |- _ => rewrite H end.
    rewrite (IH (pred lo) s x); auto; [lia |].
    intros a b -> Hb. apply (Hno (c :: a) b eq_refl Hb).
Qed.
End RegexComplete.

(** ** Horizontal rules *)

Lemma hrMatch_spec line :
  hrMatch line = true
  <-> 3 <= length line /\ Forall (fun c => is_rule_char c = true) line.
Proof.
  unfold hrMatch. split.
  - destruct (greedy 3 is_rule_char at_end line) as [[g x] |] eqn:H; [| discriminate].
    intros _. apply greedy_sound in H. destruct H as (s' & -> & He & Hg & Hlen).
    destruct s'; [| discriminate]. rewrite app_nil_r. auto.
  - intros [Hlen Hall].
    rewrite <- (app_nil_r line).
    rewrite (@greedy_run unit is_rule_char at_end line 3 [] tt); auto.
    exact I.
Qed.

Lemma headingMatch_head line r :
  headingMatch line = Some r -> exists c s, line = c :: s /\ code c = c_hash.
Proof.
  unfold headingMatch.
  destruct (greedy_upto _ _ _ _ line) as [[g x] |] eqn:H; [| discriminate].
  intros _. apply greedy_upto_sound in H. destruct H as (s' & -> & _ & Hg & Hlen & _).
  destruct g as [| c g]; [simpl in Hlen; lia |].
  exists c, (g ++ s'). split; [reflexivity |].
  inversion Hg; subst. now apply N.eqb_eq.
Qed.

Lemma blockquoteMatch_head line r :
  blockquoteMatch line = Some r -> exists c s, line = c :: s /\ code c = c_gt.
Proof.
  unfold blockquoteMatch.
  destruct (exact _ _ line) as [[g x] |] eqn:H; [| discriminate].
  intros _. apply exact_sound in H. destruct H as (o & s' & -> & Ho & _).
  destruct o as [| c o]; [discriminate |].
  exists c, (o ++ s'). split; [reflexivity |]. now inversion Ho.
Qed.

Lemma app_tail_neq (A : Type) (l : list A) (a : A) : l <> l ++ [a].
Proof.
  intros H. apply (f_equal (@length A)) in H. rewrite length_app in H. simpl in H. lia.
Qed.

Lemma reachesLoop_intro line rest :
  startsWith c_gt line = false -> startsBlock line = true -> reachesLoop line rest.
Proof.
  intros Hq Hb. unfold reachesLoop. simpl. rewrite Hq, Hb, orb_true_r. auto.
Qed.

Lemma rule_reaches_loop line rest : hrMatch line = true -> reachesLoop line rest.
Proof.
  intros H. apply hrMatch_spec in H. destruct H as [Hlen Hall].
  apply reachesLoop_intro.
  - destruct line as [| c line]; [reflexivity |]. inversion Hall as [| ? ? Hc _]; subst.
    simpl. unfold is_rule_char, has_code in *.
    destruct (N.eqb_spec (code c) c_gt) as [E |]; [| reflexivity].
    rewrite E in Hc. discriminate Hc.
  - unfold startsBlock.
    assert (E : greedy 3 is_rule_char done line = Some (line, [])).
    { rewrite <- (app_nil_r line) at 1. apply greedy_run; auto. exact I. }
    rewrite E. cbn [matched]. now rewrite orb_true_r.
Qed.




(** ** Lines that cannot start a block *)

Section FirstCharacter.
Variable c : unit16.
Variable s : str.

Lemma headingMatch_first : has_code c_hash c = false -> headingMatch (c :: s) = None.
Proof. intros H. unfold headingMatch. simpl. now rewrite H. Qed.

Lemma blockquoteMatch_first : has_code c_gt c = false -> blockquoteMatch (c :: s) = None.
Proof. intros H. unfold blockquoteMatch. simpl. now rewrite H. Qed.

Lemma hrMatch_first : is_rule_char c = false -> hrMatch (c :: s) = false.
Proof. intros H. unfold hrMatch. simpl. now rewrite H. Qed.

Lemma ulMatch_first : is_space c = false -> is_bullet c = false -> ulMatch (c :: s) = None.
Proof. intros H1 H2. unfold ulMatch. simpl. now rewrite H1, H2. Qed.

Lemma olMatch_first : is_space c = false -> is_digit c = false -> olMatch (c :: s) = None.
Proof. intros H1 H2. unfold olMatch. simpl. now rewrite H1, H2. Qed.
End FirstCharacter.

Lemma trimStart_nil s : trimStart s = [] <-> Forall (fun c => is_space c = true) s.
Proof.
  induction s as [| c s IH]; simpl.
  - split; auto.
  - destruct (is_space c) eqn:Hc.
    + rewrite IH. split; [now constructor | now inversion 1].
    + split; [discriminate |]. inversion 1; congruence.
Qed.

Lemma trimStart_spaces s :
  Forall (fun c => is_space c = true) (trimStart s)
  <-> Forall (fun c => is_space c = true) s.
Proof.
  induction s as [| c s IH]; simpl; [tauto |].
  destruct (is_space c) eqn:Hc; [| tauto].
  rewrite IH. split; [now constructor | now inversion 1].
Qed.

Lemma isBlank_spec s : isBlank s = true <-> Forall (fun c => is_space c = true) s.
Proof.
  unfold isBlank, trim, trimEnd. rewrite <- trimStart_spaces.
  set (t := trimStart s).
  assert (H : rev (trimStart (rev t)) = [] <-> Forall (fun c => is_space c = true) t).
  { assert (Hr : Forall (fun c => is_space c = true) (rev t)
                 <-> Forall (fun c => is_space c = true) t).
    { split; intros H; [rewrite <- (rev_involutive t) |]; now apply Forall_rev. }
    rewrite <- Hr, <- trimStart_nil. split; intros H.
    - apply (f_equal (@rev unit16)) in H. now rewrite rev_involutive in H.
    - now rewrite H. }
  destruct (rev (trimStart (rev t))); split; intros H'; try reflexivity;
    try discriminate; try (now apply H); apply H in H'; discriminate.
Qed.

Lemma isBlank_first c s : is_space c = false -> isBlank (c :: s) = false.
Proof.
  intros Hc. destruct (isBlank (c :: s)) eqn:H; [| reflexivity].
  apply isBlank_spec in H. inversion H; congruence.
Qed.

(** ** Text without special characters *)

Lemma special_false c :
  special c = false ->
  has_code c_amp c = false /\ has_code c_lt c = false /\ has_code c_gt c = false
  /\ has_code c_star c = false /\ has_code c_underscore c = false
  /\ has_code c_tilde c = false /\ has_code c_backtick c = false
  /\ has_code c_lbracket c = false.
Proof.
  unfold special. intros H.
  repeat (apply orb_false_iff in H; destruct H as [H ?]). repeat split; assumption.
Qed.

Lemma charMatch_first n c t : has_code n c = false -> charMatch n (c :: t) = None.
Proof. intros H. unfold charMatch. simpl. now rewrite H. Qed.

Lemma delimited_first n d c t : has_code n c = false -> delimited (n :: d) (c :: t) = None.
Proof. intros H. unfold delimited. simpl. now rewrite H. Qed.

Lemma strongMatch_first c t :
  has_code c_star c || has_code c_underscore c = false -> strongMatch (c :: t) = None.
Proof.
  intros H. apply orb_false_iff in H. destruct H as [H1 H2].
  unfold strongMatch, alt. now rewrite !delimited_first.
Qed.

Lemma emMatch_first c t :
  has_code c_star c || has_code c_underscore c = false -> emMatch (c :: t) = None.
Proof.
  intros H. apply orb_false_iff in H. destruct H as [H1 H2].
  unfold emMatch, alt. now rewrite !delimited_first.
Qed.

Lemma delMatch_first c t : has_code c_tilde c = false -> delMatch (c :: t) = None.
Proof. intros H. unfold delMatch. now rewrite delimited_first. Qed.

Lemma codeMatch_first c t : has_code c_backtick c = false -> codeMatch (c :: t) = None.
Proof. intros H. unfold codeMatch. simpl. now rewrite H. Qed.

Lemma linkMatch_first c t : has_code c_lbracket c = false -> linkMatch (c :: t) = None.
Proof. intros H. unfold linkMatch. simpl. now rewrite H. Qed.

Lemma applyInlineFormatting_stages line :
  applyInlineFormatting line = inlineMarkup (escapeHtml line).
Proof. reflexivity. Qed.

Ltac weaken_plain H :=
  eapply Forall_impl; [| exact H];
  let c := fresh "c" in let Hc := fresh "Hc" in
  intros c Hc; apply special_false in Hc;
  destruct Hc as (? & ? & ? & ? & ? & ? & ? & ?);
  try assumption; apply orb_false_iff; split; assumption.

Lemma escapeHtml_plain a b : plain a -> escapeHtml (a ++ b) = a ++ escapeHtml b.
Proof.
  intros Ha. unfold escapeHtml.
  rewrite (@replace_global_skip _ _ _ (has_code c_amp) (charMatch_first c_amp) a b)
    by weaken_plain Ha.
  rewrite (@replace_global_skip _ _ _ (has_code c_lt) (charMatch_first c_lt) a)
    by weaken_plain Ha.
  rewrite (@replace_global_skip _ _ _ (has_code c_gt) (charMatch_first c_gt) a)
    by weaken_plain Ha.
  reflexivity.
Qed.

Lemma strong_plain a b : plain a ->
  replace_global strongMatch strongHtml (a ++ b)
  = a ++ replace_global strongMatch strongHtml b.
Proof.
  intros Ha. apply (@replace_global_skip _ _ _ _ strongMatch_first). weaken_plain Ha.
Qed.

Lemma em_plain a b : plain a ->
  replace_global emMatch emHtml (a ++ b) = a ++ replace_global emMatch emHtml b.
Proof.
  intros Ha. apply (@replace_global_skip _ _ _ _ emMatch_first). weaken_plain Ha.
Qed.

Lemma del_plain a b : plain a ->
  replace_global delMatch delHtml (a ++ b) = a ++ replace_global delMatch delHtml b.
Proof.
  intros Ha. apply (@replace_global_skip _ _ _ _ delMatch_first). weaken_plain Ha.
Qed.

Lemma code_plain a b : plain a ->
  replace_global codeMatch codeHtml (a ++ b) = a ++ replace_global codeMatch codeHtml b.
Proof.
  intros Ha. apply (@replace_global_skip _ _ _ _ codeMatch_first). weaken_plain Ha.
Qed.

Lemma link_plain a b : plain a ->
  replace_global linkMatch linkHtml (a ++ b) = a ++ replace_global linkMatch linkHtml b.
Proof.
  intros Ha. apply (@replace_global_skip _ _ _ _ linkMatch_first). weaken_plain Ha.
Qed.

Lemma inlineMarkup_plain a b : plain a -> inlineMarkup (a ++ b) = a ++ inlineMarkup b.
Proof.
  intros Ha. unfold inlineMarkup.
  now rewrite strong_plain, em_plain, del_plain, code_plain, link_plain.
Qed.

(** Text without special characters at the start of a line is copied. *)
Lemma applyInlineFormatting_plain a b :
  plain a -> applyInlineFormatting (a ++ b) = a ++ applyInlineFormatting b.
Proof.
  intros Ha. rewrite !applyInlineFormatting_stages.
  now rewrite escapeHtml_plain, inlineMarkup_plain.
Qed.

Lemma applyInlineFormatting_nil : applyInlineFormatting [] = [].
Proof. reflexivity. Qed.

Lemma applyInlineFormatting_all_plain a : plain a -> applyInlineFormatting a = a.
Proof.
  intros Ha. rewrite <- (app_nil_r a) at 1.
  rewrite applyInlineFormatting_plain by exact Ha.
  rewrite applyInlineFormatting_nil. apply app_nil_r.
Qed.

(** ** Headings *)

Lemma greedy_upto_run (R : Type) (p : unit16 -> bool) (k : str -> option R) g :
  forall lo extra s x,
    Forall (fun c => p c = true) g -> lo <= length g <= lo + extra ->
    k s = Some x -> stopsAt p s ->
    greedy_upto lo extra p k (g ++ s) = Some (g, x).
Proof.
  induction g as [| c g IH]; intros lo extra s x Hg Hlen Hk Hs.
  - simpl in Hlen. assert (lo = 0) by lia. subst lo.
    destruct extra, s as [| c s]; simpl in *; rewrite ?Hs; simpl; now rewrite Hk.
  - inversion Hg as [| ? ? Hc Hg']; subst. simpl in Hlen.
    destruct lo as [| lo].
    + destruct extra as [| extra]; [lia |].
      simpl. rewrite Hc. rewrite (IH 0 extra s x); auto. lia.
    + assert (Hrec : greedy_upto lo extra p k (g ++ s) = Some (g, x))
        by (apply IH; auto; lia).
      destruct extra; simpl; rewrite Hc; simpl in Hrec; now rewrite Hrec.
Qed.

Lemma hash_classes c :
  has_code c_hash c = true ->
  special c = false /\ is_space c = false /\ is_rule_char c = false
  /\ is_bullet c = false /\ is_digit c = false /\ has_code c_gt c = false
  /\ is_dot c = true.
Proof.
  unfold has_code. intros H. apply N.eqb_eq in H.
  unfold special, is_space, is_rule_char, is_bullet, is_digit, is_dot,
    is_line_terminator, has_code.
  rewrite H. repeat split; reflexivity.
Qed.

Lemma hashes_plain hashes :
  Forall (fun c => has_code c_hash c = true) hashes -> plain hashes.
Proof. apply Forall_impl. intros c Hc. now apply hash_classes in Hc. Qed.

Lemma join_first a l ls : join ((a ++ l) :: ls) = a ++ join (l :: ls).
Proof. destruct ls; simpl; [reflexivity | now rewrite <- app_assoc]. Qed.

(** One to three [#] and white space start a heading. *)
Lemma headingMatch_heading hashes ws content cut :
  Forall (fun c => has_code c_hash c = true) hashes ->
  1 <= length hashes <= 3 ->
  Forall (fun c => is_space c = true) ws -> ws <> [] ->
  Forall (fun c => is_dot c = true) content ->
  stopsAt is_space (content ++ cut) -> stopsAt is_dot cut ->
  headingMatch (hashes ++ ws ++ content ++ cut) = Some (length hashes, content).
Proof.
  intros Hh Hlen Hws Hne Hc Hstop Hcut. unfold headingMatch.
  rewrite (@greedy_upto_run _ _ _ hashes 1 2 (ws ++ content ++ cut)
             (ws, (content, cut))); auto.
  - apply greedy_run; auto.
    + destruct ws; [congruence | simpl; lia].
    + apply greedy_run; auto. lia.
  - destruct ws as [| c ws]; [congruence |]. simpl.
    inversion Hws; subst. unfold has_code.
    destruct (N.eqb_spec (code c) c_hash) as [E |]; [| reflexivity].
    assert (Hx : has_code c_hash c = true) by (unfold has_code; now apply N.eqb_eq).
    apply hash_classes in Hx. destruct Hx as (_ & Hx & _). congruence.
Qed.

(** Four [#] or more start no heading. *)
Lemma headingMatch_deep hashes tail :
  Forall (fun c => has_code c_hash c = true) hashes ->
  4 <= length hashes ->
  headingMatch (hashes ++ tail) = None.
Proof.
  intros Hh Hlen.
  destruct hashes as [| c1 [| c2 [| c3 [| c4 hashes]]]]; simpl in Hlen; try lia.
  inversion Hh as [| ? ? H1 Hh1]; subst. inversion Hh1 as [| ? ? H2 Hh2]; subst.
  inversion Hh2 as [| ? ? H3 Hh3]; subst. inversion Hh3 as [| ? ? H4 _]; subst.
  pose proof (@hash_classes _ H2) as (_ & S2 & _).
  pose proof (@hash_classes _ H3) as (_ & S3 & _).
  pose proof (@hash_classes _ H4) as (_ & S4 & _).
  unfold headingMatch. simpl. now rewrite H1, H2, H3, S2, S3, S4.
Qed.

Lemma heading_reaches_loop line r rest :
  headingMatch line = Some r -> reachesLoop line rest.
Proof.
  intros H. apply reachesLoop_intro.
  - apply headingMatch_head in H. destruct H as (c & s & -> & Hc).
    simpl. unfold has_code. rewrite Hc. reflexivity.
  - unfold startsBlock. unfold headingMatch in H.
    destruct (greedy_upto _ _ _ _ line); [reflexivity | discriminate].
Qed.

Lemma htmlString_app a b : htmlString (a ++ b) = htmlString a ++ htmlString b.
Proof. unfold htmlString. apply flat_map_app. Qed.

Lemma htmlString_one p : htmlString [p] = markup p.
Proof. unfold htmlString. simpl. apply app_nil_r. Qed.



(** ** List items *)

Lemma space_classes c :
  is_space c = true ->
  has_code c_hash c = false /\ has_code c_gt c = false /\ is_rule_char c = false
  /\ is_bullet c = false /\ is_digit c = false.
Proof.
  unfold is_space, is_rule_char, is_bullet, is_digit, has_code. intros H.
  repeat split;
    repeat match goal with
      | |- context [N.eqb (code c) ?n] =>
          destruct (N.eqb_spec (code c) n) as [E | _]; [rewrite E in H; discriminate H |]
      end; try reflexivity.
  destruct (N.leb_spec 48 (code c)), (N.leb_spec (code c) 57); try reflexivity.
  exfalso. revert H.
  repeat match goal with
    | |- context [N.eqb (code c) ?n] => destruct (N.eqb_spec (code c) n); [lia |]
    | |- context [N.leb ?a ?b] => destruct (N.leb_spec a b); [try lia |]
    end; simpl; try discriminate; try lia.
Qed.

Lemma bullet_classes c :
  is_bullet c = true ->
  has_code c_hash c = false /\ has_code c_gt c = false /\ is_space c = false
  /\ is_digit c = false.
Proof.
  unfold is_bullet, has_code. intros H. apply orb_true_iff in H.
  unfold is_space, is_digit, has_code.
  destruct H as [H | H]; apply N.eqb_eq in H; rewrite H; repeat split; reflexivity.
Qed.

Lemma digit_classes c :
  is_digit c = true ->
  has_code c_hash c = false /\ has_code c_gt c = false /\ is_space c = false
  /\ is_rule_char c = false /\ is_bullet c = false.
Proof.
  unfold is_digit. intros H. apply andb_true_iff in H. destruct H as [H1 H2].
  apply N.leb_le in H1, H2.
  unfold is_space, is_rule_char, is_bullet, has_code.
  repeat split;
    repeat match goal with
      | |- context [N.eqb (code c) ?n] =>
          destruct (N.eqb_spec (code c) n) as [E | _];
          [exfalso; unfold c_hash, c_gt, c_dash, c_star, c_underscore in E; lia |]
      | |- context [N.leb ?a ?b] =>
          destruct (N.leb_spec a b); [try (exfalso; lia) |]
      end; try reflexivity.
Qed.

(** The shape of an unordered item: white space, a bullet, white space. *)
Lemma ulMatch_shape line content :
  ulMatch line = Some content ->
  exists ws b sp r,
    line = ws ++ b :: sp :: r /\ Forall (fun c => is_space c = true) ws
    /\ is_bullet b = true /\ is_space sp = true.
Proof.
  unfold ulMatch.
  destruct (greedy _ _ _ line) as [[ws [g [x y]]] |] eqn:H; [| discriminate].
  intros _. apply greedy_sound in H. destruct H as (s1 & -> & H & Hws & _).
  apply one_sound in H. destruct H as (b & s2 & -> & Hb & H).
  apply greedy_sound in H. destruct H as (s3 & -> & _ & Hg & Hlen).
  destruct g as [| sp g]; [simpl in Hlen; lia |]. inversion Hg; subst.
  exists ws, b, sp, (g ++ s3). auto.
Qed.

(** The shape of an ordered item: white space, then a digit. *)
Lemma olMatch_shape line content :
  olMatch line = Some content ->
  exists ws d r,
    line = ws ++ d :: r /\ Forall (fun c => is_space c = true) ws /\ is_digit d = true.
Proof.
  unfold olMatch.
  destruct (greedy _ _ _ line) as [[ws [ds x]] |] eqn:H; [| discriminate].
  intros _. apply greedy_sound in H. destruct H as (s1 & -> & H & Hws & _).
  apply greedy_sound in H. destruct H as (s2 & -> & _ & Hds & Hlen).
  destruct ds as [| d ds]; [simpl in Hlen; lia |]. inversion Hds; subst.
  exists ws, d, (ds ++ s2). auto.
Qed.

Lemma first_after_spaces ws : forall ws' b d r r',
  ws ++ b :: r = ws' ++ d :: r' ->
  Forall (fun c => is_space c = true) ws -> Forall (fun c => is_space c = true) ws' ->
  is_space b = false -> is_space d = false -> b = d.
Proof.
  induction ws as [| c ws IH]; intros [| c' ws'] b d r r' E Hws Hws' Hb Hd;
    simpl in E; inversion E; subst.
  - reflexivity.
  - inversion Hws'; congruence.
  - inversion Hws; congruence.
  - inversion Hws; inversion Hws'; subst. eapply IH; eauto.
Qed.

Lemma not_heading_after_spaces ws b r :
  Forall (fun c => is_space c = true) ws ->
  has_code c_hash b = false -> has_code c_gt b = false ->
  headingMatch (ws ++ b :: r) = None /\ blockquoteMatch (ws ++ b :: r) = None.
Proof.
  intros Hws Hh Hg. destruct ws as [| c ws]; simpl.
  - now rewrite headingMatch_first, blockquoteMatch_first.
  - inversion Hws as [| ? ? Hc _]; subst.
    apply space_classes in Hc. destruct Hc as (H1 & H2 & _).
    now rewrite headingMatch_first, blockquoteMatch_first.
Qed.

Lemma not_rule_with c a b :
  is_rule_char c = false -> hrMatch (a ++ c :: b) = false.
Proof.
  intros Hc. destruct (hrMatch (a ++ c :: b)) eqn:H; [| reflexivity].
  apply hrMatch_spec in H. destruct H as [_ H].
  apply Forall_app in H. destruct H as [_ H]. inversion H; congruence.
Qed.

(** A line that is an unordered item is taken by no earlier case. *)
Lemma ulMatch_only line content :
  ulMatch line = Some content ->
  headingMatch line = None /\ blockquoteMatch line = None /\ hrMatch line = false.
Proof.
  intros H. apply ulMatch_shape in H.
  destruct H as (ws & b & sp & r & -> & Hws & Hb & Hsp).
  apply bullet_classes in Hb. destruct Hb as (H1 & H2 & _).
  apply space_classes in Hsp. destruct Hsp as (_ & _ & H3 & _).
  destruct (@not_heading_after_spaces ws b (sp :: r) Hws H1 H2) as [-> ->].
  repeat split.
  change (ws ++ b :: sp :: r) with (ws ++ [b] ++ sp :: r). rewrite app_assoc.
  now apply not_rule_with.
Qed.

(** A line that is an ordered item is taken by no earlier case. *)
Lemma olMatch_only line content :
  olMatch line = Some content ->
  headingMatch line = None /\ blockquoteMatch line = None /\ hrMatch line = false
  /\ ulMatch line = None.
Proof.
  intros H. apply olMatch_shape in H.
  destruct H as (ws & d & r & E & Hws & Hd).
  apply digit_classes in Hd. destruct Hd as (H1 & H2 & H3 & H4 & H5).
  subst line.
  destruct (@not_heading_after_spaces ws d r Hws H1 H2) as [-> ->].
  rewrite not_rule_with by assumption. repeat split.
  destruct (ulMatch (ws ++ d :: r)) as [c |] eqn:Hu; [| reflexivity].
  apply ulMatch_shape in Hu.
  destruct Hu as (ws' & b & sp & r' & E & Hws' & Hb & _).
  pose proof Hb as Hb'. apply bullet_classes in Hb'. destruct Hb' as (_ & _ & Hs & _).
  assert (d = b) by (eapply first_after_spaces; eauto). subst. congruence.
Qed.

Lemma iteration_ul line content rest h il :
  ulMatch line = Some content ->
  iteration line rest h il
  = State rest (listStart UL h il ++ [ListItem (applyInlineFormatting content)]) (Some UL).
Proof.
  intros H. destruct (ulMatch_only _ H) as (Hh & Hb & Hr).
  unfold iteration. rewrite Hh, Hb, Hr, H. destruct il as [[|] |]; reflexivity.
Qed.

Lemma iteration_ol line content rest h il :
  olMatch line = Some content ->
  iteration line rest h il
  = State rest (listStart OL h il ++ [ListItem (applyInlineFormatting content)]) (Some OL).
Proof.
  intros H. destruct (olMatch_only _ H) as (Hh & Hb & Hr & Hu).
  unfold iteration. rewrite Hh, Hb, Hr, Hu, H. destruct il as [[|] |]; reflexivity.
Qed.

Lemma split_one l :
  Forall (fun c => has_code c_nl c = false) l -> split l = [l].
Proof.
  induction 1 as [| c l Hc Hl IH]; [reflexivity |].
  simpl. now rewrite Hc, IH.
Qed.

Lemma split_first l nl s :
  Forall (fun c => has_code c_nl c = false) l -> has_code c_nl nl = true ->
  split (l ++ nl :: s) = l :: split s.
Proof.
  intros Hl Hn. induction Hl as [| c l Hc Hl IH]; simpl.
  - now rewrite Hn.
  - now rewrite Hc, IH.
Qed.

(** C9: when an item of one kind is followed at once by an item of the
    other kind, the first list is closed before the second is opened: the
    two turns of the loop append the item of the first line, the closing tag
    of its list, the opening tag of the other list and the item of the
    second line, and the loop goes on with the second list open; the two
    lists are never merged.  For a text of these two lines the output is
    the complete first list, [<ul ...><li>...</li></ul>], followed by the
    complete second list, [<ol ...><li>...</li></ol>], and the other way
    round.  In every text, the characters that the two turns append are
    [<li>...</li></ul><ol ...><li>...</li>], and the other way round. *)
Theorem list_kind_switch :
  forall (l1 l2 c1 c2 : str) (rest : list str) (h : list piece) (il : option list_kind)
         (fuel : nat) (nl : unit16),
    (ulMatch l1 = Some c1 -> olMatch l2 = Some c2 ->
     loop (S (S fuel)) (State (l1 :: l2 :: rest) h il)
     = loop fuel
         (State rest
            (listStart UL h il
             ++ [ListItem (applyInlineFormatting c1); ListClose UL;
                 ListOpen OL; ListItem (applyInlineFormatting c2)])
            (Some OL)))
    /\ (olMatch l1 = Some c1 -> ulMatch l2 = Some c2 ->
        loop (S (S fuel)) (State (l1 :: l2 :: rest) h il)
        = loop fuel
            (State rest
               (listStart OL h il
                ++ [ListItem (applyInlineFormatting c1); ListClose OL;
                    ListOpen UL; ListItem (applyInlineFormatting c2)])
               (Some UL)))
    /\ (ulMatch l1 = Some c1 -> olMatch l2 = Some c2 ->
        Forall (fun c => has_code c_nl c = false) l1 ->
        Forall (fun c => has_code c_nl c = false) l2 -> has_code c_nl nl = true ->
        renderSimpleMarkdown (l1 ++ nl :: l2)
        = Some (tpl "<ul class='list-disc list-outside space-y-2 my-3 pl-6'>"
                ++ lit "<li>" ++ applyInlineFormatting c1 ++ lit "</li>"
                ++ lit "</ul>"
                ++ tpl "<ol class='list-decimal list-outside space-y-2 my-3 pl-6'>"
                ++ lit "<li>" ++ applyInlineFormatting c2 ++ lit "</li>"
                ++ lit "</ol>"))
    /\ (olMatch l1 = Some c1 -> ulMatch l2 = Some c2 ->
        Forall (fun c => has_code c_nl c = false) l1 ->
        Forall (fun c => has_code c_nl c = false) l2 -> has_code c_nl nl = true ->
        renderSimpleMarkdown (l1 ++ nl :: l2)
        = Some (tpl "<ol class='list-decimal list-outside space-y-2 my-3 pl-6'>"
                ++ lit "<li>" ++ applyInlineFormatting c1 ++ lit "</li>"
                ++ lit "</ol>"
                ++ tpl "<ul class='list-disc list-outside space-y-2 my-3 pl-6'>"
                ++ lit "<li>" ++ applyInlineFormatting c2 ++ lit "</li>"
                ++ lit "</ul>"))
    /\ htmlString [ListItem (applyInlineFormatting c1); ListClose UL;
                   ListOpen OL; ListItem (applyInlineFormatting c2)]
       = lit "<li>" ++ applyInlineFormatting c1 ++ lit "</li>" ++ lit "</ul>"
         ++ tpl "<ol class='list-decimal list-outside space-y-2 my-3 pl-6'>"
         ++ lit "<li>" ++ applyInlineFormatting c2 ++ lit "</li>"
    /\ htmlString [ListItem (applyInlineFormatting c1); ListClose OL;
                   ListOpen UL; ListItem (applyInlineFormatting c2)]
       = lit "<li>" ++ applyInlineFormatting c1 ++ lit "</li>" ++ lit "</ol>"
         ++ tpl "<ul class='list-disc list-outside space-y-2 my-3 pl-6'>"
         ++ lit "<li>" ++ applyInlineFormatting c2 ++ lit "</li>".
Proof.
  intros l1 l2 c1 c2 rest h il fuel nl.
  assert (U : forall rest h il fuel,
            ulMatch l1 = Some c1 -> olMatch l2 = Some c2 ->
            loop (S (S fuel)) (State (l1 :: l2 :: rest) h il)
            = loop fuel
                (State rest
                   (listStart UL h il
                    ++ [ListItem (applyInlineFormatting c1); ListClose UL;
                        ListOpen OL; ListItem (applyInlineFormatting c2)])
                   (Some OL))).
  { intros rest' h' il' fuel' H1 H2. cbn [loop pending html inList].
    rewrite (@iteration_ul _ _ _ _ _ H1). cbn [pending html inList].
    rewrite (@iteration_ol _ _ _ _ _ H2). cbn [listStart closeListIfNeeded].
    now rewrite <- !app_assoc. }
  assert (O : forall rest h il fuel,
            olMatch l1 = Some c1 -> ulMatch l2 = Some c2 ->
            loop (S (S fuel)) (State (l1 :: l2 :: rest) h il)
            = loop fuel
                (State rest
                   (listStart OL h il
                    ++ [ListItem (applyInlineFormatting c1); ListClose OL;
                        ListOpen UL; ListItem (applyInlineFormatting c2)])
                   (Some UL))).
  { intros rest' h' il' fuel' H1 H2. cbn [loop pending html inList].
    rewrite (@iteration_ol _ _ _ _ _ H1). cbn [pending html inList].
    rewrite (@iteration_ul _ _ _ _ _ H2). cbn [listStart closeListIfNeeded].
    now rewrite <- !app_assoc. }
  assert (S2 : Forall (fun c => has_code c_nl c = false) l1 ->
               Forall (fun c => has_code c_nl c = false) l2 -> has_code c_nl nl = true ->
               renderSimpleMarkdown (l1 ++ nl :: l2)
               = option_map htmlString (loop 2 (State [l1; l2] [] None))).
  { intros N1 N2 Hn. rewrite renderSimpleMarkdown_pieces. unfold renderPieces.
    now rewrite (@split_first _ _ _ N1 Hn), (@split_one _ N2). }
  split; [apply U |]. split; [apply O |]. split; [| split; [| split]].
  - intros H1 H2 N1 N2 Hn. rewrite (S2 N1 N2 Hn), (U [] [] None 0 H1 H2).
    cbn [loop pending html inList listStart closeListIfNeeded option_map app].
    f_equal. generalize (applyInlineFormatting c1), (applyInlineFormatting c2).
    intros X Y. unfold htmlString. cbn [flat_map markup tagName].
    rewrite <- !app_assoc. reflexivity.
  - intros H1 H2 N1 N2 Hn. rewrite (S2 N1 N2 Hn), (O [] [] None 0 H1 H2).
    cbn [loop pending html inList listStart closeListIfNeeded option_map app].
    f_equal. generalize (applyInlineFormatting c1), (applyInlineFormatting c2).
    intros X Y. unfold htmlString. cbn [flat_map markup tagName].
    rewrite <- !app_assoc. reflexivity.
  - generalize (applyInlineFormatting c1), (applyInlineFormatting c2).
    intros X Y. unfold htmlString. cbn [flat_map markup tagName].
    rewrite <- !app_assoc, app_nil_r. reflexivity.
  - generalize (applyInlineFormatting c1), (applyInlineFormatting c2).
    intros X Y. unfold htmlString. cbn [flat_map markup tagName].
    rewrite <- !app_assoc, app_nil_r. reflexivity.
Qed.

Lemma list_kind_switch_witness :
  renderSimpleMarkdown (textOf ["- a"; "1. b"]%string)
  = Some (tpl "<ul class='list-disc list-outside space-y-2 my-3 pl-6'>"
          ++ lit "<li>" ++ input "a" ++ lit "</li>" ++ lit "</ul>"
          ++ tpl "<ol class='list-decimal list-outside space-y-2 my-3 pl-6'>"
          ++ lit "<li>" ++ input "b" ++ lit "</li>" ++ lit "</ol>")
  /\ renderSimpleMarkdown (textOf ["1. b"; "- a"]%string)
     = Some (tpl "<ol class='list-decimal list-outside space-y-2 my-3 pl-6'>"
             ++ lit "<li>" ++ input "b" ++ lit "</li>" ++ lit "</ol>"
             ++ tpl "<ul class='list-disc list-outside space-y-2 my-3 pl-6'>"
             ++ lit "<li>" ++ input "a" ++ lit "</li>" ++ lit "</ul>").
Proof.
  split.
  - refine (proj1 (proj2 (proj2
              (@list_kind_switch (input "- a") (input "1. b") (input "a") (input "b")
                 [] [] None 0 (U16 c_nl Input)))) _ _ _ _ _);
      try reflexivity; repeat constructor.
  - refine (proj1 (proj2 (proj2 (proj2
              (@list_kind_switch (input "1. b") (input "- a") (input "b") (input "a")
                 [] [] None 0 (U16 c_nl Input))))) _ _ _ _ _);
      try reflexivity; repeat constructor.
Defined.

(** ** Code spans *)

Lemma Forall_false_forallb (T : unit16 -> bool) l :
  forallb (fun c => negb (T c)) l = true -> Forall (fun c => T c = false) l.
Proof.
  intros H. apply Forall_forall. intros c Hc.
  rewrite forallb_forall in H. apply H in Hc. now apply negb_true_iff.
Qed.

Lemma earlier_false c :
  earlier c = false ->
  has_code c_amp c = false /\ has_code c_lt c = false /\ has_code c_gt c = false
  /\ has_code c_star c || has_code c_underscore c = false
  /\ has_code c_tilde c = false.
Proof.
  unfold earlier. intros H.
  repeat (apply orb_false_iff in H; destruct H as [H ?]).
  repeat split; try assumption. apply orb_false_iff. now split.
Qed.

Lemma plain_earlier a : plain a -> Forall (fun c => earlier c = false) a.
Proof.
  apply Forall_impl. intros c H. apply special_false in H.
  destruct H as (H1 & H2 & H3 & H4 & H5 & H6 & _).
  unfold earlier. now rewrite H1, H2, H3, H4, H5, H6.
Qed.

Lemma backtick_earlier c : has_code c_backtick c = true -> earlier c = false.
Proof.
  unfold has_code. intros H. apply N.eqb_eq in H.
  unfold earlier, has_code. now rewrite H.
Qed.

Lemma beforeCode_skip a b :
  Forall (fun c => earlier c = false) a -> beforeCode (a ++ b) = a ++ beforeCode b.
Proof.
  intros Ha. unfold beforeCode, escapeHtml.
  assert (H : forall T : unit16 -> bool,
             (forall c, earlier c = false -> T c = false) ->
             Forall (fun c => T c = false) a).
  { intros T HT. eapply Forall_impl; [| exact Ha]. exact HT. }
  rewrite (@replace_global_skip _ _ _ (has_code c_amp) (charMatch_first c_amp) a b)
    by (apply H; intros c Hc; now apply earlier_false in Hc).
  rewrite (@replace_global_skip _ _ _ (has_code c_lt) (charMatch_first c_lt) a)
    by (apply H; intros c Hc; now apply earlier_false in Hc).
  rewrite (@replace_global_skip _ _ _ (has_code c_gt) (charMatch_first c_gt) a)
    by (apply H; intros c Hc; now apply earlier_false in Hc).
  rewrite (@replace_global_skip _ _ _ _ strongMatch_first a)
    by (apply H; intros c Hc; now apply earlier_false in Hc).
  rewrite (@replace_global_skip _ _ _ _ emMatch_first a)
    by (apply H; intros c Hc; now apply earlier_false in Hc).
  rewrite (@replace_global_skip _ _ _ _ delMatch_first a)
    by (apply H; intros c Hc; now apply earlier_false in Hc).
  reflexivity.
Qed.

Lemma applyInlineFormatting_beforeCode s :
  applyInlineFormatting s
  = replace_global linkMatch linkHtml (replace_global codeMatch codeHtml (beforeCode s)).
Proof. reflexivity. Qed.

(** A code span: a backtick, one or more characters other than a backtick,
    a backtick. *)
Lemma codeMatch_span b1 b2 c t :
  has_code c_backtick b1 = true -> has_code c_backtick b2 = true ->
  Forall (fun x => has_code c_backtick x = false) c -> c <> [] ->
  codeMatch (b1 :: c ++ b2 :: t) = Some (c, t).
Proof.
  intros H1 H2 Hc Hne. unfold codeMatch. simpl. rewrite H1.
  apply lazy_first.
  - eapply Forall_impl; [| exact Hc]. intros x Hx. unfold not_backtick. now rewrite Hx.
  - destruct c; [congruence | simpl; lia].
  - simpl. now rewrite H2.
  - intros a b -> Hb. destruct b as [| x b]; [congruence |].
    apply Forall_app in Hc. destruct Hc as [_ Hc]. inversion Hc; subst.
    simpl. match goal with H : has_code c_backtick x = false |- _ => now rewrite H end.
Qed.

Lemma code_open_no_link :
  Forall (fun c => has_code c_lbracket c = false) code_open
  /\ Forall (fun c => has_code c_lbracket c = false) code_close.
Proof. split; apply Forall_false_forallb; reflexivity. Qed.

(** ** Unmatched delimiters *)

Lemma delimiterChar_false c :
  delimiterChar c = false ->
  has_code c_star c = false /\ has_code c_underscore c = false
  /\ has_code c_tilde c = false /\ has_code c_backtick c = false
  /\ has_code c_lbracket c = false.
Proof.
  unfold delimiterChar. intros H.
  repeat (apply orb_false_iff in H; destruct H as [H ?]). repeat split; assumption.
Qed.


Lemma escapeHtml_app a b : escapeHtml (a ++ b) = escapeHtml a ++ escapeHtml b.
Proof. rewrite !escapeHtml_units. apply flat_map_app. Qed.

Lemma escapeHtml_quiet s : quiet s -> quiet (escapeHtml s).
Proof.
  intros H. rewrite escapeHtml_units. unfold quiet.
  induction H as [| c s Hc Hs IH]; [constructor |].
  simpl. apply Forall_app. split; [| exact IH].
  unfold escapeUnit.
  destruct (has_code c_amp c); [apply Forall_false_forallb; reflexivity |].
  destruct (has_code c_lt c); [apply Forall_false_forallb; reflexivity |].
  destruct (has_code c_gt c); [apply Forall_false_forallb; reflexivity |].
  now constructor.
Qed.

Lemma escapeHtml_keeps d :
  Forall (fun c => delimiterChar c = true) d -> escapeHtml d = d.
Proof.
  intros H. rewrite escapeHtml_units.
  induction H as [| c d Hc Hd IH]; [reflexivity |].
  simpl. rewrite IH. unfold escapeUnit.
  assert (E : has_code c_amp c = false /\ has_code c_lt c = false
              /\ has_code c_gt c = false).
  { unfold delimiterChar, has_code in *.
    repeat split;
      match goal with
      | |- N.eqb (code c) ?n = false =>
          destruct (N.eqb_spec (code c) n) as [E | _];
          [rewrite E in Hc; discriminate Hc | reflexivity]
      end. }
  destruct E as (-> & -> & ->). reflexivity.
Qed.

Section Unmatched.
Variable G : Type.
Variable m : str -> option (G * str).
Variable repl : G -> str.
Variable T : unit16 -> bool.
Hypothesis first : forall c t, T c = false -> m (c :: t) = None.

(** A replacement changes nothing when its pattern can start neither in
    the text around [d] nor at a character of [d]. *)
Lemma replace_global_unmatched p d s :
  Forall (fun c => T c = false) p -> Forall (fun c => T c = false) s ->
  (forall a b, d = a ++ b -> b <> [] -> m (b ++ s) = None) ->
  replace_global m repl (p ++ d ++ s) = p ++ d ++ s.
Proof.
  intros Hp Hs Hd. rewrite (replace_global_skip m repl T first _ Hp). f_equal.
  induction d as [| x d' IH].
  - simpl. now apply (replace_global_id m repl T first).
  - simpl. rewrite replace_global_none.
    + f_equal. apply IH. intros a b -> Hb. apply (Hd (x :: a) b eq_refl Hb).
    + apply (Hd [] (x :: d') eq_refl). discriminate.
Qed.

Lemma replace_global_unmatched1 p x s :
  Forall (fun c => T c = false) p -> Forall (fun c => T c = false) s ->
  m (x :: s) = None ->
  replace_global m repl (p ++ [x] ++ s) = p ++ [x] ++ s.
Proof.
  intros Hp Hs Hx. apply replace_global_unmatched; auto.
  intros [| a0 a] b E Hb; simpl in E.
  - subst b. exact Hx.
  - injection E as _ E. symmetry in E. apply app_eq_nil in E. destruct E. congruence.
Qed.

Lemma replace_global_unmatched2 p x y s :
  Forall (fun c => T c = false) p -> Forall (fun c => T c = false) s ->
  m (x :: y :: s) = None -> m (y :: s) = None ->
  replace_global m repl (p ++ [x; y] ++ s) = p ++ [x; y] ++ s.
Proof.
  intros Hp Hs Hx Hy. apply replace_global_unmatched; auto.
  intros [| a0 [| a1 a]] b E Hb; simpl in E.
  - subst b. exact Hx.
  - injection E as _ E. subst b. exact Hy.
  - injection E as _ _ E. symmetry in E. apply app_eq_nil in E. destruct E. congruence.
Qed.
End Unmatched.

(** A delimiter that is not closed: the closing delimiter starts with a
    character that the rest of the line does not have. *)
Lemma delimited_unclosed n d o s :
  Forall (fun c => has_code n c = false) s ->
  codes o = n :: d ->
  delimited (n :: d) (o ++ s) = None.
Proof.
  intros Hs Ho. unfold delimited.
  destruct (exact (n :: d) (lazy 0 is_dot (exact (n :: d) done)) (o ++ s))
    as [[g r] |] eqn:H; [| reflexivity].
  exfalso. apply exact_sound in H. destruct H as (o' & s1 & E & Ho' & H).
  assert (o' = o /\ s1 = s) as [-> ->].
  { assert (Hlen : length o' = length o)
      by (rewrite <- (codes_length o'), <- (codes_length o); congruence).
    clear - E Hlen. revert o' E Hlen.
    induction o as [| x o IH]; intros [| y o'] E Hlen; simpl in *; try discriminate; auto.
    inversion E; subst. destruct (IH o') as [-> ->]; auto. }
  apply lazy_sound in H. destruct H as (s2 & -> & H & _).
  apply exact_sound in H. destruct H as (cl & s3 & -> & Hcl & _).
  destruct cl as [| x cl]; [discriminate |]. inversion Hcl; subst.
  apply Forall_app in Hs. destruct Hs as [_ Hs]. inversion Hs; subst.
  unfold has_code in *. rewrite N.eqb_refl in *. discriminate.
Qed.

Lemma delimited_unclosed1 n x s :
  Forall (fun c => has_code n c = false) s -> code x = n ->
  delimited [n] (x :: s) = None.
Proof.
  intros Hs Hx. apply (@delimited_unclosed n [] [x] s Hs). simpl. now rewrite Hx.
Qed.

Lemma delimited_unclosed2 n x y s :
  Forall (fun c => has_code n c = false) s -> code x = n -> code y = n ->
  delimited [n; n] (x :: y :: s) = None.
Proof.
  intros Hs Hx Hy. apply (@delimited_unclosed n [n] [x; y] s Hs). simpl.
  now rewrite Hx, Hy.
Qed.

(** A delimiter of two characters does not start at a single one. *)
Lemma delimited_single n d x s :
  Forall (fun c => has_code n c = false) s ->
  delimited (n :: n :: d) (x :: s) = None.
Proof.
  intros Hs. unfold delimited. simpl. destruct (has_code n x); [| reflexivity].
  destruct s as [| y s]; [reflexivity |]. inversion Hs; subst.
  match goal with H : has_code n y = false |- _ => now rewrite H end.
Qed.

Lemma codeMatch_unclosed b s :
  Forall (fun c => has_code c_backtick c = false) s -> codeMatch (b :: s) = None.
Proof.
  intros Hs. unfold codeMatch. simpl. destruct (has_code c_backtick b); [| reflexivity].
  apply lazy_fails. intros g t -> _.
  apply Forall_app in Hs. destruct Hs as [_ Hs].
  destruct t as [| y t]; [reflexivity |]. inversion Hs; subst. simpl.
  match goal with H : has_code c_backtick y = false |- _ => now rewrite H end.
Qed.

Lemma quiet_triggers s :
  quiet s ->
  Forall (fun c => has_code c_star c || has_code c_underscore c = false) s
  /\ Forall (fun c => has_code c_star c = false) s
  /\ Forall (fun c => has_code c_underscore c = false) s
  /\ Forall (fun c => has_code c_tilde c = false) s
  /\ Forall (fun c => has_code c_backtick c = false) s
  /\ Forall (fun c => has_code c_lbracket c = false) s.
Proof.
  intros H. repeat split; (eapply Forall_impl; [| exact H]); intros c Hc;
    apply delimiterChar_false in Hc; destruct Hc as (H1 & H2 & H3 & H4 & H5);
    try assumption.
  now rewrite H1, H2.
Qed.

(** From the code of a character, the tests it passes and fails. *)
Ltac by_code :=
  unfold has_code, c_star, c_underscore, c_tilde, c_backtick, c_lbracket in *;
  repeat match goal with H : code _ = _ |- _ => rewrite H end;
  reflexivity.

(** An unmatched [*], [_], [~~] or backtick among quiet text is left alone
    by the five markup replacements. *)
Lemma inlineMarkup_unmatched p d s :
  quiet p -> quiet s ->
  codes d = [c_star] \/ codes d = [c_underscore] \/ codes d = [c_tilde; c_tilde]
  \/ codes d = [c_backtick] ->
  inlineMarkup (p ++ d ++ s) = p ++ d ++ s.
Proof.
  intros Hp Hs Hd.
  destruct (quiet_triggers Hp) as (Pb & Pstar & Pund & Ptil & Ptick & Plink).
  destruct (quiet_triggers Hs) as (Sb & Sstar & Sund & Stil & Stick & Slink).
  unfold inlineMarkup.
  destruct Hd as [Hd | [Hd | [Hd | Hd]]].
  - destruct d as [| x [| y d]]; try discriminate. injection Hd as Hx.
    rewrite (@replace_global_unmatched1 _ strongMatch strongHtml _ strongMatch_first);
      auto.
    2: { unfold strongMatch, alt. rewrite delimited_single by exact Sstar.
         apply delimited_first. by_code. }
    rewrite (@replace_global_unmatched1 _ emMatch emHtml _ emMatch_first); auto.
    2: { unfold emMatch, alt.
         rewrite delimited_unclosed1 by assumption.
         apply delimited_first. by_code. }
    rewrite (@replace_global_unmatched1 _ delMatch delHtml _ delMatch_first); auto.
    2: { apply delMatch_first. by_code. }
    rewrite (@replace_global_unmatched1 _ codeMatch codeHtml _ codeMatch_first); auto.
    2: { apply codeMatch_first. by_code. }
    rewrite (@replace_global_unmatched1 _ linkMatch linkHtml _ linkMatch_first); auto.
    apply linkMatch_first. by_code.
  - destruct d as [| x [| y d]]; try discriminate. injection Hd as Hx.
    rewrite (@replace_global_unmatched1 _ strongMatch strongHtml _ strongMatch_first);
      auto.
    2: { unfold strongMatch, alt. rewrite delimited_first by by_code.
         now apply delimited_single. }
    rewrite (@replace_global_unmatched1 _ emMatch emHtml _ emMatch_first); auto.
    2: { unfold emMatch, alt. rewrite delimited_first by by_code.
         now apply delimited_unclosed1. }
    rewrite (@replace_global_unmatched1 _ delMatch delHtml _ delMatch_first); auto.
    2: { apply delMatch_first. by_code. }
    rewrite (@replace_global_unmatched1 _ codeMatch codeHtml _ codeMatch_first); auto.
    2: { apply codeMatch_first. by_code. }
    rewrite (@replace_global_unmatched1 _ linkMatch linkHtml _ linkMatch_first); auto.
    apply linkMatch_first. by_code.
  - destruct d as [| x [| y [| z d]]]; try discriminate. injection Hd as Hx Hy.
    rewrite (@replace_global_unmatched2 _ strongMatch strongHtml _ strongMatch_first);
      auto.
    2, 3: apply strongMatch_first; by_code.
    rewrite (@replace_global_unmatched2 _ emMatch emHtml _ emMatch_first); auto.
    2, 3: apply emMatch_first; by_code.
    rewrite (@replace_global_unmatched2 _ delMatch delHtml _ delMatch_first); auto.
    2: { now apply delimited_unclosed2. }
    2: { now apply delimited_single. }
    rewrite (@replace_global_unmatched2 _ codeMatch codeHtml _ codeMatch_first); auto.
    2, 3: apply codeMatch_first; by_code.
    rewrite (@replace_global_unmatched2 _ linkMatch linkHtml _ linkMatch_first); auto.
    all: apply linkMatch_first; by_code.
  - destruct d as [| x [| y d]]; try discriminate. injection Hd as Hx.
    rewrite (@replace_global_unmatched1 _ strongMatch strongHtml _ strongMatch_first);
      auto.
    2: { apply strongMatch_first. by_code. }
    rewrite (@replace_global_unmatched1 _ emMatch emHtml _ emMatch_first); auto.
    2: { apply emMatch_first. by_code. }
    rewrite (@replace_global_unmatched1 _ delMatch delHtml _ delMatch_first); auto.
    2: { apply delMatch_first. by_code. }
    rewrite (@replace_global_unmatched1 _ codeMatch codeHtml _ codeMatch_first); auto.
    2: { now apply codeMatch_unclosed. }
    rewrite (@replace_global_unmatched1 _ linkMatch linkHtml _ linkMatch_first); auto.
    apply linkMatch_first. by_code.
Qed.

Lemma emHtml_nil_quiet : quiet (emHtml []).
Proof. apply Forall_false_forallb. reflexivity. Qed.

(** A lone [**] or [__] among quiet text: the bold rule does not match, and
    the italic rule takes the two characters as an empty span. *)
Lemma inlineMarkup_double p x y s n :
  quiet p -> quiet s -> n = c_star \/ n = c_underscore ->
  code x = n -> code y = n ->
  inlineMarkup (p ++ [x; y] ++ s) = p ++ emHtml [] ++ s.
Proof.
  intros Hp Hs Hn Hx Hy.
  destruct (quiet_triggers Hp) as (Pb & Pstar & Pund & Ptil & Ptick & Plink).
  destruct (quiet_triggers Hs) as (Sb & Sstar & Sund & Stil & Stick & Slink).
  assert (Hq : quiet (p ++ emHtml [] ++ s)).
  { apply Forall_app. split; [exact Hp |]. apply Forall_app. split; [| exact Hs].
    apply emHtml_nil_quiet. }
  destruct (quiet_triggers Hq) as (Qb & _ & _ & Qtil & Qtick & Qlink).
  unfold inlineMarkup.
  assert (Hstrong : replace_global strongMatch strongHtml (p ++ [x; y] ++ s)
                    = p ++ [x; y] ++ s).
  { apply (@replace_global_unmatched2 _ strongMatch strongHtml _ strongMatch_first);
      auto.
    - unfold strongMatch, alt. destruct Hn; subst n.
      + rewrite delimited_unclosed2 by assumption. apply delimited_first. by_code.
      + rewrite delimited_first by by_code. now apply delimited_unclosed2.
    - unfold strongMatch, alt. destruct Hn; subst n.
      + rewrite delimited_single by assumption. apply delimited_first. by_code.
      + rewrite delimited_first by by_code. now apply delimited_single. }
  rewrite Hstrong.
  assert (Hem : emMatch (x :: y :: s) = Some ([], s)).
  { unfold emMatch, alt, delimited, done. destruct Hn; subst n; simpl.
    - replace (has_code c_star x) with true by (symmetry; by_code).
      replace (has_code c_star y) with true by (symmetry; by_code). reflexivity.
    - replace (has_code c_star x) with false by (symmetry; by_code).
      replace (has_code c_underscore x) with true by (symmetry; by_code).
      replace (has_code c_underscore y) with true by (symmetry; by_code). reflexivity. }
  rewrite (@replace_global_skip _ emMatch emHtml _ emMatch_first p) by exact Pb.
  change ([x; y] ++ s) with (x :: y :: s).
  rewrite (@replace_global_some _ emMatch emHtml _ _ _ _ Hem) by (simpl; lia).
  rewrite (@replace_global_id _ emMatch emHtml _ emMatch_first s) by exact Sb.
  rewrite (@replace_global_id _ delMatch delHtml _ delMatch_first) by exact Qtil.
  rewrite (@replace_global_id _ codeMatch codeHtml _ codeMatch_first) by exact Qtick.
  now rewrite (@replace_global_id _ linkMatch linkHtml _ linkMatch_first) by exact Qlink.
Qed.

Lemma codes_delimiter d n :
  delimiterChar (U16 n Input) = true ->
  codes d = [n] \/ codes d = [n; n] -> Forall (fun c => delimiterChar c = true) d.
Proof.
  intros Hn Hd.
  assert (H : forall c, code c = n -> delimiterChar c = true).
  { intros c Hc. unfold delimiterChar, has_code in *. simpl in Hn. now rewrite Hc. }
  destruct Hd as [Hd | Hd].
  - destruct d as [| x [| y d]]; try discriminate. injection Hd as Hx. auto.
  - destruct d as [| x [| y [| z d]]]; try discriminate. injection Hd as Hx Hy. auto.
Qed.




(** ** The content of a code span *)

Lemma emphasis_mark_codes c :
  is_emphasis_mark c = true ->
  has_code c_backtick c = false /\ has_code c_lbracket c = false.
Proof.
  unfold is_emphasis_mark, has_code. intros H.
  repeat (apply orb_true_iff in H; destruct H as [H | H]);
    apply N.eqb_eq in H; rewrite H; split; reflexivity.
Qed.

Lemma backtick_no_mark c :
  has_code c_backtick c = true ->
  is_emphasis_mark c = false /\ has_code c_lbracket c = false
  /\ escapeUnit c = [c].
Proof.
  unfold is_emphasis_mark, escapeUnit, has_code. intros H.
  apply N.eqb_eq in H. rewrite H. repeat split; reflexivity.
Qed.

Lemma quiet_no_mark c : quiet c -> Forall (fun x => is_emphasis_mark x = false) c.
Proof.
  apply Forall_impl. intros x Hx. apply delimiterChar_false in Hx.
  destruct Hx as (H1 & H2 & H3 & _). unfold is_emphasis_mark. now rewrite H1, H2, H3.
Qed.

(** A run of text other than backticks moves every place to [afterText]. *)
Lemma ticksFrom_text m r st :
  m <> [] -> Forall (fun c => has_code c_backtick c = false) m ->
  ticksFrom st (m ++ r) = ticksFrom (afterText st) r.
Proof.
  intros Hne Hm. revert st. induction Hm as [| c m Hc Hm IH]; [congruence |].
  intros st. cbn [app ticksFrom]. rewrite Hc.
  destruct m as [| c' m]; [reflexivity |].
  rewrite IH by discriminate. now destruct st.
Qed.

Lemma ticksFrom_inside s :
  ticksFrom Inside s = true ->
  exists u b2 s', s = u ++ b2 :: s'
                  /\ Forall (fun c => has_code c_backtick c = false) u
                  /\ has_code c_backtick b2 = true /\ ticksFrom Outside s' = true.
Proof.
  induction s as [| c s IH]; [discriminate |]. cbn [ticksFrom afterText].
  destruct (has_code c_backtick c) eqn:Hc; intros H.
  - exists [], c, s. repeat split; auto.
  - destruct (IH H) as (u & b2 & s' & -> & Hu & Hb & Hs).
    exists (c :: u), b2, s'. repeat split; auto.
Qed.

Lemma ticksFrom_opened s :
  ticksFrom Opened s = true ->
  exists u b2 s', s = u ++ b2 :: s' /\ u <> []
                  /\ Forall (fun c => has_code c_backtick c = false) u
                  /\ has_code c_backtick b2 = true /\ ticksFrom Outside s' = true.
Proof.
  destruct s as [| c s]; [discriminate |]. cbn [ticksFrom afterText].
  destruct (has_code c_backtick c) eqn:Hc; [discriminate |]. intros H.
  destruct (ticksFrom_inside _ H) as (u & b2 & s' & -> & Hu & Hb & Hs).
  exists (c :: u), b2, s'. repeat split; auto. discriminate.
Qed.

(** Escaping keeps the backticks where they are. *)
Lemma escapeHtml_ticks p st : ticksFrom st (escapeHtml p) = ticksFrom st p.
Proof.
  rewrite escapeHtml_units. revert st.
  induction p as [| c p IH]; intros st; [reflexivity |].
  cbn [flat_map]. unfold escapeUnit.
  assert (E : forall e, e <> [] -> Forall (fun x => has_code c_backtick x = false) e ->
              has_code c_backtick c = false ->
              ticksFrom st (e ++ flat_map escapeUnit p) = ticksFrom st (c :: p)).
  { intros e He Hb Hc. rewrite (ticksFrom_text _ _ He Hb).
    cbn [ticksFrom]. rewrite Hc. apply IH. }
  destruct (has_code c_amp c) eqn:Ha.
  { apply E; [discriminate | apply Forall_false_forallb; reflexivity |].
    unfold has_code in *. apply N.eqb_eq in Ha. now rewrite Ha. }
  destruct (has_code c_lt c) eqn:Hl.
  { apply E; [discriminate | apply Forall_false_forallb; reflexivity |].
    unfold has_code in *. apply N.eqb_eq in Hl. now rewrite Hl. }
  destruct (has_code c_gt c) eqn:Hg.
  { apply E; [discriminate | apply Forall_false_forallb; reflexivity |].
    unfold has_code in *. apply N.eqb_eq in Hg. now rewrite Hg. }
  cbn [app ticksFrom]. destruct (has_code c_backtick c); [| apply IH].
  destruct st; auto.
Qed.

(** Escaping writes none of the characters of a class that has none of the
    characters of the three entities. *)
Lemma escapeHtml_without (T : unit16 -> bool) a :
  forallb (fun c => negb (T c)) (lit "&amp;" ++ lit "&lt;" ++ lit "&gt;") = true ->
  Forall (fun c => T c = false) a -> Forall (fun c => T c = false) (escapeHtml a).
Proof.
  intros HT Ha. apply Forall_false_forallb in HT.
  apply Forall_app in HT. destruct HT as [H1 HT].
  apply Forall_app in HT. destruct HT as [H2 H3].
  rewrite escapeHtml_units. induction Ha as [| c a Hc Ha IH]; [constructor |].
  cbn [flat_map]. apply Forall_app. split; [| exact IH].
  unfold escapeUnit.
  destruct (has_code c_amp c); [exact H1 |].
  destruct (has_code c_lt c); [exact H2 |].
  destruct (has_code c_gt c); [exact H3 |].
  now constructor.
Qed.

Lemma decorated_refl s : decorated s s.
Proof. induction s; constructor; assumption. Qed.

Lemma decorated_app a a' b b' :
  decorated a a' -> decorated b b' -> decorated (a ++ b) (a' ++ b').
Proof.
  intros Ha Hb. induction Ha as [| c s out Hs IH | d m s out Hd He Hm Hb1 Hb2 Hs IH].
  - exact Hb.
  - cbn [app]. now constructor.
  - rewrite <- !app_assoc. now constructor.
Qed.

Lemma decorated_ticks a b : decorated a b -> forall st, ticksFrom st b = ticksFrom st a.
Proof.
  induction 1 as [| c s out Hs IH | d m s out Hd He Hm Hb1 Hb2 Hs IH]; intros st.
  - reflexivity.
  - cbn [ticksFrom]. now rewrite !IH.
  - rewrite (ticksFrom_text _ _ Hm Hb1), (ticksFrom_text _ _ Hd).
    + apply IH.
    + eapply Forall_impl; [| exact He]. intros c Hc. now apply emphasis_mark_codes in Hc.
Qed.

Lemma decorated_no_bracket a b :
  decorated a b -> Forall (fun c => has_code c_lbracket c = false) a ->
  Forall (fun c => has_code c_lbracket c = false) b.
Proof.
  induction 1 as [| c s out Hs IH | d m s out Hd He Hm Hb1 Hb2 Hs IH]; intros H.
  - constructor.
  - inversion H; subst. constructor; auto.
  - apply Forall_app in H. destruct H as [_ H]. apply Forall_app. auto.
Qed.

Lemma decorated_same a b :
  decorated a b -> Forall (fun c => is_emphasis_mark c = false) a -> b = a.
Proof.
  induction 1 as [| c s out Hs IH | d m s out Hd He Hm Hb1 Hb2 Hs IH]; intros H.
  - reflexivity.
  - inversion H; subst. f_equal. auto.
  - destruct d as [| x d]; [congruence |].
    inversion He; subst. inversion H; subst. congruence.
Qed.

Lemma marks_before d s X k Z :
  d ++ s = X ++ k :: Z ->
  Forall (fun c => is_emphasis_mark c = true) d -> is_emphasis_mark k = false ->
  exists X2, X = d ++ X2 /\ s = X2 ++ k :: Z.
Proof.
  intros E Hd Hk. revert X E. induction Hd as [| c d Hc Hd IH]; intros X E.
  - exists X. auto.
  - destruct X as [| x X]; cbn [app] in E; injection E as -> E.
    + congruence.
    + destruct (IH _ E) as (X2 & -> & ->). exists X2. auto.
Qed.

(** A character that is no [*], [_], [~] stays, with decorated text on
    either side. *)
Lemma decorated_split a out :
  decorated a out ->
  forall X k Z, a = X ++ k :: Z -> is_emphasis_mark k = false ->
  exists X' Z', out = X' ++ k :: Z' /\ decorated X X' /\ decorated Z Z'.
Proof.
  induction 1 as [| c s out Hs IH | d m s out Hd He Hm Hb1 Hb2 Hs IH]; intros X k Z E Hk.
  - destruct X; discriminate.
  - destruct X as [| x X]; cbn [app] in E; injection E as -> ->.
    + exists [], out. repeat split; [constructor | exact Hs].
    + destruct (IH _ _ _ eq_refl Hk) as (X' & Z' & -> & HX & HZ).
      exists (x :: X'), Z'. repeat split; [now constructor | exact HZ].
  - destruct (marks_before _ _ _ _ E He Hk) as (X2 & -> & ->).
    destruct (IH _ _ _ eq_refl Hk) as (X' & Z' & -> & HX & HZ).
    exists (m ++ X'), Z'. rewrite <- app_assoc.
    repeat split; [now constructor | exact HZ].
Qed.

(** A code span with quiet content stays, with decorated text on either
    side. *)
Lemma decorated_span X b1 e b2 Y out :
  decorated (X ++ b1 :: e ++ b2 :: Y) out ->
  has_code c_backtick b1 = true -> has_code c_backtick b2 = true ->
  Forall (fun c => is_emphasis_mark c = false) e ->
  exists X' Y', out = X' ++ b1 :: e ++ b2 :: Y' /\ decorated X X' /\ decorated Y Y'.
Proof.
  intros H H1 H2 He.
  destruct (decorated_split H _ _ _ eq_refl (proj1 (backtick_no_mark _ H1)))
    as (X' & Z' & -> & HX & HZ).
  destruct (decorated_split HZ _ _ _ eq_refl (proj1 (backtick_no_mark _ H2)))
    as (e' & Y' & -> & He' & HY).
  rewrite (decorated_same He' He). eauto.
Qed.

Section Decorating.
Variable m : str -> option (str * str).
Variable repl : str -> str.
Variables open close : str.
Hypothesis m_shorter : forall s g rest, m s = Some (g, rest) -> length rest < length s.
Hypothesis m_shape : forall s g rest,
  m s = Some (g, rest) ->
  exists o c, s = o ++ g ++ c ++ rest
              /\ o <> [] /\ Forall (fun x => is_emphasis_mark x = true) o
              /\ c <> [] /\ Forall (fun x => is_emphasis_mark x = true) c.
Hypothesis repl_tags : forall g, repl g = open ++ g ++ close.
Hypothesis open_text :
  forallb (fun c => negb (has_code c_backtick c || has_code c_lbracket c)) open = true
  /\ open <> [].
Hypothesis close_text :
  forallb (fun c => negb (has_code c_backtick c || has_code c_lbracket c)) close = true
  /\ close <> [].

(** A replacement of text between two runs of [*], [_] or [~] by the same
    text between two tags decorates. *)
Lemma replace_global_decorated s : decorated s (replace_global m repl s).
Proof.
  assert (T : forall t,
            forallb (fun c => negb (has_code c_backtick c || has_code c_lbracket c)) t
            = true ->
            Forall (fun c => has_code c_backtick c = false) t
            /\ Forall (fun c => has_code c_lbracket c = false) t).
  { intros t Ht. apply Forall_false_forallb in Ht.
    split; (eapply Forall_impl; [| exact Ht]); intros c Hc;
      apply orb_false_iff in Hc; tauto. }
  apply (@replace_global_scan _ m repl decorated).
  - constructor.
  - intros c t _ IH. now constructor.
  - intros c t g rest Hg _ IH.
    destruct (m_shape Hg) as (o & cl & -> & Ho & Hoe & Hc & Hce).
    rewrite repl_tags, <- !app_assoc.
    destruct open_text as [Hop Hon], close_text as [Hcp Hcn].
    destruct (T _ Hop) as [? ?], (T _ Hcp) as [? ?].
    constructor; auto. apply decorated_app; [apply decorated_refl |].
    constructor; auto.
  - intros c t g rest Hg Hle _. apply m_shorter in Hg. lia.
Qed.
End Decorating.

Lemma codes_marks d o :
  codes o = d -> d <> [] ->
  Forall (fun n => n = c_star \/ n = c_underscore \/ n = c_tilde) d ->
  o <> [] /\ Forall (fun x => is_emphasis_mark x = true) o.
Proof.
  intros E Hne Hd. subst d. split.
  - destruct o; [exfalso; apply Hne; reflexivity | discriminate].
  - clear Hne. induction o as [| x o IH]; [constructor |].
    inversion Hd; subst. constructor; [| auto].
    unfold is_emphasis_mark, has_code.
    match goal with H : _ \/ _ |- _ => destruct H as [-> | [-> | ->]] end; reflexivity.
Qed.

Lemma delimited_marks d s g rest :
  d <> [] -> Forall (fun n => n = c_star \/ n = c_underscore \/ n = c_tilde) d ->
  delimited d s = Some (g, rest) ->
  exists o c, s = o ++ g ++ c ++ rest
              /\ o <> [] /\ Forall (fun x => is_emphasis_mark x = true) o
              /\ c <> [] /\ Forall (fun x => is_emphasis_mark x = true) c.
Proof.
  intros Hne Hd H. apply delimited_sound in H.
  destruct H as (o & c & -> & Ho & Hc & _).
  destruct (@codes_marks _ o Ho Hne Hd) as [? ?], (@codes_marks _ c Hc Hne Hd) as [? ?].
  exists o, c. auto.
Qed.

(** Bold, italic and strikethrough decorate the escaped line. *)
Lemma beforeCode_decorated s :
  exists x1 x2,
    decorated (escapeHtml s) x1 /\ decorated x1 x2 /\ decorated x2 (beforeCode s).
Proof.
  exists (replace_global strongMatch strongHtml (escapeHtml s)).
  exists (replace_global emMatch emHtml
            (replace_global strongMatch strongHtml (escapeHtml s))).
  split; [| split].
  - apply (@replace_global_decorated strongMatch strongHtml strong_open strong_close
             strongMatch_shorter).
    + intros t g rest H. unfold strongMatch, alt in H.
      destruct (delimited [c_star; c_star] t) as [[g' r'] |] eqn:E.
      * injection H as <- <-. revert E. apply delimited_marks; [discriminate |].
        repeat (apply Forall_cons; [auto |]); apply Forall_nil.
      * revert H. apply delimited_marks; [discriminate |]. repeat (apply Forall_cons; [auto |]); apply Forall_nil.
    + reflexivity.
    + split; [reflexivity | discriminate].
    + split; [reflexivity | discriminate].
  - apply (@replace_global_decorated emMatch emHtml (lit "<em>") (lit "</em>")
             emMatch_shorter).
    + intros t g rest H. unfold emMatch, alt in H.
      destruct (delimited [c_star] t) as [[g' r'] |] eqn:E.
      * injection H as <- <-. revert E. apply delimited_marks; [discriminate |].
        repeat (apply Forall_cons; [auto |]); apply Forall_nil.
      * revert H. apply delimited_marks; [discriminate |]. repeat (apply Forall_cons; [auto |]); apply Forall_nil.
    + reflexivity.
    + split; [reflexivity | discriminate].
    + split; [reflexivity | discriminate].
  - apply (@replace_global_decorated delMatch delHtml (lit "<del>") (lit "</del>")
             delMatch_shorter).
    + intros t g rest H. revert H. apply delimited_marks; [discriminate |].
      repeat (apply Forall_cons; [auto |]); apply Forall_nil.
    + reflexivity.
    + split; [reflexivity | discriminate].
    + split; [reflexivity | discriminate].
Qed.

(** The code spans of paired text are wrapped whatever follows it. *)
Lemma code_after_paired X :
  ticksFrom Outside X = true ->
  Forall (fun c => has_code c_lbracket c = false) X ->
  (forall r, replace_global codeMatch codeHtml (X ++ r)
             = replace_global codeMatch codeHtml X ++ replace_global codeMatch codeHtml r)
  /\ Forall (fun c => has_code c_lbracket c = false) (replace_global codeMatch codeHtml X).
Proof.
  remember (length X) as n eqn:Hn. revert X Hn.
  induction n as [n IH] using lt_wf_ind. intros X Hn Ht Hb.
  destruct X as [| c X].
  { rewrite replace_global_nil. split; [reflexivity | constructor]. }
  inversion Hb as [| ? ? Hc HX]; subst. cbn [ticksFrom afterText] in Ht.
  destruct (has_code c_backtick c) eqn:Hbt.
  - destruct (ticksFrom_opened _ Ht) as (u & b2 & X' & -> & Hne & Hu & H2 & Ht').
    apply Forall_app in HX. destruct HX as [Hub HX]. inversion HX as [| ? ? _ HX']; subst.
    destruct (IH (length X')) with (X := X') as [IH1 IH2]; auto.
    { cbn [length]. rewrite length_app. cbn [length]. lia. }
    pose proof (@codeMatch_span c b2 u X' Hbt H2 Hu Hne) as Hm.
    split.
    + intros r.
      pose proof (@codeMatch_span c b2 u (X' ++ r) Hbt H2 Hu Hne) as Hm'.
      cbn [app]. rewrite <- app_assoc. cbn [app].
      rewrite (@replace_global_some _ codeMatch codeHtml _ _ _ _ Hm')
        by (apply codeMatch_shorter in Hm'; exact Hm').
      rewrite (@replace_global_some _ codeMatch codeHtml _ _ _ _ Hm)
        by (apply codeMatch_shorter in Hm; exact Hm).
      rewrite IH1, <- app_assoc. reflexivity.
    + rewrite (@replace_global_some _ codeMatch codeHtml _ _ _ _ Hm)
        by (apply codeMatch_shorter in Hm; exact Hm).
      destruct code_open_no_link as [Ho Hcl]. unfold codeHtml.
      repeat (apply Forall_app; split); auto.
  - destruct (IH (length X)) with (X := X) as [IH1 IH2]; auto.
    split.
    + intros r. cbn [app].
      rewrite !(@replace_global_none _ codeMatch codeHtml)
        by (now apply codeMatch_first).
      rewrite IH1. reflexivity.
    + rewrite (@replace_global_none _ codeMatch codeHtml) by (now apply codeMatch_first).
      constructor; auto.
Qed.

(** A span after paired text without [[]: the last two replacements. *)
Lemma span_after_paired X e Y b1 b2 :
  ticksFrom Outside X = true ->
  Forall (fun c => has_code c_lbracket c = false) X ->
  Forall (fun c => has_code c_backtick c = false) e ->
  Forall (fun c => has_code c_lbracket c = false) e -> e <> [] ->
  has_code c_backtick b1 = true -> has_code c_backtick b2 = true ->
  replace_global linkMatch linkHtml
    (replace_global codeMatch codeHtml (X ++ b1 :: e ++ b2 :: Y))
  = replace_global codeMatch codeHtml X ++ code_open ++ e ++ code_close
    ++ replace_global linkMatch linkHtml (replace_global codeMatch codeHtml Y).
Proof.
  intros Ht Hb He1 He2 Hne H1 H2.
  destruct (code_after_paired Ht Hb) as [E HX]. rewrite E.
  pose proof (@codeMatch_span b1 b2 e Y H1 H2 He1 Hne) as Hm.
  rewrite (@replace_global_some _ codeMatch codeHtml _ _ _ _ Hm)
    by (apply codeMatch_shorter in Hm; exact Hm).
  destruct code_open_no_link as [Ho Hcl].
  rewrite app_assoc.
  rewrite (@replace_global_skip _ linkMatch linkHtml _ linkMatch_first).
  - unfold codeHtml. now rewrite <- !app_assoc.
  - unfold codeHtml. repeat (apply Forall_app; split); auto.
Qed.

(** Text without [*], [_], [~] is only escaped by the replacements before
    the one for code spans. *)
Lemma beforeCode_escapes a b :
  Forall (fun c => is_emphasis_mark c = false) a ->
  beforeCode (a ++ b) = escapeHtml a ++ beforeCode b.
Proof.
  intros Ha. unfold beforeCode. rewrite escapeHtml_app.
  assert (H : forall T : unit16 -> bool,
             forallb (fun c => negb (T c)) (lit "&amp;" ++ lit "&lt;" ++ lit "&gt;") = true ->
             (forall c, is_emphasis_mark c = false -> T c = false) ->
             Forall (fun c => T c = false) (escapeHtml a)).
  { intros T HT HE. apply escapeHtml_without; [exact HT |].
    eapply Forall_impl; [| exact Ha]. exact HE. }
  assert (HS : Forall (fun c => has_code c_star c || has_code c_underscore c = false)
                 (escapeHtml a)).
  { apply H; [reflexivity |]. intros c Hc. unfold is_emphasis_mark in Hc.
    apply orb_false_iff in Hc. tauto. }
  assert (HD : Forall (fun c => has_code c_tilde c = false) (escapeHtml a)).
  { apply H; [reflexivity |]. intros c Hc. unfold is_emphasis_mark in Hc.
    apply orb_false_iff in Hc. tauto. }
  rewrite (@replace_global_skip _ strongMatch strongHtml _ strongMatch_first _ _ HS).
  rewrite (@replace_global_skip _ emMatch emHtml _ emMatch_first _ _ HS).
  rewrite (@replace_global_skip _ delMatch delHtml _ delMatch_first _ _ HD).
  reflexivity.
Qed.




(** Each condition on the span and on the text before it is needed: [~~]
    and [_] between backticks are replaced as [**] is; after a [[] the link
    rule can take the end of its address from the content of a span; and
    after two backticks with nothing between them, the second one opens the
    next span. *)
Lemma code_span_conditions_are_needed :
  applyInlineFormatting (input "`~~x~~` `_y_`")
  = code_open ++ lit "<del>" ++ input "x" ++ lit "</del>" ++ code_close ++ input " "
    ++ code_open ++ lit "<em>" ++ input "y" ++ lit "</em>" ++ code_close
  /\ applyInlineFormatting (input "[a](b`c)d`")
     = tpl "<a href='" ++ input "b" ++ code_open ++ input "c"
       ++ tpl "' target='_blank' rel='noopener noreferrer' class='text-cyan-400 hover:underline'>"
       ++ input "a" ++ lit "</a>" ++ input "d" ++ code_close
  /\ applyInlineFormatting (input "`` `c`")
     = input "`" ++ code_open ++ input " " ++ code_close ++ input "c`".
Proof. repeat split; vm_compute; reflexivity. Qed.

(** ** Paragraphs *)

(** The test that ends a paragraph repeats the block patterns, but for the
    rule, where it asks only for a start of three rule characters. *)
Lemma startsBlock_patterns line :
  startsBlock line
  = matched (headingMatch line) || matched (blockquoteMatch line) || ruleStart line
    || matched (ulMatch line) || matched (olMatch line).
Proof.
  unfold startsBlock, headingMatch, blockquoteMatch, ruleStart, ulMatch, olMatch.
  repeat match goal with
    | |- context [matched (match ?x with _ => _ end)] => destruct x as [? |]
    end;
    repeat match goal with
      | p : (_ * _)%type |- _ => destruct p
      end; reflexivity.
Qed.

(** C3 at a line that starts with three dashes and goes on: the line is no
    rule, no heading, no blockquote and no list item, and it is not blank,
    yet it ends the paragraph before it and starts a paragraph of its own. *)
Lemma paragraph_cut_by_rule_start :
  (hrMatch (input "---abc") = false
   /\ headingMatch (input "---abc") = None
   /\ blockquoteMatch (input "---abc") = None
   /\ ulMatch (input "---abc") = None
   /\ olMatch (input "---abc") = None
   /\ isBlank (input "---abc") = false)
  /\ startsBlock (input "---abc") = true
  /\ renderPieces (textOf ["a"; "---abc"]%string)
     = Some [Paragraph (input "a"); Paragraph (input "---abc")]
  /\ renderPieces (textOf ["a"; "---abc"]%string)
     <> Some [Paragraph (input "a" ++ newline ++ input "---abc")]
  /\ renderPieces (textOf ["a"; "+--abc"]%string)
     = Some [Paragraph (input "a" ++ newline ++ input "+--abc")].
Proof.
  split; [vm_compute; repeat split |].
  split; [vm_compute; reflexivity |].
  split; [vm_compute; reflexivity |].
  split; [| vm_compute; reflexivity].
  intros H. vm_compute in H. discriminate H.
Qed.

(** ** Blockquotes *)

(** C5 at a blockquote whose lines have white space around their text: the
    lines after the first are trimmed, the first one is not (only one
    character of white space after [>] is dropped). *)
Lemma blockquote_first_line_not_trimmed :
  renderPieces (textOf [">  a  "; ">  b  "]%string)
  = Some [Blockquote [input " a  "; input "b"]]
  /\ renderPieces (textOf [">  a  "; ">  b  "]%string)
     <> Some [Blockquote [input "a"; input "b"]].
Proof.
  split; [vm_compute; reflexivity |].
  intros H. vm_compute in H. discriminate H.
Qed.

(** ** The examples of the specification *)

Example render_empty : renderSimpleMarkdown [] = Some [].
Proof. reflexivity. Qed.

Example render_title :
  renderSimpleMarkdown (input "# Title")
  = Some (tpl "<h1 class='text-xl mt-5 mb-3 font-semibold text-white'>"
          ++ input "Title" ++ lit "</h1>").
Proof. vm_compute. reflexivity. Qed.

Example render_sub :
  renderSimpleMarkdown (input "### Sub")
  = Some (tpl "<h3 class='text-base mt-3 mb-1 font-semibold text-white'>"
          ++ input "Sub" ++ lit "</h3>").
Proof. vm_compute. reflexivity. Qed.

Example render_too_deep :
  renderSimpleMarkdown (input "#### Too Deep")
  = Some (tpl "<p class='my-2 leading-relaxed'>" ++ input "#### Too Deep" ++ lit "</p>").
Proof. vm_compute. reflexivity. Qed.

Example render_list_switch :
  renderSimpleMarkdown (textOf ["- a"; "1. b"]%string)
  = Some (tpl "<ul class='list-disc list-outside space-y-2 my-3 pl-6'>"
          ++ lit "<li>" ++ input "a" ++ lit "</li></ul>"
          ++ tpl "<ol class='list-decimal list-outside space-y-2 my-3 pl-6'>"
          ++ lit "<li>" ++ input "b" ++ lit "</li></ol>").
Proof. vm_compute. reflexivity. Qed.

Example render_paragraph_then_heading :
  renderPieces (textOf ["hello"; "# heading"]%string)
  = Some [Paragraph (input "hello"); Heading 1 (input "heading")].
Proof. vm_compute. reflexivity. Qed.

Example render_bold :
  renderSimpleMarkdown (input "**bold**")
  = Some (tpl "<p class='my-2 leading-relaxed'>" ++ strong_open ++ input "bold"
          ++ strong_close ++ lit "</p>").
Proof. vm_compute. reflexivity. Qed.

Example render_link :
  applyInlineFormatting (input "[site](https://example.com)")
  = tpl "<a href='" ++ input "https://example.com"
    ++ tpl "' target='_blank' rel='noopener noreferrer' class='text-cyan-400 hover:underline'>"
    ++ input "site" ++ lit "</a>".
Proof. vm_compute. reflexivity. Qed.

Example render_blockquote :
  renderPieces (textOf ["> line1"; "> line2"]%string)
  = Some [Blockquote [input "line1"; input "line2"]]
  /\ markup (Blockquote [input "line1"; input "line2"])
     = tpl "<blockquote class='border-l-4 border-cyan-500/50 pl-4 my-3 text-gray-300 italic bg-black/25 py-2 whitespace-pre-wrap'>"
       ++ input "line1" ++ newline ++ input "line2" ++ lit "</blockquote>".
Proof. split; vm_compute; reflexivity. Qed.

(** ** The origin marks are not read

    Replacing every mark of the input by [Markup] before the renderer runs
    or after it gives the same result: the code units of the output depend
    on the code units of the input only. *)

Lemma erase_app a b : erase (a ++ b) = erase a ++ erase b.
Proof. apply map_app. Qed.

Lemma erase_Markup s : Forall (fun c => from c = Markup) s -> erase s = s.
Proof.
  induction 1 as [| [n o] s Hc Hs IH]; [reflexivity |].
  simpl in *. subst o. now rewrite IH.
Qed.

Lemma erase_lit s : erase (lit s) = lit s.
Proof. apply erase_Markup, units_Markup. Qed.

Lemma erase_tpl s : erase (tpl s) = tpl s.
Proof.
  apply erase_Markup. unfold tpl. apply Forall_map. apply Forall_forall. reflexivity.
Qed.

Lemma codes_erase s : codes (erase s) = codes s.
Proof. unfold codes, erase. rewrite map_map. reflexivity. Qed.

Lemma erase_codes a b : codes a = codes b -> erase a = erase b.
Proof.
  revert b. induction a as [| x a IH]; intros [| y b] H; simpl in *; try discriminate.
  - reflexivity.
  - injection H as Hxy H. rewrite Hxy. f_equal. now apply IH.
Qed.

Lemma length_erase s : length (erase s) = length s.
Proof. apply length_map. Qed.

Lemma has_code_unmarked n : unmarked (has_code n).
Proof. intros [x o]. reflexivity. Qed.

Lemma is_space_unmarked : unmarked is_space.
Proof. intros [x o]. reflexivity. Qed.

Lemma is_dot_unmarked : unmarked is_dot.
Proof. intros [x o]. reflexivity. Qed.

Lemma is_digit_unmarked : unmarked is_digit.
Proof. intros [x o]. reflexivity. Qed.

Lemma is_rule_char_unmarked : unmarked is_rule_char.
Proof. intros [x o]. reflexivity. Qed.

Lemma is_bullet_unmarked : unmarked is_bullet.
Proof. intros [x o]. reflexivity. Qed.

Lemma not_backtick_unmarked : unmarked not_backtick.
Proof. intros [x o]. reflexivity. Qed.

Create HintDb unmarked.
#[local] Hint Resolve has_code_unmarked is_space_unmarked is_dot_unmarked
  is_digit_unmarked is_rule_char_unmarked is_bullet_unmarked not_backtick_unmarked
  : unmarked.

Section RegexErase.
Variable R : Type.
Variable f : R -> R.
Variable p : unit16 -> bool.
Variable k : str -> option R.
Hypothesis p_unmarked : unmarked p.
Hypothesis k_blind : blind f k.

Lemma stop_erase lo : blind (eraseGroup f) (stop lo k).
Proof.
  intros s. destruct lo; simpl; [| reflexivity].
  rewrite k_blind. destruct (k s); reflexivity.
Qed.

Lemma greedy_erase lo : blind (eraseGroup f) (greedy lo p k).
Proof.
  intros s. revert lo. induction s as [| c s IH]; intros lo.
  - apply (stop_erase lo []).
  - pose proof (stop_erase lo (c :: s)) as Hstop.
    simpl in *. rewrite p_unmarked. destruct (p c); [| exact Hstop].
    rewrite IH. destruct (greedy (pred lo) p k s) as [[g x] |]; [reflexivity |].
    exact Hstop.
Qed.

Lemma greedy_upto_erase lo extra : blind (eraseGroup f) (greedy_upto lo extra p k).
Proof.
  intros s. revert lo extra. induction s as [| c s IH]; intros lo extra.
  - pose proof (stop_erase lo []) as Hstop. destruct lo, extra; exact Hstop.
  - pose proof (stop_erase lo (c :: s)) as Hstop.
    destruct lo as [| lo], extra as [| extra]; simpl in *; try exact Hstop;
      rewrite p_unmarked; (destruct (p c); [| try exact Hstop; reflexivity]);
      rewrite IH;
      match goal with
      | |- context [greedy_upto ?a ?b p k s] =>
          destruct (greedy_upto a b p k s) as [[g x] |]
      end; try reflexivity; exact Hstop.
Qed.

Lemma lazy_erase lo : blind (eraseGroup f) (lazy lo p k).
Proof.
  intros s. revert lo. induction s as [| c s IH]; intros lo.
  - pose proof (stop_erase lo []) as Hstop. cbn [erase map] in Hstop.
    cbn [erase map lazy].
    destruct (stop lo k []) as [[g x] |]; [exact Hstop | reflexivity].
  - pose proof (stop_erase lo (c :: s)) as Hstop. cbn [erase map] in Hstop.
    cbn [erase map lazy]. rewrite Hstop.
    destruct (stop lo k (c :: s)) as [[g x] |]; [reflexivity |]. cbn [option_map].
    rewrite p_unmarked. destruct (p c); [| reflexivity].
    fold (erase s). rewrite IH.
    destruct (lazy (pred lo) p k s) as [[g x] |]; reflexivity.
Qed.

Lemma exact_erase d : blind f (exact d k).
Proof.
  induction d as [| n d IH]; intros s; simpl.
  - apply k_blind.
  - destruct s as [| c s]; [reflexivity |]. simpl.
    rewrite (has_code_unmarked n c). destruct (has_code n c); [apply IH | reflexivity].
Qed.

Lemma one_erase : blind f (one p k).
Proof.
  intros [| c s]; simpl; [reflexivity |].
  rewrite p_unmarked. destruct (p c); [apply k_blind | reflexivity].
Qed.
End RegexErase.

Lemma alt_erase (R : Type) (f : R -> R) (a b : str -> option R) :
  blind f a -> blind f b -> blind f (alt a b).
Proof.
  intros Ha Hb s. unfold alt. rewrite Ha, Hb. destruct (a s); reflexivity.
Qed.

Lemma done_erase : blind erase done.
Proof. intros s. reflexivity. Qed.

Lemma at_end_erase : blind (fun u : unit => u) at_end.
Proof. intros [| c s]; reflexivity. Qed.

Section ReplaceErase.
Variable G : Type.
Variable fG : G -> G.
Variable m : str -> option (G * str).
Variable repl : G -> str.
Hypothesis m_blind : blind (fun r : G * str => (fG (fst r), erase (snd r))) m.
Hypothesis repl_erase : forall g, repl (fG g) = erase (repl g).

Lemma replace_global_erase s :
  replace_global m repl (erase s) = erase (replace_global m repl s).
Proof.
  apply (replace_global_scan m repl
           (fun s out => replace_global m repl (erase s) = erase out)).
  - reflexivity.
  - intros c t Hm IH. pose proof (m_blind (c :: t)) as Hb. rewrite Hm in Hb.
    change (erase (c :: t)) with (U16 (code c) Markup :: erase t) in *.
    rewrite (@replace_global_none _ m repl _ _ Hb).
    change (erase (c :: replace_global m repl t))
      with (U16 (code c) Markup :: erase (replace_global m repl t)).
    now rewrite IH.
  - intros c t g rest Hm Hlt IH. pose proof (m_blind (c :: t)) as Hb. rewrite Hm in Hb.
    change (erase (c :: t)) with (U16 (code c) Markup :: erase t) in *.
    cbn [option_map fst snd] in Hb.
    rewrite (@replace_global_some _ m repl _ _ _ _ Hb)
      by (simpl in *; rewrite !length_erase; exact Hlt).
    now rewrite IH, repl_erase, erase_app.
  - intros c t g rest Hm Hle IH. pose proof (m_blind (c :: t)) as Hb. rewrite Hm in Hb.
    change (erase (c :: t)) with (U16 (code c) Markup :: erase t) in *.
    cbn [option_map fst snd] in Hb.
    rewrite (@replace_global_empty _ m repl _ _ _ _ Hb)
      by (simpl in *; rewrite !length_erase; exact Hle).
    rewrite IH, repl_erase, erase_app. reflexivity.
Qed.
End ReplaceErase.

Lemma charMatch_erase n :
  blind (fun r : unit * str => (fst r, erase (snd r))) (charMatch n).
Proof.
  intros s. unfold charMatch.
  apply (@exact_erase _ (fun r : unit * str => (fst r, erase (snd r)))
           (fun r => Some (tt, r))).
  intros t. reflexivity.
Qed.

Lemma delimited_erase d :
  blind (fun r : str * str => (erase (fst r), erase (snd r))) (delimited d).
Proof.
  intros s. unfold delimited.
  apply (@exact_erase _ (eraseGroup erase)).
  apply lazy_erase; auto with unmarked.
  apply exact_erase. apply done_erase.
Qed.

Lemma strongMatch_erase :
  blind (fun r : str * str => (erase (fst r), erase (snd r))) strongMatch.
Proof. apply alt_erase; apply delimited_erase. Qed.

Lemma emMatch_erase :
  blind (fun r : str * str => (erase (fst r), erase (snd r))) emMatch.
Proof. apply alt_erase; apply delimited_erase. Qed.

Lemma delMatch_erase :
  blind (fun r : str * str => (erase (fst r), erase (snd r))) delMatch.
Proof. apply delimited_erase. Qed.

Lemma codeMatch_erase :
  blind (fun r : str * str => (erase (fst r), erase (snd r))) codeMatch.
Proof.
  intros s. unfold codeMatch.
  apply (@exact_erase _ (eraseGroup erase)).
  apply lazy_erase; auto with unmarked.
  apply exact_erase. apply done_erase.
Qed.

Lemma linkMatch_erase :
  blind (fun r : (str * str) * str =>
           ((erase (fst (fst r)), erase (snd (fst r))), erase (snd r))) linkMatch.
Proof.
  intros s. unfold linkMatch.
  rewrite (@exact_erase _ (eraseGroup (eraseGroup erase))).
  - destruct (exact _ _ s) as [[l [u r]] |]; reflexivity.
  - apply lazy_erase; auto with unmarked.
    apply exact_erase. apply lazy_erase; auto with unmarked.
    apply exact_erase. apply done_erase.
Qed.

Lemma escapeHtml_erase s : escapeHtml (erase s) = erase (escapeHtml s).
Proof.
  unfold escapeHtml.
  rewrite !(@replace_global_erase _ (fun u => u)); auto using charMatch_erase.
Qed.

Lemma inlineMarkup_erase s : inlineMarkup (erase s) = erase (inlineMarkup s).
Proof.
  unfold inlineMarkup.
  rewrite (@replace_global_erase _ erase strongMatch strongHtml strongMatch_erase).
  2: { intros g. unfold strongHtml, strong_open, strong_close.
       now rewrite !erase_app, erase_tpl, erase_lit. }
  rewrite (@replace_global_erase _ erase emMatch emHtml emMatch_erase).
  2: { intros g. unfold emHtml. now rewrite !erase_app, !erase_lit. }
  rewrite (@replace_global_erase _ erase delMatch delHtml delMatch_erase).
  2: { intros g. unfold delHtml. now rewrite !erase_app, !erase_lit. }
  rewrite (@replace_global_erase _ erase codeMatch codeHtml codeMatch_erase).
  2: { intros g. unfold codeHtml, code_open, code_close.
       now rewrite !erase_app, erase_tpl, erase_lit. }
  rewrite (@replace_global_erase _ (fun g => (erase (fst g), erase (snd g)))
             linkMatch linkHtml linkMatch_erase).
  2: { intros g. unfold linkHtml. cbn [fst snd].
       now rewrite !erase_app, !erase_tpl, erase_lit. }
  reflexivity.
Qed.

Lemma applyInlineFormatting_erase s :
  applyInlineFormatting (erase s) = erase (applyInlineFormatting s).
Proof.
  rewrite !applyInlineFormatting_stages. now rewrite escapeHtml_erase, inlineMarkup_erase.
Qed.

Lemma split_erase s : split (erase s) = map erase (split s).
Proof.
  induction s as [| c s IH]; [reflexivity |].
  change (erase (c :: s)) with (U16 (code c) Markup :: erase s).
  cbn [split]. rewrite (has_code_unmarked c_nl c), IH.
  destruct (has_code c_nl c); [reflexivity |].
  destruct (split s); reflexivity.
Qed.

Lemma newline_erase : erase newline = newline.
Proof. apply erase_lit. Qed.

Lemma join_erase ls : join (map erase ls) = erase (join ls).
Proof.
  induction ls as [| l ls IH]; [reflexivity |].
  destruct ls as [| l' ls]; [reflexivity |].
  change (join (map erase (l :: l' :: ls)))
    with (erase l ++ newline ++ join (map erase (l' :: ls))).
  change (join (l :: l' :: ls)) with (l ++ newline ++ join (l' :: ls)).
  now rewrite IH, !erase_app, newline_erase.
Qed.

Lemma trimStart_erase s : trimStart (erase s) = erase (trimStart s).
Proof.
  induction s as [| c s IH]; [reflexivity |].
  change (erase (c :: s)) with (U16 (code c) Markup :: erase s).
  cbn [trimStart]. rewrite (is_space_unmarked c).
  destruct (is_space c); [exact IH | reflexivity].
Qed.

Lemma erase_rev s : erase (rev s) = rev (erase s).
Proof. apply map_rev. Qed.

Lemma trim_erase s : trim (erase s) = erase (trim s).
Proof.
  unfold trim, trimEnd.
  now rewrite trimStart_erase, <- erase_rev, trimStart_erase, erase_rev.
Qed.

Lemma isBlank_erase s : isBlank (erase s) = isBlank s.
Proof. unfold isBlank. rewrite trim_erase. destruct (trim s); reflexivity. Qed.

Lemma startsWith_erase n s : startsWith n (erase s) = startsWith n s.
Proof. destruct s as [| c s]; [reflexivity |]. apply (has_code_unmarked n c). Qed.

Lemma substring1_erase s : substring1 (erase s) = erase (substring1 s).
Proof. destruct s; reflexivity. Qed.

Ltac blind_regex :=
  repeat first
    [ apply done_erase | apply at_end_erase
    | apply greedy_erase | apply greedy_upto_erase | apply lazy_erase
    | apply exact_erase | apply one_erase
    | solve [auto with unmarked] ].

Lemma headingMatch_erase : blind eraseHeading headingMatch.
Proof.
  intros line. unfold headingMatch.
  rewrite (@greedy_upto_erase _ (eraseGroup (eraseGroup erase))) by blind_regex.
  destruct (greedy_upto _ _ _ _ line) as [[h [w [c r]]] |]; [| reflexivity].
  unfold eraseHeading. cbn. now rewrite length_erase.
Qed.

Lemma blockquoteMatch_erase : blind erase blockquoteMatch.
Proof.
  intros line. unfold blockquoteMatch.
  rewrite (@exact_erase _ (eraseGroup (eraseGroup erase))) by blind_regex.
  destruct (exact _ _ line) as [[w [c r]] |]; reflexivity.
Qed.

Lemma hrMatch_erase line : hrMatch (erase line) = hrMatch line.
Proof.
  unfold hrMatch.
  rewrite (@greedy_erase _ (fun u : unit => u)) by blind_regex.
  destruct (greedy _ _ _ line); reflexivity.
Qed.

Lemma ulMatch_erase : blind erase ulMatch.
Proof.
  intros line. unfold ulMatch.
  rewrite (@greedy_erase _ (eraseGroup (eraseGroup erase))) by blind_regex.
  destruct (greedy _ _ _ line) as [[w [g [c r]]] |]; reflexivity.
Qed.

Lemma olMatch_erase : blind erase olMatch.
Proof.
  intros line. unfold olMatch.
  rewrite (@greedy_erase _ (eraseGroup (eraseGroup (eraseGroup erase)))) by blind_regex.
  destruct (greedy _ _ _ line) as [[w [d [g [c r]]]] |]; reflexivity.
Qed.

Lemma matched_option_map (A : Type) (f : A -> A) (r : option A) :
  matched (option_map f r) = matched r.
Proof. destruct r; reflexivity. Qed.

Lemma ruleStart_erase line : ruleStart (erase line) = ruleStart line.
Proof.
  unfold ruleStart.
  rewrite (@greedy_erase _ erase) by blind_regex.
  apply matched_option_map.
Qed.

Lemma startsBlock_erase line : startsBlock (erase line) = startsBlock line.
Proof.
  rewrite !startsBlock_patterns.
  now rewrite headingMatch_erase, blockquoteMatch_erase, ruleStart_erase,
    ulMatch_erase, olMatch_erase, !matched_option_map.
Qed.

Lemma markup_erase p : markup (erasePiece p) = erase (markup p).
Proof.
  destruct p as [[|] | k | c | level c | q | | c]; cbn [erasePiece markup];
    rewrite ?erase_app, ?erase_tpl, ?erase_lit, ?join_erase; try reflexivity.
  - destruct k; cbn [tagName]; now rewrite erase_lit.
  - unfold number. rewrite !erase_lit.
    destruct level as [| [| [| level]]]; cbn [size]; now rewrite erase_lit.
Qed.

Lemma htmlString_erase ps : htmlString (map erasePiece ps) = erase (htmlString ps).
Proof.
  unfold htmlString. induction ps as [| p ps IH]; [reflexivity |].
  cbn [map flat_map]. now rewrite IH, markup_erase, erase_app.
Qed.

Lemma quoteLines_erase rest :
  quoteLines (map erase rest)
  = (map erase (fst (quoteLines rest)), map erase (snd (quoteLines rest))).
Proof.
  induction rest as [| l rest IH]; [reflexivity |].
  cbn [map quoteLines]. rewrite startsWith_erase.
  destruct (startsWith c_gt l); [| reflexivity].
  rewrite IH. destruct (quoteLines rest) as [q r]. cbn [fst snd map].
  now rewrite substring1_erase, trim_erase, applyInlineFormatting_erase.
Qed.

Lemma paragraphLines_erase rest :
  paragraphLines (map erase rest)
  = (map erase (fst (paragraphLines rest)), map erase (snd (paragraphLines rest))).
Proof.
  induction rest as [| l rest IH]; [reflexivity |].
  cbn [map paragraphLines]. rewrite isBlank_erase, startsBlock_erase.
  destruct (isBlank l || startsBlock l); [reflexivity |].
  rewrite IH. destruct (paragraphLines rest) as [q r]. reflexivity.
Qed.

Lemma closeListIfNeeded_erase h il :
  closeListIfNeeded (map erasePiece h) il = map erasePiece (closeListIfNeeded h il).
Proof. destruct il; simpl; [now rewrite map_app | reflexivity]. Qed.

Lemma iteration_erase line rest h il :
  iteration (erase line) (map erase rest) (map erasePiece h) il
  = eraseState (iteration line rest h il).
Proof.
  unfold iteration.
  rewrite headingMatch_erase, blockquoteMatch_erase, hrMatch_erase, ulMatch_erase,
    olMatch_erase, isBlank_erase, quoteLines_erase, paragraphLines_erase,
    closeListIfNeeded_erase.
  destruct (headingMatch line) as [[level c] |]; cbn [option_map eraseHeading fst snd].
  { unfold eraseState. cbn [pending html inList].
    now rewrite map_app, applyInlineFormatting_erase. }
  destruct (blockquoteMatch line) as [c |]; cbn [option_map].
  { destruct (quoteLines rest) as [q r]. unfold eraseState. cbn [pending html inList fst snd].
    now rewrite map_app, applyInlineFormatting_erase. }
  destruct (hrMatch line).
  { unfold eraseState. cbn [pending html inList]. now rewrite map_app. }
  destruct (ulMatch line) as [c |]; cbn [option_map].
  { unfold eraseState. cbn [pending html inList].
    rewrite map_app, applyInlineFormatting_erase.
    destruct il as [[|] |]; try reflexivity; now rewrite map_app. }
  destruct (olMatch line) as [c |]; cbn [option_map].
  { unfold eraseState. cbn [pending html inList].
    rewrite map_app, applyInlineFormatting_erase.
    destruct il as [[|] |]; try reflexivity; now rewrite map_app. }
  destruct (isBlank line); cbn [negb].
  { reflexivity. }
  destruct (paragraphLines rest) as [q r]. unfold eraseState.
  cbn [pending html inList fst snd].
  rewrite map_app. cbn [map erasePiece].
  now rewrite <- applyInlineFormatting_erase, <- join_erase.
Qed.

Lemma loop_erase fuel : forall st,
  loop fuel (eraseState st) = option_map (map erasePiece) (loop fuel st).
Proof.
  induction fuel as [| fuel IH]; intros [p h il]; unfold eraseState;
    cbn [loop pending html inList].
  - destruct p; cbn [map option_map]; [now rewrite closeListIfNeeded_erase | reflexivity].
  - destruct p as [| line rest]; cbn [map option_map].
    + now rewrite closeListIfNeeded_erase.
    + rewrite iteration_erase. apply IH.
Qed.

Lemma renderSimpleMarkdown_erase text :
  renderSimpleMarkdown (erase text) = option_map erase (renderSimpleMarkdown text).
Proof.
  rewrite !renderSimpleMarkdown_pieces. unfold renderPieces.
  rewrite split_erase, length_map.
  change (State (map erase (split text)) [] None)
    with (eraseState (State (split text) [] None)).
  rewrite loop_erase. destruct (loop _ _) as [ps |]; [| reflexivity].
  cbn [option_map]. now rewrite htmlString_erase.
Qed.

(** The code units of the result are determined by the code units of the
    text. *)
Theorem origin_marks_not_read :
  forall text1 text2 : str,
    codes text1 = codes text2 ->
    option_map codes (renderSimpleMarkdown text1)
    = option_map codes (renderSimpleMarkdown text2).
Proof.
  intros text1 text2 H. apply erase_codes in H.
  pose proof (renderSimpleMarkdown_erase text1) as H1.
  pose proof (renderSimpleMarkdown_erase text2) as H2.
  rewrite H in H1. rewrite H1 in H2.
  destruct (renderSimpleMarkdown text1) as [o1 |], (renderSimpleMarkdown text2) as [o2 |];
    try discriminate; [| reflexivity].
  cbn [option_map] in *. injection H2 as H2.
  now rewrite <- (codes_erase o1), <- (codes_erase o2), H2.
Qed.


(** ** The tags of the output *)

Lemma inlineTagStart_app t b : inlineTagStart t = true -> inlineTagStart (t ++ b) = true.
Proof.
  destruct t as [| y [| z t]]; cbn [app inlineTagStart]; try discriminate; auto.
  rewrite andb_false_r, orb_false_r. intros ->. reflexivity.
Qed.

Lemma inlineTagsOnly_app a b :
  inlineTagsOnly a = true -> inlineTagsOnly b = true -> inlineTagsOnly (a ++ b) = true.
Proof.
  intros Ha Hb. induction a as [| c a IH]; [exact Hb |].
  cbn [app inlineTagsOnly] in *. apply andb_true_iff in Ha. destruct Ha as [H1 H2].
  apply andb_true_iff. split; [| now apply IH].
  destruct (has_code c_lt c); [now apply inlineTagStart_app | reflexivity].
Qed.

Lemma inlineTagsOnly_suffix a b : inlineTagsOnly (a ++ b) = true -> inlineTagsOnly b = true.
Proof.
  induction a as [| c a IH]; [auto |]. cbn [app inlineTagsOnly]. intros H.
  apply andb_true_iff in H. now apply IH.
Qed.

(** The text in front of a character that belongs to no name of an inline
    element. *)
Lemma inlineTagsOnly_cut g d x :
  inlineTagsOnly (g ++ d :: x) = true ->
  is_inline_letter d = false -> has_code c_slash d = false ->
  inlineTagsOnly g = true.
Proof.
  intros H Hd Hs. induction g as [| c g IH]; [reflexivity |].
  cbn [app inlineTagsOnly] in *. apply andb_true_iff in H. destruct H as [H1 H2].
  apply andb_true_iff. split; [| now apply IH].
  destruct (has_code c_lt c); [| reflexivity]. clear IH H2.
  destruct g as [| y [| z g]]; cbn [app inlineTagStart] in *.
  - rewrite Hd, Hs in H1. discriminate.
  - now rewrite Hd in H1.
  - exact H1.
Qed.

Lemma inlineTagsOnly_no_lt s :
  Forall (fun c => has_code c_lt c = false) s -> inlineTagsOnly s = true.
Proof.
  induction 1 as [| c s Hc Hs IH]; [reflexivity |].
  cbn [inlineTagsOnly]. now rewrite Hc, IH.
Qed.

Section ReplaceTags.
Variable G : Type.
Variable m : str -> option (G * str).
Variable repl : G -> str.
Variable T : unit16 -> bool.
Hypothesis m_first : forall c t, T c = false -> m (c :: t) = None.
Hypothesis T_letter : forall c, is_inline_letter c = true -> T c = false.
Hypothesis T_slash : forall c, has_code c_slash c = true -> T c = false.
Hypothesis m_tags : forall t g rest,
  m t = Some (g, rest) -> inlineTagsOnly t = true ->
  inlineTagsOnly (repl g) = true /\ inlineTagsOnly rest = true.

(** A replacement whose pattern starts at none of the characters of a
    name, and that keeps the names it is given and writes names of its own,
    leaves a text in which every [<] opens or closes an inline element. *)
Lemma replace_global_tags s :
  inlineTagsOnly s = true -> inlineTagsOnly (replace_global m repl s) = true.
Proof.
  enough (H : (inlineTagsOnly s = true -> inlineTagsOnly (replace_global m repl s) = true)
              /\ (inlineTagStart s = true
                  -> inlineTagStart (replace_global m repl s) = true)) by apply H.
  assert (Hstart : forall c t, inlineTagStart (c :: t) = true -> m (c :: t) = None).
  { intros c t H. apply m_first. cbn [inlineTagStart] in H.
    apply orb_true_iff in H. destruct H as [H | H]; [now apply T_letter |].
    apply andb_true_iff in H. now apply T_slash. }
  assert (Hkeep : forall c t,
            (inlineTagStart t = true -> inlineTagStart (replace_global m repl t) = true) ->
            inlineTagStart (c :: t) = true ->
            inlineTagStart (c :: replace_global m repl t) = true).
  { intros c t _ H. cbn [inlineTagStart] in *.
    apply orb_true_iff in H. destruct H as [H | H]; [now rewrite H |].
    apply andb_true_iff in H. destruct H as [Hs Hz]. rewrite Hs.
    destruct t as [| z t]; [discriminate |].
    rewrite replace_global_none by (apply m_first; now apply T_letter).
    rewrite Hz. apply orb_true_r. }
  assert (Hcons : forall c t,
            (inlineTagsOnly t = true -> inlineTagsOnly (replace_global m repl t) = true)
            /\ (inlineTagStart t = true
                -> inlineTagStart (replace_global m repl t) = true) ->
            inlineTagsOnly (c :: t) = true ->
            inlineTagsOnly (c :: replace_global m repl t) = true).
  { intros c t [IH1 IH2] H. cbn [inlineTagsOnly] in *.
    apply andb_true_iff in H. destruct H as [H1 H2].
    rewrite (IH1 H2), andb_true_r.
    destruct (has_code c_lt c); [now apply IH2 | reflexivity]. }
  apply (@replace_global_scan _ m repl
           (fun s r => (inlineTagsOnly s = true -> inlineTagsOnly r = true)
                       /\ (inlineTagStart s = true -> inlineTagStart r = true))).
  - split; auto.
  - intros c t Hm IH. split; [now apply Hcons |]. apply Hkeep, IH.
  - intros c t g rest Hg Hlt [IH1 _]. split.
    + intros H. destruct (m_tags Hg H) as [Hr Hrest].
      apply inlineTagsOnly_app; auto.
    + intros H. rewrite (Hstart _ _ H) in Hg. discriminate.
  - intros c t g rest Hg Hle IH. split.
    + intros H. destruct (m_tags Hg H) as [Hr _].
      apply inlineTagsOnly_app; [exact Hr | now apply Hcons].
    + intros H. rewrite (Hstart _ _ H) in Hg. discriminate.
Qed.
End ReplaceTags.

(** The characters of the delimiters belong to no name. *)
Lemma delimiter_no_letter n c :
  In n [c_star; c_underscore; c_tilde; c_backtick; c_lbracket; c_rbracket; c_rparen] ->
  code c = n -> is_inline_letter c = false /\ has_code c_slash c = false.
Proof.
  intros Hn Hc. unfold is_inline_letter, has_code. rewrite Hc. simpl in Hn.
  repeat (destruct Hn as [<- | Hn]; [split; reflexivity |]). contradiction.
Qed.

Lemma letter_no_delimiter c n :
  In n [c_star; c_underscore; c_tilde; c_backtick; c_lbracket] ->
  is_inline_letter c = true \/ has_code c_slash c = true -> has_code n c = false.
Proof.
  intros Hn H. unfold has_code. apply N.eqb_neq. intros E.
  destruct (@delimiter_no_letter n c) as [H1 H2]; auto.
  - simpl in *. tauto.
  - destruct H; congruence.
Qed.

Lemma delimited_tags n d (open close : str) t g rest :
  In n [c_star; c_underscore; c_tilde] ->
  inlineTagsOnly open = true -> inlineTagsOnly close = true ->
  delimited (n :: d) t = Some (g, rest) -> inlineTagsOnly t = true ->
  inlineTagsOnly (open ++ g ++ close) = true /\ inlineTagsOnly rest = true.
Proof.
  intros Hn Ho Hc Hm Ht.
  apply delimited_sound in Hm. destruct Hm as (o & cl & -> & _ & Hcl & _).
  apply inlineTagsOnly_suffix in Ht.
  destruct cl as [| x cl]; [discriminate |]. injection Hcl as Hx _.
  destruct (@delimiter_no_letter n x) as [H1 H2]; auto.
  { simpl in *. tauto. }
  split.
  - apply inlineTagsOnly_app; [exact Ho |]. apply inlineTagsOnly_app; [| exact Hc].
    cbn [app] in Ht. apply (inlineTagsOnly_cut _ _ _ Ht H1 H2).
  - apply inlineTagsOnly_suffix in Ht. cbn [app] in Ht.
    change (x :: cl ++ rest) with ((x :: cl) ++ rest) in Ht.
    now apply inlineTagsOnly_suffix in Ht.
Qed.

Lemma first_not_trigger (T : unit16 -> bool) :
  (forall c, T c = true ->
     exists n, In n [c_star; c_underscore; c_tilde; c_backtick; c_lbracket]
               /\ has_code n c = true) ->
  (forall c, is_inline_letter c = true -> T c = false)
  /\ (forall c, has_code c_slash c = true -> T c = false).
Proof.
  intros HT. split; intros c Hc; destruct (T c) eqn:E; auto;
    destruct (HT _ E) as (n & Hn & Hcn);
    rewrite (@letter_no_delimiter c n Hn) in Hcn; auto; discriminate.
Qed.

Lemma escapeHtml_no_lt s : Forall (fun c => has_code c_lt c = false) (escapeHtml s).
Proof.
  rewrite escapeHtml_units. induction s as [| c s IH]; [constructor |].
  cbn [flat_map]. apply Forall_app. split; [| exact IH].
  unfold escapeUnit.
  destruct (has_code c_amp c); [apply Forall_false_forallb; reflexivity |].
  destruct (has_code c_lt c) eqn:Hl; [apply Forall_false_forallb; reflexivity |].
  destruct (has_code c_gt c); [apply Forall_false_forallb; reflexivity |].
  now constructor.
Qed.

(** In the result of [applyInlineFormatting] every [<] opens or closes an
    inline element. *)
Lemma applyInlineFormatting_tags line :
  inlineTagsOnly (applyInlineFormatting line) = true.
Proof.
  unfold applyInlineFormatting.
  pose proof (inlineTagsOnly_no_lt (escapeHtml_no_lt line)) as H0.
  assert (TS : forall c, has_code c_star c || has_code c_underscore c = true ->
               exists n, In n [c_star; c_underscore; c_tilde; c_backtick; c_lbracket]
                         /\ has_code n c = true).
  { intros c H. apply orb_true_iff in H. destruct H as [H | H].
    - exists c_star. simpl. auto.
    - exists c_underscore. simpl. auto. }
  assert (T1 : forall n, In n [c_star; c_underscore; c_tilde; c_backtick; c_lbracket] ->
               forall c, has_code n c = true ->
               exists n, In n [c_star; c_underscore; c_tilde; c_backtick; c_lbracket]
                         /\ has_code n c = true) by eauto.
  destruct (first_not_trigger _ TS) as [S1 S2].
  (* bold *)
  assert (H1 : inlineTagsOnly (replace_global strongMatch strongHtml (escapeHtml line))
               = true).
  { apply (@replace_global_tags _ strongMatch strongHtml _ strongMatch_first S1 S2);
      [| exact H0].
    intros t g rest Hm Ht. unfold strongMatch, alt in Hm.
    destruct (delimited [c_star; c_star] t) as [[g' r'] |] eqn:E.
    - injection Hm as <- <-.
      apply (@delimited_tags c_star [c_star] strong_open strong_close t g' r'); auto.
      simpl. auto.
    - apply (@delimited_tags c_underscore [c_underscore] strong_open strong_close
               t g rest); auto.
      simpl. auto. }
  (* italic *)
  assert (H2 : inlineTagsOnly
                 (replace_global emMatch emHtml
                    (replace_global strongMatch strongHtml (escapeHtml line))) = true).
  { apply (@replace_global_tags _ emMatch emHtml _ emMatch_first S1 S2); [| exact H1].
    intros t g rest Hm Ht. unfold emMatch, alt in Hm.
    destruct (delimited [c_star] t) as [[g' r'] |] eqn:E.
    - injection Hm as <- <-.
      apply (@delimited_tags c_star [] (lit "<em>") (lit "</em>") t g' r'); auto.
      simpl. auto.
    - apply (@delimited_tags c_underscore [] (lit "<em>") (lit "</em>") t g rest); auto.
      simpl. auto. }
  (* strikethrough *)
  destruct (first_not_trigger _ (T1 c_tilde ltac:(simpl; tauto))) as [D1 D2].
  assert (H3 : inlineTagsOnly
                 (replace_global delMatch delHtml
                    (replace_global emMatch emHtml
                       (replace_global strongMatch strongHtml (escapeHtml line))))
               = true).
  { apply (@replace_global_tags _ delMatch delHtml _ delMatch_first D1 D2); [| exact H2].
    intros t g rest Hm Ht.
    apply (@delimited_tags c_tilde [c_tilde] (lit "<del>") (lit "</del>") t g rest); auto.
    simpl. auto. }
  (* code spans *)
  destruct (first_not_trigger _ (T1 c_backtick ltac:(simpl; tauto))) as [C1 C2].
  assert (H4 : inlineTagsOnly
                 (replace_global codeMatch codeHtml
                    (replace_global delMatch delHtml
                       (replace_global emMatch emHtml
                          (replace_global strongMatch strongHtml (escapeHtml line)))))
               = true).
  { apply (@replace_global_tags _ codeMatch codeHtml _ codeMatch_first C1 C2);
      [| exact H3].
    intros t g rest Hm Ht. unfold codeMatch in Hm.
    apply exact_sound in Hm. destruct Hm as (o & s1 & -> & _ & Hm).
    apply lazy_sound in Hm. destruct Hm as (s2 & -> & Hm & _).
    apply exact_sound in Hm. destruct Hm as (cl & s3 & -> & Hcl & Hm).
    injection Hm as <-.
    destruct cl as [| x cl]; [discriminate |]. injection Hcl as Hx _.
    destruct (@delimiter_no_letter c_backtick x) as [L1 L2]; auto.
    { simpl. tauto. }
    apply inlineTagsOnly_suffix in Ht. split.
    - unfold codeHtml. apply inlineTagsOnly_app; [reflexivity |].
      apply inlineTagsOnly_app; [| reflexivity].
      cbn [app] in Ht. apply (inlineTagsOnly_cut _ _ _ Ht L1 L2).
    - apply inlineTagsOnly_suffix in Ht.
      now apply inlineTagsOnly_suffix in Ht. }
  (* links *)
  destruct (first_not_trigger _ (T1 c_lbracket ltac:(simpl; tauto))) as [L1 L2].
  apply (@replace_global_tags _ linkMatch linkHtml _ linkMatch_first L1 L2); [| exact H4].
  intros t [label url] rest Hm Ht. unfold linkMatch in Hm.
  destruct (exact _ _ t) as [[l [u r]] |] eqn:E; [| discriminate].
  injection Hm as <- <- <-.
  apply exact_sound in E. destruct E as (o & s1 & -> & _ & E).
  apply lazy_sound in E. destruct E as (s2 & -> & E & _).
  apply exact_sound in E. destruct E as (mid & s3 & -> & Hmid & E).
  apply lazy_sound in E. destruct E as (s4 & -> & E & _).
  apply exact_sound in E. destruct E as (e & s5 & -> & He & E).
  injection E as <-.
  destruct mid as [| x mid]; [discriminate |]. injection Hmid as Hx _.
  destruct e as [| y e]; [discriminate |]. injection He as Hy _.
  destruct (@delimiter_no_letter c_rbracket x) as [X1 X2]; auto.
  { simpl. tauto. }
  destruct (@delimiter_no_letter c_rparen y) as [Y1 Y2]; auto.
  { simpl. tauto. }
  apply inlineTagsOnly_suffix in Ht.
  pose proof Ht as Hl. cbn [app] in Hl. apply (fun H => inlineTagsOnly_cut _ _ _ H X1 X2) in Hl.
  apply inlineTagsOnly_suffix in Ht.
  change ((x :: mid) ++ u ++ (y :: e) ++ s5) with ((x :: mid) ++ (u ++ (y :: e) ++ s5)) in Ht.
  apply inlineTagsOnly_suffix in Ht.
  pose proof Ht as Hu. cbn [app] in Hu. apply (fun H => inlineTagsOnly_cut _ _ _ H Y1 Y2) in Hu.
  apply inlineTagsOnly_suffix in Ht. apply inlineTagsOnly_suffix in Ht.
  split; [| exact Ht].
  unfold linkHtml. cbn [fst snd].
  repeat (apply inlineTagsOnly_app); auto; reflexivity.
Qed.

Lemma join_tags ls :
  Forall (fun l => inlineTagsOnly l = true) ls -> inlineTagsOnly (join ls) = true.
Proof.
  induction 1 as [| l ls Hl Hls IH]; [reflexivity |].
  destruct ls as [| l' ls]; [exact Hl |].
  change (join (l :: l' :: ls)) with (l ++ newline ++ join (l' :: ls)).
  apply inlineTagsOnly_app; [exact Hl |]. apply inlineTagsOnly_app; [reflexivity | exact IH].
Qed.

Lemma quoteLines_tags rest :
  Forall (fun l => inlineTagsOnly l = true) (fst (quoteLines rest)).
Proof.
  induction rest as [| l rest IH]; simpl; [constructor |].
  destruct (startsWith c_gt l); [| constructor].
  destruct (quoteLines rest) as [q r]. simpl in *.
  constructor; [apply applyInlineFormatting_tags | exact IH].
Qed.

(** A heading has one, two or three [#]. *)
Lemma headingMatch_level line level content :
  headingMatch line = Some (level, content) -> 1 <= level <= 3.
Proof.
  unfold headingMatch.
  destruct (greedy_upto _ _ _ _ line) as [[g [ws [c r]]] |] eqn:H; [| discriminate].
  intros E. injection E as <- _.
  apply greedy_upto_sound in H. destruct H as (s' & _ & _ & _ & Hlen). lia.
Qed.

Lemma closeListIfNeeded_tidy h il :
  Forall pieceTidy h -> Forall pieceTidy (closeListIfNeeded h il).
Proof.
  intros H. destruct il as [k |]; simpl; [| exact H].
  apply Forall_app. split; [exact H |]. constructor; [exact I | constructor].
Qed.

(** Every turn of the loop appends pieces whose content holds inline elements
    only. *)
Lemma iteration_tidy line rest h il :
  Forall pieceTidy h -> Forall pieceTidy (html (iteration line rest h il)).
Proof.
  intros H. pose proof (closeListIfNeeded_tidy il H) as Hc.
  pose proof (quoteLines_tags rest) as Hq.
  assert (Hopen : forall k, Forall pieceTidy (closeListIfNeeded h il ++ [ListOpen k])).
  { intros k. apply Forall_app. split; [exact Hc | constructor; [exact I | constructor]]. }
  iteration_cases line rest; try exact Hc;
    try (apply Forall_app; split; [try exact Hc | constructor; [| constructor]]).
  - split; [| apply applyInlineFormatting_tags].
    eapply headingMatch_level; eassumption.
  - cbn [pieceTidy]. apply join_tags. simpl in Hq.
    constructor; [apply applyInlineFormatting_tags | exact Hq].
  - exact I.
  - destruct il as [[|] |]; auto.
  - apply applyInlineFormatting_tags.
  - destruct il as [[|] |]; auto.
  - apply applyInlineFormatting_tags.
  - apply applyInlineFormatting_tags.
Qed.

(** No tag of a block stands where the name of an inline element starts. *)
Lemma tagAfter_inline t r : inlineTagStart t = true -> tagAfter (t ++ r) = None.
Proof.
  assert (L : forall y, is_inline_letter y = true ->
              exists o, In y [U16 97 o; U16 99 o; U16 100 o; U16 101 o; U16 115 o]).
  { intros [n o] Hy. exists o. unfold is_inline_letter, has_code in Hy. cbn [code] in Hy.
    repeat (apply orb_true_iff in Hy; destruct Hy as [Hy | Hy]);
      apply N.eqb_eq in Hy; subst n; simpl; tauto. }
  destruct t as [| y t]; [discriminate |]. cbn [inlineTagStart].
  intros H. apply orb_true_iff in H. destruct H as [H | H].
  - destruct (L _ H) as (o & Hy). simpl in Hy.
    repeat (destruct Hy as [<- | Hy]; [vm_compute; reflexivity |]). contradiction.
  - apply andb_true_iff in H. destruct H as [Hs Hz].
    destruct t as [| z t]; [discriminate |].
    destruct y as [ny oy]. apply N.eqb_eq in Hs. cbn [code] in Hs. subst ny.
    destruct (L _ Hz) as (o & Hy). simpl in Hy.
    repeat (destruct Hy as [<- | Hy]; [vm_compute; reflexivity |]). contradiction.
Qed.

(** Text that holds inline elements only has no tag of a block. *)
Lemma tags_content c r : inlineTagsOnly c = true -> tags (c ++ r) = tags r.
Proof.
  induction c as [| x c IH]; [reflexivity |]. cbn [app inlineTagsOnly tags].
  intros H. apply andb_true_iff in H. destruct H as [H1 H2].
  rewrite (IH H2). destruct (has_code c_lt x); [| reflexivity].
  now rewrite (tagAfter_inline _ r H1).
Qed.

(** The text of a piece starts with its tag and has no other tag of a
    block. *)
Lemma tags_markup p r : pieceTidy p -> tags (markup p ++ r) = tagOf p :: tags r.
Proof.
  destruct p as [k | k | c | level c | q | | c]; cbn [pieceTidy tagOf markup].
  - intros _. destruct k; vm_compute; reflexivity.
  - intros _. destruct k; vm_compute; reflexivity.
  - intros H. rewrite <- !app_assoc.
    transitivity (TagItem :: tags (c ++ lit "</li>" ++ r)); [reflexivity |].
    rewrite (tags_content _ _ H). reflexivity.
  - intros [Hl H]. rewrite <- !app_assoc.
    assert (E : level = 1 \/ level = 2 \/ level = 3) by lia.
    destruct E as [-> | [-> | ->]].
    + transitivity (TagBlock :: tags (c ++ lit "</h1>" ++ r)); [reflexivity |].
      rewrite (tags_content _ _ H). reflexivity.
    + transitivity (TagBlock :: tags (c ++ lit "</h2>" ++ r)); [reflexivity |].
      rewrite (tags_content _ _ H). reflexivity.
    + transitivity (TagBlock :: tags (c ++ lit "</h3>" ++ r)); [reflexivity |].
      rewrite (tags_content _ _ H). reflexivity.
  - intros H. rewrite <- !app_assoc. generalize dependent (join q). intros c H.
    transitivity (TagBlock :: tags (c ++ lit "</blockquote>" ++ r)); [reflexivity |].
    rewrite (tags_content _ _ H). reflexivity.
  - intros _. vm_compute. reflexivity.
  - intros H. rewrite <- !app_assoc.
    transitivity (TagBlock :: tags (c ++ lit "</p>" ++ r)); [reflexivity |].
    rewrite (tags_content _ _ H). reflexivity.
Qed.

Lemma tags_htmlString ps :
  Forall pieceTidy ps -> tags (htmlString ps) = map tagOf ps.
Proof.
  induction 1 as [| p ps Hp Hps IH]; [reflexivity |].
  change (htmlString (p :: ps)) with (markup p ++ htmlString ps).
  rewrite (tags_markup _ _ Hp), IH. reflexivity.
Qed.

Lemma scanTags_pieces ps : forall open, scanTags open (map tagOf ps) = scan open ps.
Proof.
  induction ps as [| p ps IH]; intros open; [reflexivity |].
  destruct p, open as [[|] |]; cbn [map tagOf scanTags scan]; try rewrite IH;
    reflexivity.
Qed.

(** C6: for every text, the result keeps the list discipline, in its pieces
    and in the characters of the string returned.  The tags of the blocks
    read from the returned string are those of the pieces, one for one: an
    opening tag of a list, [<ul ] or [<ol ], is followed by items [<li>] only
    and then by the closing tag of its own kind, [</ul>] or [</ol>]; this
    closing tag stands before the next heading, blockquote, rule, paragraph
    or list of the other kind, and before the end; no item and no closing tag
    of a list stands anywhere else. *)
Theorem lists_are_closed :
  forall text : str, exists ps : list piece,
    renderPieces text = Some ps
    /\ renderSimpleMarkdown text = Some (htmlString ps)
    /\ wellBracketed ps = true
    /\ tags (htmlString ps) = map tagOf ps
    /\ tagsWellBracketed (htmlString ps) = true.
Proof.
  intros text. destruct (renderPieces_total text) as [ps Hps].
  exists ps. split; [exact Hps |]. split.
  { rewrite renderSimpleMarkdown_pieces, Hps. reflexivity. }
  unfold renderPieces in Hps.
  assert (Hw : wellBracketed ps = true).
  { destruct (@loop_invariant (fun h il => scan None h = Some il) iteration_scan
                _ (State (split text) [] None) _ eq_refl Hps)
      as (h & il & Hi & ->).
    unfold wellBracketed. now rewrite (@scan_close _ _ Hi). }
  assert (Ht : tags (htmlString ps) = map tagOf ps).
  { destruct (@loop_invariant (fun h _ => Forall pieceTidy h)
                (fun line rest h il => @iteration_tidy line rest h il)
                _ (State (split text) [] None) _ (Forall_nil _) Hps)
      as (h & il & Hi & ->).
    apply tags_htmlString, closeListIfNeeded_tidy, Hi. }
  split; [exact Hw |]. split; [exact Ht |].
  unfold tagsWellBracketed. rewrite Ht, scanTags_pieces. exact Hw.
Qed.

(** * Further properties of the renderer *)

(** ** Blank lines *)

Lemma blank_not_item line :
  Forall (fun c => is_space c = true) line -> ulMatch line = None /\ olMatch line = None.
Proof.
  intros Hb. split.
  - destruct (ulMatch line) as [c |] eqn:H; [| reflexivity].
    apply ulMatch_shape in H. destruct H as (ws & b & sp & r & -> & _ & Hbul & _).
    apply Forall_app in Hb. destruct Hb as [_ Hb]. inversion Hb as [| ? ? Hs _]; subst.
    apply bullet_classes in Hbul. destruct Hbul as (_ & _ & Hn & _). congruence.
  - destruct (olMatch line) as [c |] eqn:H; [| reflexivity].
    apply olMatch_shape in H. destruct H as (ws & d & r & -> & _ & Hd).
    apply Forall_app in Hb. destruct Hb as [_ Hb]. inversion Hb as [| ? ? Hs _]; subst.
    apply digit_classes in Hd. destruct Hd as (_ & _ & Hn & _). congruence.
Qed.

(** A blank line closes the open list and appends nothing else. *)
Lemma iteration_blank line rest h il :
  isBlank line = true ->
  iteration line rest h il = State rest (closeListIfNeeded h il) None.
Proof.
  intros Hb. pose proof Hb as Hs. apply isBlank_spec in Hs.
  destruct (blank_not_item Hs) as [Hu Ho].
  unfold iteration. rewrite Hu, Ho, Hb. cbn [negb].
  destruct line as [| c line].
  - reflexivity.
  - inversion Hs as [| ? ? Hc _]; subst. apply space_classes in Hc.
    destruct Hc as (H1 & H2 & H3 & _).
    now rewrite headingMatch_first, blockquoteMatch_first, hrMatch_first.
Qed.

Lemma split_Forall (P : unit16 -> Prop) s :
  Forall P s -> Forall (Forall P) (split s).
Proof.
  induction 1 as [| c s Hc Hs IH]; simpl.
  - repeat constructor.
  - destruct (has_code c_nl c).
    + constructor; [constructor | exact IH].
    + destruct (split s) as [| l ls]; [repeat constructor; exact Hc |].
      inversion IH; subst. constructor; [constructor |]; assumption.
Qed.

Lemma loop_blank ls : forall fuel,
  Forall (fun l => isBlank l = true) ls -> length ls <= fuel ->
  loop fuel (State ls [] None) = Some [].
Proof.
  induction ls as [| l ls IH]; intros fuel Hb Hf.
  - destruct fuel; reflexivity.
  - destruct fuel as [| fuel]; [simpl in Hf; lia |].
    inversion Hb; subst. cbn [loop pending html inList].
    rewrite iteration_blank by assumption. apply IH; [assumption | simpl in Hf; lia].
Qed.

(** X1: a text made of white space only (spaces, tabs, line breaks, ...)
    renders to the empty string. *)
Theorem white_space_renders_empty :
  forall text : str,
    Forall (fun c => is_space c = true) text -> renderSimpleMarkdown text = Some [].
Proof.
  intros text H. rewrite renderSimpleMarkdown_pieces. unfold renderPieces.
  rewrite loop_blank; [reflexivity | | lia].
  apply split_Forall in H. eapply Forall_impl; [| exact H].
  intros l Hl. now apply isBlank_spec.
Qed.

Lemma white_space_renders_empty_witness :
  renderSimpleMarkdown (textOf ["  "; ""; " "]%string) = Some [].
Proof.
  apply white_space_renders_empty. repeat constructor.
Defined.

(** ** Lists *)

(** X2: two items of the same kind that follow each other stand in one
    list: the second turn appends its item and nothing else. *)
Theorem same_kind_items_share_a_list :
  forall (l1 l2 c1 c2 : str) (rest : list str) (h : list piece) (il : option list_kind)
         (fuel : nat),
    (ulMatch l1 = Some c1 -> ulMatch l2 = Some c2 ->
     loop (S (S fuel)) (State (l1 :: l2 :: rest) h il)
     = loop fuel
         (State rest
            (listStart UL h il
             ++ [ListItem (applyInlineFormatting c1);
                 ListItem (applyInlineFormatting c2)])
            (Some UL)))
    /\ (olMatch l1 = Some c1 -> olMatch l2 = Some c2 ->
        loop (S (S fuel)) (State (l1 :: l2 :: rest) h il)
        = loop fuel
            (State rest
               (listStart OL h il
                ++ [ListItem (applyInlineFormatting c1);
                    ListItem (applyInlineFormatting c2)])
               (Some OL))).
Proof.
  intros l1 l2 c1 c2 rest h il fuel. split; intros H1 H2.
  - cbn [loop pending html inList].
    rewrite (@iteration_ul _ _ _ _ _ H1). cbn [pending html inList].
    rewrite (@iteration_ul _ _ _ _ _ H2). cbn [listStart].
    now rewrite <- !app_assoc.
  - cbn [loop pending html inList].
    rewrite (@iteration_ol _ _ _ _ _ H1). cbn [pending html inList].
    rewrite (@iteration_ol _ _ _ _ _ H2). cbn [listStart].
    now rewrite <- !app_assoc.
Qed.

Lemma same_kind_items_share_a_list_witness :
  loop 2 (State [input "- a"; input "* b"] [] None)
  = Some [ListOpen UL; ListItem (input "a"); ListItem (input "b"); ListClose UL]
  /\ loop 2 (State [input "1. a"; input "7. b"] [] None)
     = Some [ListOpen OL; ListItem (input "a"); ListItem (input "b"); ListClose OL].
Proof.
  split.
  - refine (eq_trans
              (proj1 (@same_kind_items_share_a_list (input "- a") (input "* b") (input "a")
                        (input "b") [] [] None 0) _ _) _); reflexivity.
  - refine (eq_trans
              (proj2 (@same_kind_items_share_a_list (input "1. a") (input "7. b")
                        (input "a") (input "b") [] [] None 0) _ _) _); reflexivity.
Defined.

(** X3: a blank line between two items of the same kind ends the list: the
    second item opens a new list of its own. *)
Theorem blank_line_splits_a_list :
  forall (l1 blank l2 c1 c2 : str) (rest : list str) (h : list piece)
         (il : option list_kind) (fuel : nat),
    isBlank blank = true ->
    (ulMatch l1 = Some c1 -> ulMatch l2 = Some c2 ->
     loop (S (S (S fuel))) (State (l1 :: blank :: l2 :: rest) h il)
     = loop fuel
         (State rest
            (listStart UL h il
             ++ [ListItem (applyInlineFormatting c1); ListClose UL;
                 ListOpen UL; ListItem (applyInlineFormatting c2)])
            (Some UL)))
    /\ (olMatch l1 = Some c1 -> olMatch l2 = Some c2 ->
        loop (S (S (S fuel))) (State (l1 :: blank :: l2 :: rest) h il)
        = loop fuel
            (State rest
               (listStart OL h il
                ++ [ListItem (applyInlineFormatting c1); ListClose OL;
                    ListOpen OL; ListItem (applyInlineFormatting c2)])
               (Some OL))).
Proof.
  intros l1 blank l2 c1 c2 rest h il fuel Hb. split; intros H1 H2.
  - cbn [loop pending html inList].
    rewrite (@iteration_ul _ _ _ _ _ H1). cbn [pending html inList].
    rewrite iteration_blank by exact Hb. cbn [pending html inList].
    rewrite (@iteration_ul _ _ _ _ _ H2). cbn [listStart closeListIfNeeded].
    now rewrite <- !app_assoc.
  - cbn [loop pending html inList].
    rewrite (@iteration_ol _ _ _ _ _ H1). cbn [pending html inList].
    rewrite iteration_blank by exact Hb. cbn [pending html inList].
    rewrite (@iteration_ol _ _ _ _ _ H2). cbn [listStart closeListIfNeeded].
    now rewrite <- !app_assoc.
Qed.

Lemma blank_line_splits_a_list_witness :
  renderPieces (textOf ["- a"; " "; "- b"]%string)
  = Some [ListOpen UL; ListItem (input "a"); ListClose UL;
          ListOpen UL; ListItem (input "b"); ListClose UL].
Proof.
  refine (eq_trans
            (proj1 (@blank_line_splits_a_list (input "- a") (input " ") (input "- b")
                      (input "a") (input "b") [] [] None 0 _) _ _) _); reflexivity.
Defined.

(** ** Paragraphs and blockquotes *)

Lemma paragraphLines_run rest :
  exists p r,
    paragraphLines rest = (p, r) /\ rest = p ++ r
    /\ Forall (fun l => isBlank l = false /\ startsBlock l = false) p
    /\ runEnds (fun l => isBlank l || startsBlock l) r.
Proof.
  induction rest as [| l rest IH]; simpl.
  - exists [], []. repeat split; constructor.
  - destruct (isBlank l || startsBlock l) eqn:E.
    + exists [], (l :: rest). repeat split; [constructor | exact E].
    + destruct IH as (p & r & Hp & -> & Hall & Hr). rewrite Hp.
      exists (l :: p), r. repeat split; auto.
      apply orb_false_iff in E. now constructor.
Qed.

Lemma quoteLines_run rest :
  exists q r,
    quoteLines rest
    = (map (fun l => applyInlineFormatting (trim (substring1 l))) q, r)
    /\ rest = q ++ r
    /\ Forall (fun l => startsWith c_gt l = true) q
    /\ runEnds (fun l => negb (startsWith c_gt l)) r.
Proof.
  induction rest as [| l rest IH]; simpl.
  - exists [], []. repeat split; constructor.
  - destruct (startsWith c_gt l) eqn:E.
    + destruct IH as (q & r & Hq & -> & Hall & Hr). rewrite Hq.
      exists (l :: q), r. repeat split; auto.
    + exists [], (l :: rest). repeat split; [constructor | simpl; now rewrite E].
Qed.





(** ** Prose *)

Lemma prose_starts_no_block line :
  prose line ->
  headingMatch line = None /\ blockquoteMatch line = None /\ hrMatch line = false
  /\ ulMatch line = None /\ olMatch line = None /\ isBlank line = false
  /\ startsBlock line = false.
Proof.
  intros (Hp & _ & Hc). destruct line as [| c line]; [contradiction |].
  destruct Hc as (Hs & Hh & Hr & Hd).
  inversion Hp as [| ? ? Hsp _]; subst. apply special_false in Hsp.
  destruct Hsp as (_ & _ & Hg & _).
  assert (Hb : is_bullet c = false).
  { unfold is_rule_char in Hr. unfold is_bullet.
    apply orb_false_iff in Hr. destruct Hr as [Hr _]. exact Hr. }
  assert (H1 : headingMatch (c :: line) = None) by now apply headingMatch_first.
  assert (H2 : blockquoteMatch (c :: line) = None) by now apply blockquoteMatch_first.
  assert (H3 : hrMatch (c :: line) = false) by now apply hrMatch_first.
  assert (H4 : ulMatch (c :: line) = None) by now apply ulMatch_first.
  assert (H5 : olMatch (c :: line) = None) by now apply olMatch_first.
  repeat split; auto.
  - now apply isBlank_first.
  - rewrite startsBlock_patterns, H1, H2, H4, H5. unfold ruleStart. simpl.
    now rewrite Hr.
Qed.

Lemma split_unlines nl ls :
  has_code c_nl nl = true -> ls <> [] ->
  Forall (Forall (fun c => has_code c_nl c = false)) ls ->
  split (unlines nl ls) = ls.
Proof.
  intros Hn Hne Hls. induction Hls as [| l ls Hl Hls IH]; [congruence |].
  destruct ls as [| l' ls].
  - simpl. now apply split_one.
  - change (unlines nl (l :: l' :: ls)) with (l ++ nl :: unlines nl (l' :: ls)).
    rewrite split_first by assumption. f_equal. apply IH. discriminate.
Qed.

Lemma paragraphLines_prose rest :
  Forall prose rest -> paragraphLines rest = (rest, []).
Proof.
  induction 1 as [| l rest Hl Hrest IH]; [reflexivity |].
  simpl. apply prose_starts_no_block in Hl.
  destruct Hl as (_ & _ & _ & _ & _ & Hb & Hs).
  now rewrite Hb, Hs, IH.
Qed.

Lemma newline_plain : plain newline.
Proof. apply Forall_false_forallb. reflexivity. Qed.

Lemma join_plain ls : Forall plain ls -> plain (join ls).
Proof.
  induction 1 as [| l ls Hl Hls IH]; [constructor |].
  destruct ls as [| l' ls]; [exact Hl |].
  change (join (l :: l' :: ls)) with (l ++ newline ++ join (l' :: ls)).
  apply Forall_app. split; [exact Hl |].
  apply Forall_app. split; [apply newline_plain | exact IH].
Qed.

(** X6: a text of one or more lines, joined by line feeds, in which every
    line is not empty, has none of the characters [&], [<], [>], [*], [_],
    [~], backtick and [[] and no line feed, and starts with a character that
    is no white space, no digit and none of [#], [-], [*], [_], renders as
    one paragraph element that holds the lines unchanged, with the line breaks
    between them. *)
Theorem prose_renders_as_one_paragraph :
  forall (lines : list str) (nl : unit16),
    lines <> [] -> Forall prose lines -> has_code c_nl nl = true ->
    renderSimpleMarkdown (unlines nl lines)
    = Some (tpl "<p class='my-2 leading-relaxed'>" ++ join lines ++ lit "</p>").
Proof.
  intros lines nl Hne Hp Hn.
  rewrite renderSimpleMarkdown_pieces. unfold renderPieces.
  rewrite split_unlines; auto.
  2: { eapply Forall_impl; [| exact Hp]. now intros l (_ & Hl & _). }
  destruct lines as [| line rest]; [congruence |].
  inversion Hp as [| ? ? Hline Hrest]; subst.
  apply prose_starts_no_block in Hline.
  destruct Hline as (H1 & H2 & H3 & H4 & H5 & H6 & _).
  cbn [length loop pending html inList]. unfold iteration.
  rewrite H1, H2, H3, H4, H5, H6, paragraphLines_prose by assumption.
  cbn [negb closeListIfNeeded app].
  rewrite applyInlineFormatting_all_plain.
  2: { apply join_plain. eapply Forall_impl; [| exact Hp]. now intros l (Hl & _). }
  destruct (length rest); cbn; now rewrite app_nil_r.
Qed.

Lemma prose_renders_as_one_paragraph_witness :
  renderSimpleMarkdown (textOf ["Hello there,"; "how are you?"]%string)
  = Some (tpl "<p class='my-2 leading-relaxed'>" ++ input "Hello there,"
          ++ newline ++ input "how are you?" ++ lit "</p>").
Proof.
  refine (@prose_renders_as_one_paragraph
            [input "Hello there,"; input "how are you?"] (U16 c_nl Input) _ _ _).
  - discriminate.
  - repeat constructor; apply Forall_false_forallb; reflexivity.
  - reflexivity.
Defined.

(** ** The inline rules on plain content *)

Lemma exact_prefix (R : Type) (k : str -> option R) d : forall o t,
  codes o = d -> exact d k (o ++ t) = k t.
Proof.
  induction d as [| n d IH]; intros [| c o] t H; try discriminate; [reflexivity |].
  injection H as Hc Ho. simpl. unfold has_code. rewrite Hc, N.eqb_refl. now apply IH.
Qed.

(** A delimiter, content without the first character of the delimiter and
    without line terminators, and the delimiter again. *)
Lemma delimited_match n d o c cl X :
  codes o = n :: d -> codes cl = n :: d ->
  Forall (fun x => is_dot x = true) c -> Forall (fun x => has_code n x = false) c ->
  delimited (n :: d) (o ++ c ++ cl ++ X) = Some (c, X).
Proof.
  intros Ho Hcl Hdot Hn. unfold delimited. rewrite exact_prefix by exact Ho.
  apply lazy_first; auto.
  - lia.
  - now rewrite exact_prefix.
  - intros a b -> Hb. destruct b as [| x b]; [congruence |].
    apply Forall_app in Hn. destruct Hn as [_ Hn]. inversion Hn as [| ? ? Hx _]; subst.
    simpl. now rewrite Hx.
Qed.

Lemma plain_quiet a : plain a -> quiet a.
Proof.
  apply Forall_impl. intros c H. apply special_false in H.
  destruct H as (_ & _ & _ & H1 & H2 & H3 & H4 & H5).
  unfold delimiterChar. now rewrite H1, H2, H3, H4, H5.
Qed.

Lemma strong_quiet a b : quiet a ->
  replace_global strongMatch strongHtml (a ++ b)
  = a ++ replace_global strongMatch strongHtml b.
Proof.
  intros Ha. apply (@replace_global_skip _ _ _ _ strongMatch_first).
  now apply quiet_triggers in Ha.
Qed.

Lemma em_quiet a b : quiet a ->
  replace_global emMatch emHtml (a ++ b) = a ++ replace_global emMatch emHtml b.
Proof.
  intros Ha. apply (@replace_global_skip _ _ _ _ emMatch_first).
  now apply quiet_triggers in Ha.
Qed.

Lemma del_quiet a b : quiet a ->
  replace_global delMatch delHtml (a ++ b) = a ++ replace_global delMatch delHtml b.
Proof.
  intros Ha. apply (@replace_global_skip _ _ _ _ delMatch_first).
  now apply quiet_triggers in Ha.
Qed.

Lemma code_quiet a b : quiet a ->
  replace_global codeMatch codeHtml (a ++ b) = a ++ replace_global codeMatch codeHtml b.
Proof.
  intros Ha. apply (@replace_global_skip _ _ _ _ codeMatch_first).
  now apply quiet_triggers in Ha.
Qed.

Lemma link_quiet a b : quiet a ->
  replace_global linkMatch linkHtml (a ++ b) = a ++ replace_global linkMatch linkHtml b.
Proof.
  intros Ha. apply (@replace_global_skip _ _ _ _ linkMatch_first).
  now apply quiet_triggers in Ha.
Qed.

Lemma escapeHtml_of_plain a : plain a -> escapeHtml a = a.
Proof.
  intros Ha. rewrite <- (app_nil_r a) at 1. rewrite escapeHtml_plain by exact Ha.
  change (escapeHtml []) with (@nil unit16). apply app_nil_r.
Qed.

Lemma quiet_app a b : quiet a -> quiet b -> quiet (a ++ b).
Proof. intros Ha Hb. apply Forall_app. now split. Qed.

Lemma strong_tags_quiet : quiet strong_open /\ quiet strong_close.
Proof. split; apply Forall_false_forallb; reflexivity. Qed.

Lemma del_tags_quiet : quiet (lit "<del>") /\ quiet (lit "</del>").
Proof. split; apply Forall_false_forallb; reflexivity. Qed.

Lemma em_tags_quiet : quiet (lit "<em>") /\ quiet (lit "</em>").
Proof. split; apply Forall_false_forallb; reflexivity. Qed.

(** A delimiter of one or two characters, all of code [n]. *)
Lemma delimiter_chars d n k :
  codes d = repeat n k -> Forall (fun c => code c = n) d.
Proof.
  revert d. induction k as [| k IH]; intros [| c d] H; simpl in H; try discriminate.
  - constructor.
  - injection H as Hc Hd. constructor; auto.
Qed.

Lemma chars_not T n d :
  (forall c, code c = n -> T c = false) ->
  Forall (fun c => code c = n) d -> Forall (fun c : unit16 => T c = false) d.
Proof. intros H. apply Forall_impl. exact H. Qed.

(** X8: bold.  Plain text, then [**] (or [__]), content without special
    characters and line terminators, then the same delimiter: the content
    comes out unchanged inside one [strong] element, whatever follows. *)
Theorem bold_of_plain_text :
  forall (p d1 c d2 s : str) (n : N),
    n = c_star \/ n = c_underscore ->
    codes d1 = [n; n] -> codes d2 = [n; n] ->
    plain p -> plain c -> Forall (fun x => is_dot x = true) c ->
    applyInlineFormatting (p ++ d1 ++ c ++ d2 ++ s)
    = p ++ strong_open ++ c ++ strong_close ++ applyInlineFormatting s.
Proof.
  intros p d1 c d2 s n Hn H1 H2 Hp Hc Hdot.
  assert (Hd : forall d, codes d = [n; n] -> Forall (fun x => delimiterChar x = true) d).
  { intros d Hd. apply (@delimiter_chars d n 2) in Hd.
    eapply Forall_impl; [| exact Hd]. intros x Hx.
    unfold delimiterChar, has_code. rewrite Hx. destruct Hn; subst n; reflexivity. }
  rewrite !applyInlineFormatting_stages, !escapeHtml_app.
  rewrite (escapeHtml_of_plain Hp), (escapeHtml_of_plain Hc).
  rewrite (escapeHtml_keeps (Hd _ H1)), (escapeHtml_keeps (Hd _ H2)).
  unfold inlineMarkup. rewrite strong_plain by exact Hp.
  assert (Hm : strongMatch (d1 ++ c ++ d2 ++ escapeHtml s) = Some (c, escapeHtml s)).
  { assert (Hcn : Forall (fun x => has_code n x = false) c).
    { eapply Forall_impl; [| exact Hc]. intros x Hx. apply special_false in Hx.
      destruct Hx as (_ & _ & _ & Hs & Hu & _). destruct Hn; subst n; assumption. }
    unfold strongMatch, alt. destruct Hn; subst n.
    - now rewrite (@delimited_match c_star [c_star] d1 c d2).
    - destruct d1 as [| x d1]; [discriminate |]. injection H1 as Hx H1.
      cbn [app]. rewrite delimited_first by (unfold has_code; now rewrite Hx).
      apply (@delimited_match c_underscore [c_underscore] (x :: d1) c d2); auto.
      simpl. now rewrite Hx, H1. }
  destruct d1 as [| x d1]; [discriminate |]. cbn [app] in *.
  rewrite (@replace_global_some _ strongMatch strongHtml _ _ _ _ Hm)
    by (apply strongMatch_shorter in Hm; exact Hm).
  destruct strong_tags_quiet as [Qo Qc].
  assert (Hq : quiet (p ++ strongHtml c)).
  { apply quiet_app; [now apply plain_quiet |]. unfold strongHtml.
    repeat apply quiet_app; auto. now apply plain_quiet. }
  rewrite app_assoc.
  rewrite em_quiet, del_quiet, code_quiet, link_quiet by exact Hq.
  unfold strongHtml. now rewrite <- !app_assoc.
Qed.

Lemma bold_of_plain_text_witness :
  applyInlineFormatting (input "a **b c** *d*")
  = input "a " ++ strong_open ++ input "b c" ++ strong_close
    ++ input " " ++ lit "<em>" ++ input "d" ++ lit "</em>".
Proof.
  refine (eq_trans
            (@bold_of_plain_text (input "a ") (input "**") (input "b c") (input "**")
               (input " *d*") c_star _ _ _ _ _ _) _).
  - now left.
  - reflexivity.
  - reflexivity.
  - apply Forall_false_forallb. reflexivity.
  - apply Forall_false_forallb. reflexivity.
  - repeat constructor.
  - vm_compute. reflexivity.
Defined.

(** X10: strikethrough.  Plain text, then [~~], content without special
    characters and line terminators, then [~~]: the content comes out
    unchanged inside one [del] element, whatever follows. *)
Theorem strike_of_plain_text :
  forall (p d1 c d2 s : str),
    codes d1 = [c_tilde; c_tilde] -> codes d2 = [c_tilde; c_tilde] ->
    plain p -> plain c -> Forall (fun x => is_dot x = true) c ->
    applyInlineFormatting (p ++ d1 ++ c ++ d2 ++ s)
    = p ++ lit "<del>" ++ c ++ lit "</del>" ++ applyInlineFormatting s.
Proof.
  intros p d1 c d2 s H1 H2 Hp Hc Hdot.
  assert (Hd : forall d, codes d = [c_tilde; c_tilde] ->
                         Forall (fun x => code x = c_tilde) d)
    by (intros d; apply (@delimiter_chars d c_tilde 2)).
  assert (Hk : forall d, codes d = [c_tilde; c_tilde] ->
                         Forall (fun x => delimiterChar x = true) d).
  { intros d Hx. apply Hd in Hx. eapply Forall_impl; [| exact Hx].
    intros x E. unfold delimiterChar, has_code. now rewrite E. }
  assert (Hb : forall d, codes d = [c_tilde; c_tilde] ->
                 Forall (fun x => has_code c_star x || has_code c_underscore x = false) d).
  { intros d Hx. apply Hd in Hx. eapply Forall_impl; [| exact Hx].
    intros x E. unfold has_code. now rewrite E. }
  rewrite !applyInlineFormatting_stages, !escapeHtml_app.
  rewrite (escapeHtml_of_plain Hp), (escapeHtml_of_plain Hc).
  rewrite (escapeHtml_keeps (Hk _ H1)), (escapeHtml_keeps (Hk _ H2)).
  unfold inlineMarkup.
  assert (Hpre : Forall (fun x => has_code c_star x || has_code c_underscore x = false)
                   (p ++ d1 ++ c ++ d2)).
  { repeat (apply Forall_app; split); auto.
    - apply plain_quiet in Hp. now apply quiet_triggers in Hp.
    - apply plain_quiet in Hc. now apply quiet_triggers in Hc. }
  replace (p ++ d1 ++ c ++ d2 ++ escapeHtml s) with ((p ++ d1 ++ c ++ d2) ++ escapeHtml s)
    by now rewrite <- !app_assoc.
  rewrite (@replace_global_skip _ strongMatch strongHtml _ strongMatch_first _ _ Hpre).
  rewrite (@replace_global_skip _ emMatch emHtml _ emMatch_first _ _ Hpre).
  rewrite <- !app_assoc. rewrite del_plain by exact Hp.
  set (X := replace_global emMatch emHtml
              (replace_global strongMatch strongHtml (escapeHtml s))).
  assert (Hm : delMatch (d1 ++ c ++ d2 ++ X) = Some (c, X)).
  { unfold delMatch. apply delimited_match; auto.
    eapply Forall_impl; [| exact Hc]. intros x Hx. now apply special_false in Hx. }
  destruct d1 as [| x d1]; [discriminate |]. cbn [app] in *.
  rewrite (@replace_global_some _ delMatch delHtml _ _ _ _ Hm)
    by (apply delMatch_shorter in Hm; exact Hm).
  destruct del_tags_quiet as [Qo Qc].
  assert (Hq : quiet (p ++ delHtml c)).
  { apply quiet_app; [now apply plain_quiet |]. unfold delHtml.
    repeat apply quiet_app; auto. now apply plain_quiet. }
  rewrite app_assoc.
  rewrite code_quiet, link_quiet by exact Hq.
  unfold delHtml. now rewrite <- !app_assoc.
Qed.

Lemma strike_of_plain_text_witness :
  applyInlineFormatting (input "was ~~old~~ new")
  = input "was " ++ lit "<del>" ++ input "old" ++ lit "</del>" ++ input " new".
Proof.
  refine (@strike_of_plain_text (input "was ") (input "~~") (input "old") (input "~~")
            (input " new") _ _ _ _ _).
  - reflexivity.
  - reflexivity.
  - apply Forall_false_forallb. reflexivity.
  - apply Forall_false_forallb. reflexivity.
  - repeat constructor.
Defined.

Lemma escapeHtml_stopsAt n s :
  n = c_star \/ n = c_underscore ->
  stopsAt (has_code n) s -> stopsAt (has_code n) (escapeHtml s).
Proof.
  intros Hn Hs. rewrite escapeHtml_units. destruct s as [| c s]; [exact I |].
  simpl in *. unfold escapeUnit.
  destruct (has_code c_amp c); [destruct Hn; subst n; reflexivity |].
  destruct (has_code c_lt c); [destruct Hn; subst n; reflexivity |].
  destruct (has_code c_gt c); [destruct Hn; subst n; reflexivity |].
  exact Hs.
Qed.

(** X9: italic.  Plain text, then [*] (or [_]), content that is not empty
    and has no special characters and no line terminators, then the same
    character, followed by text that does not start with that character: the
    content comes out unchanged inside one [em] element. *)
Theorem italic_of_plain_text :
  forall (p c s : str) (o cl : unit16) (n : N),
    n = c_star \/ n = c_underscore ->
    code o = n -> code cl = n ->
    plain p -> plain c -> c <> [] -> Forall (fun x => is_dot x = true) c ->
    stopsAt (has_code n) s ->
    applyInlineFormatting (p ++ o :: c ++ cl :: s)
    = p ++ lit "<em>" ++ c ++ lit "</em>" ++ applyInlineFormatting s.
Proof.
  intros p c s o cl n Hn Ho Hcl Hp Hc Hne Hdot Hs.
  assert (Hk : forall x, code x = n -> delimiterChar x = true).
  { intros x Hx. unfold delimiterChar, has_code. rewrite Hx.
    destruct Hn; subst n; reflexivity. }
  assert (Hcn : Forall (fun x => has_code n x = false) c).
  { eapply Forall_impl; [| exact Hc]. intros x Hx. apply special_false in Hx.
    destruct Hx as (_ & _ & _ & Hst & Hu & _). destruct Hn; subst n; assumption. }
  rewrite !applyInlineFormatting_stages.
  replace (p ++ o :: c ++ cl :: s) with (p ++ [o] ++ c ++ [cl] ++ s) by reflexivity.
  rewrite !escapeHtml_app.
  rewrite (escapeHtml_of_plain Hp), (escapeHtml_of_plain Hc).
  rewrite (@escapeHtml_keeps [o]), (@escapeHtml_keeps [cl]) by (repeat constructor; auto).
  cbn [app]. unfold inlineMarkup.
  apply (@escapeHtml_stopsAt n s Hn) in Hs. set (X := escapeHtml s) in *.
  (* the bold rule finds nothing to do in front of [X] *)
  rewrite strong_plain by exact Hp.
  assert (Ho' : strongMatch (o :: c ++ cl :: X) = None).
  { unfold strongMatch, alt. destruct c as [| y c]; [congruence |].
    pose proof (Forall_inv Hcn) as Hy. cbn beta in Hy.
    destruct Hn; subst n.
    - rewrite delimited_first with (n := c_underscore) by (unfold has_code; now rewrite Ho).
      unfold delimited. simpl. rewrite Hy.
      now destruct (has_code c_star o).
    - rewrite delimited_first with (n := c_star) by (unfold has_code; now rewrite Ho).
      unfold delimited. simpl. rewrite Hy.
      now destruct (has_code c_underscore o). }
  rewrite (@replace_global_none _ strongMatch strongHtml _ _ Ho').
  rewrite strong_plain by exact Hc.
  assert (Hcl' : strongMatch (cl :: X) = None).
  { unfold strongMatch, alt, delimited.
    destruct X as [| y X]; simpl.
    - now destruct (has_code c_star cl), (has_code c_underscore cl).
    - simpl in Hs. destruct Hn; subst n.
      + rewrite Hs. replace (has_code c_underscore cl) with false
          by (unfold has_code; now rewrite Hcl).
        now destruct (has_code c_star cl).
      + rewrite Hs. replace (has_code c_star cl) with false
          by (unfold has_code; now rewrite Hcl).
        now destruct (has_code c_underscore cl). }
  rewrite (@replace_global_none _ strongMatch strongHtml _ _ Hcl').
  set (Y := replace_global strongMatch strongHtml X).
  (* the italic rule takes the content *)
  rewrite em_plain by exact Hp.
  assert (Hm : emMatch (o :: c ++ cl :: Y) = Some (c, Y)).
  { assert (E : delimited [n] (o :: c ++ cl :: Y) = Some (c, Y)).
    { apply (@delimited_match n [] [o] c [cl] Y); simpl; congruence || auto. }
    unfold emMatch, alt. destruct Hn; subst n.
    - now rewrite E.
    - rewrite delimited_first with (n := c_star) by (unfold has_code; now rewrite Ho).
      exact E. }
  rewrite (@replace_global_some _ emMatch emHtml _ _ _ _ Hm)
    by (apply emMatch_shorter in Hm; exact Hm).
  destruct em_tags_quiet as [Qo Qc].
  assert (Hq : quiet (p ++ emHtml c)).
  { apply quiet_app; [now apply plain_quiet |]. unfold emHtml.
    repeat apply quiet_app; auto. now apply plain_quiet. }
  rewrite app_assoc.
  rewrite del_quiet, code_quiet, link_quiet by exact Hq.
  unfold emHtml. now rewrite <- !app_assoc.
Qed.

Lemma italic_of_plain_text_witness :
  applyInlineFormatting (input "an _odd_ day")
  = input "an " ++ lit "<em>" ++ input "odd" ++ lit "</em>" ++ input " day".
Proof.
  refine (@italic_of_plain_text (input "an ") (input "odd") (input " day")
            (U16 c_underscore Input) (U16 c_underscore Input) c_underscore
            _ _ _ _ _ _ _ _).
  - now right.
  - reflexivity.
  - reflexivity.
  - apply Forall_false_forallb. reflexivity.
  - apply Forall_false_forallb. reflexivity.
  - discriminate.
  - repeat constructor.
  - reflexivity.
Defined.

Lemma plain_no_backtick a : plain a -> Forall (fun c => has_code c_backtick c = false) a.
Proof. apply Forall_impl. intros c H. now apply special_false in H. Qed.

Lemma code_plain_class c n :
  code c = n -> special (U16 n Input) = false -> plain [c].
Proof.
  intros Hc Hn. constructor; [| constructor].
  unfold special, has_code in *. simpl in Hn. now rewrite Hc.
Qed.

(** A link: [[], a label without [[]] and line terminators, [](], an
    address without [)] and line terminators, [)]. *)
Lemma linkMatch_link lb rb lp rp label url Z :
  code lb = c_lbracket -> code rb = c_rbracket -> code lp = c_lparen ->
  code rp = c_rparen ->
  Forall (fun c => is_dot c = true) label -> Forall (fun c => is_dot c = true) url ->
  Forall (fun c => has_code c_rbracket c = false) label ->
  Forall (fun c => has_code c_rparen c = false) url ->
  linkMatch (lb :: label ++ rb :: lp :: url ++ rp :: Z) = Some ((label, url), Z).
Proof.
  intros Hlb Hrb Hlp Hrp Hl Hu Hnl Hnu. unfold linkMatch.
  change (lb :: label ++ rb :: lp :: url ++ rp :: Z)
    with ([lb] ++ label ++ rb :: lp :: url ++ rp :: Z).
  rewrite exact_prefix by (simpl; now rewrite Hlb).
  rewrite (@lazy_first _ is_dot _ label 0 (rb :: lp :: url ++ rp :: Z) (url, Z));
    auto.
  - lia.
  - change (rb :: lp :: url ++ rp :: Z) with ([rb; lp] ++ url ++ rp :: Z).
    rewrite exact_prefix by (simpl; now rewrite Hrb, Hlp).
    apply lazy_first; auto.
    + lia.
    + simpl. unfold has_code. now rewrite Hrp.
    + intros a b -> Hb. destruct b as [| x b]; [congruence |].
      apply Forall_app in Hnu. destruct Hnu as [_ Hnu].
      pose proof (Forall_inv Hnu) as Hx. simpl in *. now rewrite Hx.
  - intros a b -> Hb. destruct b as [| x b]; [congruence |].
    apply Forall_app in Hnl. destruct Hnl as [_ Hnl].
    pose proof (Forall_inv Hnl) as Hx. simpl in *. now rewrite Hx.
Qed.

(** X7: links.  Plain text, then [[label](address)] where label and
    address have no special characters and no line terminators, the label no
    [[]] and the address no [)]: the result is one anchor that opens in a new
    context, with the address copied into [href] as it is (a double quote in
    it included) and the label as its text, whatever follows. *)
Theorem link_of_plain_text :
  forall (p label url s : str) (lb rb lp rp : unit16),
    code lb = c_lbracket -> code rb = c_rbracket -> code lp = c_lparen ->
    code rp = c_rparen ->
    plain p -> plain label -> plain url ->
    Forall (fun c => is_dot c = true) label -> Forall (fun c => is_dot c = true) url ->
    Forall (fun c => has_code c_rbracket c = false) label ->
    Forall (fun c => has_code c_rparen c = false) url ->
    applyInlineFormatting (p ++ lb :: label ++ rb :: lp :: url ++ rp :: s)
    = p ++ tpl "<a href='" ++ url
      ++ tpl "' target='_blank' rel='noopener noreferrer' class='text-cyan-400 hover:underline'>"
      ++ label ++ lit "</a>" ++ applyInlineFormatting s.
Proof.
  intros p label url s lb rb lp rp Hlb Hrb Hlp Hrp Hp Hl Hu Hdl Hdu Hnl Hnu.
  pose proof (@code_plain_class rb _ Hrb eq_refl) as Prb.
  pose proof (@code_plain_class lp _ Hlp eq_refl) as Plp.
  pose proof (@code_plain_class rp _ Hrp eq_refl) as Prp.
  assert (Hin : plain (label ++ [rb] ++ [lp] ++ url ++ [rp]))
    by (repeat (apply Forall_app; split); assumption).
  assert (Hpre : Forall (fun c => earlier c = false)
                   (p ++ [lb] ++ label ++ [rb] ++ [lp] ++ url ++ [rp])).
  { apply Forall_app. split; [now apply plain_earlier |].
    apply Forall_app. split; [| now apply plain_earlier].
    repeat constructor. unfold earlier, has_code. now rewrite Hlb. }
  assert (Htick : Forall (fun c => has_code c_backtick c = false)
                    (p ++ [lb] ++ label ++ [rb] ++ [lp] ++ url ++ [rp])).
  { apply Forall_app. split; [now apply plain_no_backtick |].
    apply Forall_app. split; [| now apply plain_no_backtick].
    repeat constructor. unfold has_code. now rewrite Hlb. }
  rewrite !applyInlineFormatting_beforeCode.
  replace (p ++ lb :: label ++ rb :: lp :: url ++ rp :: s)
    with ((p ++ [lb] ++ label ++ [rb] ++ [lp] ++ url ++ [rp]) ++ s)
    by (rewrite <- ?app_assoc; simpl; rewrite <- ?app_assoc; reflexivity).
  rewrite beforeCode_skip by exact Hpre.
  rewrite (@replace_global_skip _ codeMatch codeHtml _ codeMatch_first _ _ Htick).
  set (Z := replace_global codeMatch codeHtml (beforeCode s)).
  replace ((p ++ [lb] ++ label ++ [rb] ++ [lp] ++ url ++ [rp]) ++ Z)
    with (p ++ lb :: label ++ rb :: lp :: url ++ rp :: Z)
    by (rewrite <- ?app_assoc; simpl; rewrite <- ?app_assoc; reflexivity).
  rewrite link_plain by exact Hp.
  pose proof (@linkMatch_link lb rb lp rp label url Z Hlb Hrb Hlp Hrp Hdl Hdu Hnl Hnu)
    as Hm.
  rewrite (@replace_global_some _ linkMatch linkHtml _ _ _ _ Hm)
    by (apply linkMatch_shorter in Hm; exact Hm).
  unfold linkHtml. cbn [fst snd]. now rewrite <- ?app_assoc.
Qed.

Lemma link_of_plain_text_witness :
  applyInlineFormatting
    (input "see [the site](u" ++ U16 34 Input :: input " id=" ++ U16 34 Input
     :: input "v) now")
  = input "see " ++ tpl "<a href='"
    ++ (input "u" ++ U16 34 Input :: input " id=" ++ U16 34 Input :: input "v")
    ++ tpl "' target='_blank' rel='noopener noreferrer' class='text-cyan-400 hover:underline'>"
    ++ input "the site" ++ lit "</a>" ++ input " now".
Proof.
  refine (@link_of_plain_text (input "see ") (input "the site")
            (input "u" ++ U16 34 Input :: input " id=" ++ U16 34 Input :: input "v")
            (input " now") (U16 c_lbracket Input) (U16 c_rbracket Input)
            (U16 c_lparen Input) (U16 c_rparen Input) _ _ _ _ _ _ _ _ _ _ _);
    try reflexivity; try (apply Forall_false_forallb; reflexivity); repeat constructor.
Defined.

(** * The login form *)

Lemma greedy_complete (R : Type) (p : unit16 -> bool) (k : str -> option R) g :
  forall lo t,
    Forall (fun c => p c = true) g -> lo <= length g -> k t <> None ->
    greedy lo p k (g ++ t) <> None.
Proof.
  induction g as [| c g IH]; intros lo t Hg Hlo Hk.
  - simpl in Hlo. assert (lo = 0) by lia. subst lo. simpl.
    destruct t as [| c t]; simpl.
    + destruct (k []); [discriminate | congruence].
    + destruct (p c).
      * destruct (greedy 0 p k t) as [[g x] |]; [discriminate |].
        simpl. destruct (k (c :: t)); [discriminate | congruence].
      * simpl. destruct (k (c :: t)); [discriminate | congruence].
  - inversion Hg as [| ? ? Hc Hg']; subst. simpl. rewrite Hc.
    specialize (IH (pred lo) t Hg'). simpl in Hlo.
    destruct (greedy (pred lo) p k (g ++ t)) as [[g0 x] |]; [discriminate |].
    exfalso. apply IH; auto. lia.
Qed.

Lemma test_spec (R : Type) (m : str -> option R) s :
  test m s = true <-> exists a b, s = a ++ b /\ m b <> None.
Proof.
  induction s as [| c s IH]; simpl.
  - rewrite orb_false_r. split.
    + intros H. exists [], []. split; [reflexivity |]. destruct (m []); [discriminate |].
      discriminate H.
    + intros (a & b & E & H). symmetry in E. apply app_eq_nil in E. destruct E; subst.
      destruct (m []); [reflexivity | congruence].
  - rewrite orb_true_iff, IH. split.
    + intros [H | (a & b & -> & H)].
      * exists [], (c :: s). split; [reflexivity |].
        destruct (m (c :: s)); [discriminate | discriminate H].
      * exists (c :: a), b. auto.
    + intros ([| c' a] & b & E & H); simpl in E.
      * subst b. left. destruct (m (c :: s)); [reflexivity | congruence].
      * injection E as _ E. right. exists a, b. auto.
Qed.

Lemma emailMatch_spec b :
  emailMatch b <> None
  <-> exists g1 at_ g2 dot g3 r,
        b = g1 ++ at_ :: g2 ++ dot :: g3 ++ r
        /\ code at_ = c_at /\ code dot = c_dot
        /\ g1 <> [] /\ g2 <> [] /\ g3 <> []
        /\ Forall (fun c => not_space c = true) g1
        /\ Forall (fun c => not_space c = true) g2
        /\ Forall (fun c => not_space c = true) g3.
Proof.
  unfold emailMatch. split.
  - destruct (greedy _ _ _ b) as [[g1 [g2 [g3 r]]] |] eqn:H; [| congruence].
    intros _.
    apply greedy_sound in H. destruct H as (s1 & -> & H & H1 & L1).
    apply exact_sound in H. destruct H as (o1 & s2 & -> & Ho1 & H).
    apply greedy_sound in H. destruct H as (s3 & -> & H & H2 & L2).
    apply exact_sound in H. destruct H as (o2 & s4 & -> & Ho2 & H).
    apply greedy_sound in H. destruct H as (s5 & -> & H & H3 & L3).
    destruct o1 as [| at_ [| ? ?]]; try discriminate.
    destruct o2 as [| dot [| ? ?]]; try discriminate.
    injection Ho1 as Ho1. injection Ho2 as Ho2.
    exists g1, at_, g2, dot, g3, s5. repeat split; auto;
      intros ->; simpl in *; lia.
  - intros (g1 & at_ & g2 & dot & g3 & r & -> & Ha & Hd & N1 & N2 & N3 & H1 & H2 & H3).
    apply greedy_complete; auto.
    { destruct g1; [congruence | simpl; lia]. }
    simpl. unfold has_code. rewrite Ha, N.eqb_refl.
    apply greedy_complete; auto.
    { destruct g2; [congruence | simpl; lia]. }
    simpl. unfold has_code. rewrite Hd, N.eqb_refl.
    apply greedy_complete; auto.
    { destruct g3; [congruence | simpl; lia]. }
    discriminate.
Qed.

Lemma test_emailMatch u : test emailMatch u = true <-> emailLike u.
Proof.
  rewrite test_spec. unfold emailLike. split.
  - intros (a & b & -> & H). apply emailMatch_spec in H.
    destruct H as (g1 & at_ & g2 & dot & g3 & r & -> & Ha & Hd & N1 & N2 & N3
                   & H1 & H2 & H3).
    destruct (exists_last N1) as (g1' & x & ->).
    destruct g3 as [| y g3]; [congruence |].
    apply Forall_app in H1. destruct H1 as [_ H1].
    exists (a ++ g1'), x, at_, g2, dot, y, (g3 ++ r).
    repeat split; auto.
    + now rewrite <- !app_assoc.
    + now inversion H1.
    + now inversion H3.
  - intros (a & x & at_ & mid & dot & y & b & -> & Hx & Ha & Hm & Hmid & Hd & Hy).
    exists a, (x :: at_ :: mid ++ dot :: y :: b). split; [reflexivity |].
    apply emailMatch_spec.
    exists [x], at_, mid, dot, [y], b. repeat split; auto; discriminate.
Qed.

(** When [validate] finds no error. *)
Lemma validate_noErrors (u p : str) :
  snd (validate u p) = true <-> emailLike u /\ 6 <= length p.
Proof.
  unfold validate, noErrors. cbn [snd usernameError passwordError].
  rewrite <- test_emailMatch. split.
  - destruct u as [| c u]; [discriminate |].
    destruct (test emailMatch (c :: u)); cbn [negb]; [| discriminate].
    destruct p as [| d p]; [discriminate |].
    destruct (Nat.ltb_spec (length (d :: p)) 6); [discriminate |]. auto.
  - intros [Hu Hp].
    destruct u as [| c u]; [discriminate Hu |]. rewrite Hu. cbn [negb].
    destruct p as [| d p]; [simpl in Hp; lia |].
    destruct (Nat.ltb_spec (length (d :: p)) 6); [lia | reflexivity].
Qed.

(** X12: [validate] returns [true] exactly when the user name holds,
    somewhere, a character that is no white space, an [@], one or more
    characters that are no white space, a dot and one more such character,
    and the password has six or more code units.  Nothing else is looked at:
    text and white space around the address do not make it invalid. *)
Theorem validate_accepts :
  forall username password : str,
    snd (validate username password) = true
    <-> emailLike username /\ 6 <= length password.
Proof.
  intros u p. split; intros H.
  - apply (proj1 (validate_noErrors u p)). exact H.
  - apply (proj2 (validate_noErrors u p)). exact H.
Qed.

(** X13: [handleSubmit] calls [onLogin] or [onSignup] exactly when the user
    name is like an address and the password has six or more code units;
    the call is the one of the current view, with the user name and
    password of the form, and the form is then loading.  Otherwise no call is
    made, the form is not loading more than before, and at least one field
    error is shown. *)
Theorem handleSubmit_calls :
  forall f : loginForm,
    (emailLike (username f) /\ 6 <= length (password f) ->
     snd (handleSubmit f)
     = Some (if isLoginView f then OnLogin else OnSignup, username f, password f)
     /\ isLoading (fst (handleSubmit f)) = true
     /\ noErrors (errors (fst (handleSubmit f))) = true)
    /\ (~ (emailLike (username f) /\ 6 <= length (password f)) ->
        snd (handleSubmit f) = None
        /\ isLoading (fst (handleSubmit f)) = isLoading f
        /\ noErrors (errors (fst (handleSubmit f))) = false).
Proof.
  intros f. pose proof (validate_noErrors (username f) (password f)) as H.
  unfold handleSubmit.
  destruct (validate (username f) (password f)) as [e ok] eqn:E.
  assert (He : noErrors e = ok).
  { unfold validate in E. injection E as <- <-. reflexivity. }
  cbn [snd] in H. split; intros Hc.
  - apply H in Hc. rewrite Hc in He |- *. simpl. auto.
  - destruct ok; [exfalso; apply Hc, H; reflexivity |]. simpl. auto.
Qed.

Lemma handleSubmit_calls_witness :
  snd (handleSubmit
         (LoginForm (input " me@x.io ") (input "secret") false false
            (FieldErrors None None) None))
  = Some (OnSignup, input " me@x.io ", input "secret")
  /\ snd (handleSubmit
            (LoginForm (input "me@x") (input "secret") true false
               (FieldErrors None None) None))
     = None.
Proof.
  split.
  - refine (proj1 (proj1 (handleSubmit_calls
                            (LoginForm (input " me@x.io ") (input "secret") false false
                               (FieldErrors None None) None)) _)).
    split; [| simpl; lia].
    exists (input " m"), (U16 101 Input), (U16 c_at Input), (input "x"),
      (U16 c_dot Input), (U16 105 Input), (input "o ").
    repeat split; try reflexivity; try discriminate; repeat constructor.
  - refine (proj1 (proj2 (handleSubmit_calls
                            (LoginForm (input "me@x") (input "secret") true false
                               (FieldErrors None None) None)) _)).
    intros [H _]. apply test_emailMatch in H. discriminate H.
Defined.

(** * Staged attachments *)

Section StagingFacts.
Variable File : Type.

Lemma composerStep_one (st : composer File) e :
  oneAttachment (stagedImage st) (stagedFile st) ->
  oneAttachment (stagedImage (fst (composerStep st e)))
    (stagedFile (fst (composerStep st e)))
  /\ match snd (composerStep st e) with
     | Some c => oneAttachment (imageFile c) (analysisFile c)
     | None => True
     end.
Proof.
  unfold oneAttachment. intros H.
  destruct e as [text | api | [file |] | [file |] |]; simpl; auto.
Qed.

Lemma composerRun_one es : forall st : composer File,
  oneAttachment (stagedImage st) (stagedFile st) ->
  oneAttachment (stagedImage (fst (composerRun st es)))
    (stagedFile (fst (composerRun st es)))
  /\ Forall (fun c => oneAttachment (imageFile c) (analysisFile c))
       (snd (composerRun st es)).
Proof.
  induction es as [| e es IH]; intros st H; simpl.
  - auto.
  - destruct (@composerStep_one st e H) as [H1 H2].
    destruct (composerStep st e) as [st' call]. simpl in H1, H2.
    destruct (IH st' H1) as [H3 H4].
    destruct (composerRun st' es) as [st'' calls]. simpl in *.
    split; [exact H3 |]. destruct call; [constructor |]; assumption.
Qed.

(** X14: whatever the user does (typing, choosing an API, staging or
    removing an image or a file, sending), an image and a file are never
    staged together, and every call of [sendMessage] carries at most one of
    the two. *)
Theorem at_most_one_attachment :
  forall es : list (composerEvent File),
    oneAttachment (stagedImage (fst (composerRun (composerStart File) es)))
      (stagedFile (fst (composerRun (composerStart File) es)))
    /\ Forall (fun c => oneAttachment (imageFile c) (analysisFile c))
         (snd (composerRun (composerStart File) es)).
Proof.
  intros es. apply composerRun_one. left. reflexivity.
Qed.
End StagingFacts.

(** * Line endings and escaping *)

Lemma rule_char_classes c :
  is_rule_char c = true ->
  has_code c_hash c = false /\ has_code c_gt c = false /\ is_space c = false
  /\ is_digit c = false.
Proof.
  unfold is_rule_char, has_code. intros H.
  apply orb_true_iff in H. destruct H as [H | H]; [apply orb_true_iff in H; destruct H as [H | H] |];
    apply N.eqb_eq in H; unfold is_space, is_digit, has_code; rewrite H;
    repeat split; reflexivity.
Qed.



Lemma codes_escapeHtml s : codes (escapeHtml s) = flat_map escapeCode (codes s).
Proof.
  rewrite escapeHtml_units. induction s as [| c s IH]; [reflexivity |].
  simpl. unfold codes in *. rewrite map_app, IH. f_equal.
  unfold escapeUnit, escapeCode, has_code.
  destruct (N.eqb (code c) c_amp); [reflexivity |].
  destruct (N.eqb (code c) c_lt); [reflexivity |].
  destruct (N.eqb (code c) c_gt); reflexivity.
Qed.

Lemma escapeCode_head n :
  exists m r, escapeCode n = m :: r
              /\ (m = c_amp <-> (n = c_amp \/ n = c_lt \/ n = c_gt)).
Proof.
  unfold escapeCode.
  destruct (N.eqb_spec n c_amp) as [-> |]; [eexists _, _; split; [reflexivity |]; tauto |].
  destruct (N.eqb_spec n c_lt) as [-> |]; [eexists _, _; split; [reflexivity |]; tauto |].
  destruct (N.eqb_spec n c_gt) as [-> |]; [eexists _, _; split; [reflexivity |]; tauto |].
  exists n, []. split; [reflexivity |]. split; [congruence |]. tauto.
Qed.

Lemma flat_map_escapeCode_inj a : forall b,
  flat_map escapeCode a = flat_map escapeCode b -> a = b.
Proof.
  induction a as [| n a IH]; intros [| m b] H; simpl in H.
  - reflexivity.
  - destruct (escapeCode_head m) as (x & r & E & _). rewrite E in H. discriminate.
  - destruct (escapeCode_head n) as (x & r & E & _). rewrite E in H. discriminate.
  - assert (Hnm : n = m /\ flat_map escapeCode a = flat_map escapeCode b).
    { unfold escapeCode in H.
      destruct (N.eqb_spec n c_amp) as [-> | Na];
        [| destruct (N.eqb_spec n c_lt) as [-> | Nl];
           [| destruct (N.eqb_spec n c_gt) as [-> | Ng]]];
        (destruct (N.eqb_spec m c_amp) as [-> | Ma];
         [| destruct (N.eqb_spec m c_lt) as [-> | Ml];
            [| destruct (N.eqb_spec m c_gt) as [-> | Mg]]]);
        simpl in H; inversion H; subst; unfold c_amp, c_lt, c_gt in *;
        try congruence; auto. }
    destruct Hnm as [-> Hab]. f_equal. now apply IH.
Qed.

(** X15: the escaping loses nothing: two texts that are escaped to the same
    code units have the same code units. *)
Theorem escapeHtml_injective :
  forall a b : str, codes (escapeHtml a) = codes (escapeHtml b) -> codes a = codes b.
Proof.
  intros a b H. rewrite !codes_escapeHtml in H. now apply flat_map_escapeCode_inj.
Qed.

Lemma escapeHtml_injective_witness :
  codes (input "a<b") = codes (lit "a<b").
Proof.
  apply escapeHtml_injective. reflexivity.
Defined.

(** * Text for speech *)

Section ReplaceLines.
Variable G : Type.
Variable m : bool -> str -> option (G * str).
Variable repl : G -> str.

Lemma replace_lines_nil bol : replace_lines m repl bol [] = [].
Proof. now simp replace_lines. Qed.

Lemma replace_lines_none bol c s :
  m bol (c :: s) = None ->
  replace_lines m repl bol (c :: s)
  = c :: replace_lines m repl (is_line_terminator c) s.
Proof. intros H. simp replace_lines. rewrite H. reflexivity. Qed.

Lemma replace_lines_some bol c s g rest :
  m bol (c :: s) = Some (g, rest) ->
  length rest < length (c :: s) ->
  replace_lines m repl bol (c :: s)
  = repl g
    ++ replace_lines m repl (is_line_terminator (last (taken (c :: s) rest) c)) rest.
Proof.
  intros H Hlt. simp replace_lines. rewrite H.
  unfold replace_lines_unfold_clause_2.
  destruct (le_lt_dec (length (c :: s)) (length rest)) as [Hle | Hlt'].
  - simpl in *. lia.
  - reflexivity.
Qed.

Lemma replace_lines_id s : forall bol,
  matchesNowhere m bol s -> replace_lines m repl bol s = s.
Proof.
  induction s as [| c s IH]; intros bol [H Hs].
  - apply replace_lines_nil.
  - rewrite replace_lines_none by exact H. f_equal. now apply IH.
Qed.
End ReplaceLines.

Lemma replace_global_nowhere (G : Type) (m : str -> option (G * str)) repl s :
  (forall a b, s = a ++ b -> m b = None) -> replace_global m repl s = s.
Proof.
  induction s as [| c s IH]; intros H.
  - apply replace_global_nil.
  - rewrite replace_global_none by (apply (H [] (c :: s)); reflexivity).
    f_equal. apply IH. intros a b ->. apply (H (c :: a) b). reflexivity.
Qed.

Lemma removeMarkdown_stages text : removeMarkdown text = trim (collapsed text).
Proof. destruct text; reflexivity. Qed.

(** What is equal after one of the replacements gives equal results. *)
Unset Implicit Arguments.

Lemma stages_from_unruled a b : unruled a = unruled b -> removeMarkdown a = removeMarkdown b.
Proof.
  intros H. rewrite !removeMarkdown_stages.
  change (trim (replace_global newlinesMatch (fun _ => newline) (unruled a))
          = trim (replace_global newlinesMatch (fun _ => newline) (unruled b))).
  now rewrite H.
Qed.

Lemma stages_from_unnumbered a b :
  unnumbered a = unnumbered b -> removeMarkdown a = removeMarkdown b.
Proof.
  intros H. apply stages_from_unruled.
  change (replace_lines ruleMark (@nothing unit) true (unnumbered a)
          = replace_lines ruleMark (@nothing unit) true (unnumbered b)).
  now rewrite H.
Qed.

Lemma stages_from_unbulleted a b :
  unbulleted a = unbulleted b -> removeMarkdown a = removeMarkdown b.
Proof.
  intros H. apply stages_from_unnumbered.
  change (replace_lines numberMark (@nothing unit) true (unbulleted a)
          = replace_lines numberMark (@nothing unit) true (unbulleted b)).
  now rewrite H.
Qed.

Lemma stages_from_unquoted a b : unquoted a = unquoted b -> removeMarkdown a = removeMarkdown b.
Proof.
  intros H. apply stages_from_unbulleted.
  change (replace_lines bulletMark (@nothing unit) true (unquoted a)
          = replace_lines bulletMark (@nothing unit) true (unquoted b)).
  now rewrite H.
Qed.

Lemma stages_from_unstruck a b : unstruck a = unstruck b -> removeMarkdown a = removeMarkdown b.
Proof.
  intros H. apply stages_from_unquoted.
  change (replace_lines quoteMark (@nothing unit) true (unstruck a)
          = replace_lines quoteMark (@nothing unit) true (unstruck b)).
  now rewrite H.
Qed.

Lemma stages_from_unslanted a b :
  unslanted a = unslanted b -> removeMarkdown a = removeMarkdown b.
Proof.
  intros H. apply stages_from_unstruck.
  change (replace_global delMatch group (unslanted a)
          = replace_global delMatch group (unslanted b)).
  now rewrite H.
Qed.

Lemma stages_from_unbolded a b : unbolded a = unbolded b -> removeMarkdown a = removeMarkdown b.
Proof.
  intros H. apply stages_from_unslanted.
  change (replace_global emMatch group (unbolded a)
          = replace_global emMatch group (unbolded b)).
  now rewrite H.
Qed.

Lemma stages_from_unheaded a b : unheaded a = unheaded b -> removeMarkdown a = removeMarkdown b.
Proof.
  intros H. apply stages_from_unbolded.
  change (replace_global strongMatch group (unheaded a)
          = replace_global strongMatch group (unheaded b)).
  now rewrite H.
Qed.

Lemma stages_from_unlinked a b : unlinked a = unlinked b -> removeMarkdown a = removeMarkdown b.
Proof.
  intros H. apply stages_from_unheaded.
  change (replace_lines headingMark (@nothing unit) true (unlinked a)
          = replace_lines headingMark (@nothing unit) true (unlinked b)).
  now rewrite H.
Qed.

Lemma stages_from_unimaged a b : unimaged a = unimaged b -> removeMarkdown a = removeMarkdown b.
Proof.
  intros H. apply stages_from_unlinked.
  change (replace_global linkMatch (fun g => fst g) (unimaged a)
          = replace_global linkMatch (fun g => fst g) (unimaged b)).
  now rewrite H.
Qed.

Lemma stages_from_unfenced a b : unfenced a = unfenced b -> removeMarkdown a = removeMarkdown b.
Proof.
  intros H. apply stages_from_unimaged.
  change (replace_global imageMatch group (unfenced a)
          = replace_global imageMatch group (unfenced b)).
  now rewrite H.
Qed.

Lemma unquoted_eq text :
  unquoted text = replace_lines quoteMark (@nothing unit) true (unstruck text).
Proof. reflexivity. Qed.

Lemma unbulleted_eq text :
  unbulleted text = replace_lines bulletMark (@nothing unit) true (unquoted text).
Proof. reflexivity. Qed.

Lemma unnumbered_eq text :
  unnumbered text = replace_lines numberMark (@nothing unit) true (unbulleted text).
Proof. reflexivity. Qed.

Set Implicit Arguments.

(** ** Code blocks, images and links *)


Lemma fenceMatch_first c t : has_code c_backtick c = false -> fenceMatch (c :: t) = None.
Proof. intros H. unfold fenceMatch. simpl. now rewrite H. Qed.

Lemma imageMatch_first c t : has_code c_bang c = false -> imageMatch (c :: t) = None.
Proof. intros H. unfold imageMatch. simpl. now rewrite H. Qed.

Lemma fenceMatch_shorter s g rest :
  fenceMatch s = Some (g, rest) -> length rest < length s.
Proof.
  unfold fenceMatch. intros H.
  apply exact_sound in H. destruct H as (o & s1 & -> & Ho & H).
  apply lazy_sound in H. destruct H as (s2 & -> & H & _).
  apply exact_sound in H. destruct H as (c & s3 & -> & Hc & H).
  inversion H; subst. apply (f_equal (@length N)) in Ho. rewrite codes_length in Ho.
  shorter.
Qed.

Lemma imageMatch_shorter s g rest :
  imageMatch s = Some (g, rest) -> length rest < length s.
Proof.
  unfold imageMatch. intros H.
  destruct (exact _ _ s) as [[l [u r]] |] eqn:Hm; [| discriminate].
  inversion H; subst. clear H.
  apply exact_sound in Hm. destruct Hm as (o & s1 & -> & Ho & H).
  apply lazy_sound in H. destruct H as (s2 & -> & H & _).
  apply exact_sound in H. destruct H as (c & s3 & -> & Hc & H).
  apply lazy_sound in H. destruct H as (s4 & -> & H & _).
  apply exact_sound in H. destruct H as (e & s5 & -> & He & H).
  inversion H; subst. apply (f_equal (@length N)) in Ho. rewrite codes_length in Ho.
  shorter.
Qed.

(** A block between two fences, without a backtick inside. *)
Lemma fenceMatch_block o body cl X :
  codes o = [c_backtick; c_backtick; c_backtick] ->
  codes cl = [c_backtick; c_backtick; c_backtick] ->
  Forall (fun c => has_code c_backtick c = false) body ->
  fenceMatch (o ++ body ++ cl ++ X) = Some (body, X).
Proof.
  intros Ho Hcl Hb. unfold fenceMatch. rewrite exact_prefix by exact Ho.
  apply lazy_first.
  - apply Forall_forall. reflexivity.
  - lia.
  - now rewrite exact_prefix.
  - intros a b -> Hne. destruct b as [| x b]; [congruence |].
    apply Forall_app in Hb. destruct Hb as [_ Hb].
    pose proof (Forall_inv Hb) as Hx. simpl in *. now rewrite Hx.
Qed.

Lemma imageMatch_image bang lb rb lp rp alt_ url Z :
  code bang = c_bang -> code lb = c_lbracket -> code rb = c_rbracket ->
  code lp = c_lparen -> code rp = c_rparen ->
  Forall (fun c => is_dot c = true) alt_ -> Forall (fun c => is_dot c = true) url ->
  Forall (fun c => has_code c_rbracket c = false) alt_ ->
  Forall (fun c => has_code c_rparen c = false) url ->
  imageMatch (bang :: lb :: alt_ ++ rb :: lp :: url ++ rp :: Z) = Some (alt_, Z).
Proof.
  intros Hb Hlb Hrb Hlp Hrp Hl Hu Hnl Hnu. unfold imageMatch.
  change (bang :: lb :: alt_ ++ rb :: lp :: url ++ rp :: Z)
    with ([bang; lb] ++ alt_ ++ rb :: lp :: url ++ rp :: Z).
  rewrite exact_prefix by (simpl; now rewrite Hb, Hlb).
  rewrite (@lazy_first _ is_dot _ alt_ 0 (rb :: lp :: url ++ rp :: Z) (url, Z));
    auto.
  - lia.
  - change (rb :: lp :: url ++ rp :: Z) with ([rb; lp] ++ url ++ rp :: Z).
    rewrite exact_prefix by (simpl; now rewrite Hrb, Hlp).
    apply lazy_first; auto.
    + lia.
    + simpl. unfold has_code. now rewrite Hrp.
    + intros a b -> Hne. destruct b as [| x b]; [congruence |].
      apply Forall_app in Hnu. destruct Hnu as [_ Hnu].
      pose proof (Forall_inv Hnu) as Hx. simpl in *. now rewrite Hx.
  - intros a b -> Hne. destruct b as [| x b]; [congruence |].
    apply Forall_app in Hnl. destruct Hnl as [_ Hnl].
    pose proof (Forall_inv Hnl) as Hx. simpl in *. now rewrite Hx.
Qed.

(** X16: code blocks are not spoken.  A block between two fences of three
    backticks, with no backtick inside and none in the text before it, can
    be taken out of the text without changing what [removeMarkdown] gives:
    what stands before and after the block is treated as if the block had
    never been there. *)
Theorem code_block_is_dropped p o body cl s :
  Forall (fun c => has_code c_backtick c = false) p ->
  codes o = [c_backtick; c_backtick; c_backtick] ->
  codes cl = [c_backtick; c_backtick; c_backtick] ->
  Forall (fun c => has_code c_backtick c = false) body ->
  removeMarkdown (p ++ o ++ body ++ cl ++ s) = removeMarkdown (p ++ s).
Proof.
  intros Hp Ho Hcl Hb. apply stages_from_unfenced. unfold unfenced.
  rewrite !(@replace_global_skip _ fenceMatch (@nothing str) _ fenceMatch_first _ _ Hp).
  f_equal.
  pose proof (@fenceMatch_block _ _ _ s Ho Hcl Hb) as Hm.
  destruct o as [| o1 o']; [discriminate |].
  cbn [app] in *.
  rewrite (@replace_global_some _ _ _ _ _ _ _ Hm (fenceMatch_shorter _ Hm)).
  reflexivity.
Qed.

Lemma code_block_is_dropped_witness :
  removeMarkdown (input "see " ++ input "```" ++ input "x = 1" ++ input "```" ++ input " end")
  = removeMarkdown (input "see " ++ input " end").
Proof.
  apply code_block_is_dropped; try reflexivity;
    repeat constructor.
Defined.

Lemma Forall_opener_split (s : str) :
  Forall (fun c => is_opener c = false) s ->
  Forall (fun c => has_code c_backtick c = false) s
  /\ Forall (fun c => has_code c_bang c = false) s
  /\ Forall (fun c => has_code c_lbracket c = false) s.
Proof.
  intros H. repeat split; eapply Forall_impl; try exact H; intros c Hc;
    unfold is_opener in Hc; apply orb_false_iff in Hc; destruct Hc as [Hc H3];
    apply orb_false_iff in Hc; destruct Hc as [H1 H2]; assumption.
Qed.

(** X17: of a link the text is spoken, not the address.  Where the text
    before the link and the link's text have no backtick, no [!] and no [[],
    the link's text and its address no line terminator, the text no []] and
    the address no [)], no backtick and no [!], [removeMarkdown] gives what
    it gives for the same text with the link replaced by its text. *)
Theorem link_keeps_its_text p lb label rb lp url rp s :
  code lb = c_lbracket -> code rb = c_rbracket -> code lp = c_lparen ->
  code rp = c_rparen ->
  Forall (fun c => is_opener c = false) p ->
  Forall (fun c => is_opener c = false) label ->
  Forall (fun c => has_code c_backtick c = false) url ->
  Forall (fun c => has_code c_bang c = false) url ->
  Forall (fun c => is_dot c = true) label -> Forall (fun c => is_dot c = true) url ->
  Forall (fun c => has_code c_rbracket c = false) label ->
  Forall (fun c => has_code c_rparen c = false) url ->
  removeMarkdown (p ++ lb :: label ++ rb :: lp :: url ++ rp :: s)
  = removeMarkdown (p ++ label ++ s).
Proof.
  intros Hlb Hrb Hlp Hrp Hp Hl Hu1 Hu2 Hdl Hdu Hnl Hnu.
  apply stages_from_unlinked.
  destruct (Forall_opener_split Hp) as (Hp1 & Hp2 & Hp3).
  destruct (Forall_opener_split Hl) as (Hl1 & Hl2 & Hl3).
  assert (Hlb1 : has_code c_backtick lb = false) by (unfold has_code; now rewrite Hlb).
  assert (Hlb2 : has_code c_bang lb = false) by (unfold has_code; now rewrite Hlb).
  assert (Hrb1 : has_code c_backtick rb = false) by (unfold has_code; now rewrite Hrb).
  assert (Hrb2 : has_code c_bang rb = false) by (unfold has_code; now rewrite Hrb).
  assert (Hlp1 : has_code c_backtick lp = false) by (unfold has_code; now rewrite Hlp).
  assert (Hlp2 : has_code c_bang lp = false) by (unfold has_code; now rewrite Hlp).
  assert (Hrp1 : has_code c_backtick rp = false) by (unfold has_code; now rewrite Hrp).
  assert (Hrp2 : has_code c_bang rp = false) by (unfold has_code; now rewrite Hrp).
  set (A := p ++ lb :: label ++ rb :: lp :: url ++ [rp]).
  assert (EA : p ++ lb :: label ++ rb :: lp :: url ++ rp :: s = A ++ s).
  { unfold A. repeat (rewrite <- ?app_assoc; cbn [app]). reflexivity. }
  assert (HA1 : Forall (fun c => has_code c_backtick c = false) A).
  { unfold A. repeat (first [apply Forall_app; split | apply Forall_cons | apply Forall_nil]); auto. }
  assert (HA2 : Forall (fun c => has_code c_bang c = false) A).
  { unfold A. repeat (first [apply Forall_app; split | apply Forall_cons | apply Forall_nil]); auto. }
  unfold unlinked, unimaged, unfenced.
  rewrite EA.
  rewrite (@replace_global_skip _ fenceMatch (@nothing str) _ fenceMatch_first _ _ HA1).
  rewrite (@replace_global_skip _ imageMatch group _ imageMatch_first _ _ HA2).
  rewrite (app_assoc p label s).
  assert (HB1 : Forall (fun c => has_code c_backtick c = false) (p ++ label))
    by (apply Forall_app; split; assumption).
  assert (HB2 : Forall (fun c => has_code c_bang c = false) (p ++ label))
    by (apply Forall_app; split; assumption).
  assert (HB3 : Forall (fun c => has_code c_lbracket c = false) (p ++ label))
    by (apply Forall_app; split; assumption).
  rewrite (@replace_global_skip _ fenceMatch (@nothing str) _ fenceMatch_first _ _ HB1).
  rewrite (@replace_global_skip _ imageMatch group _ imageMatch_first _ _ HB2).
  rewrite (@replace_global_skip _ linkMatch (fun g => fst g) _ linkMatch_first _ _ HB3).
  set (V := replace_global imageMatch group (replace_global fenceMatch (@nothing str) s)).
  unfold A. repeat (rewrite <- ?app_assoc; cbn [app]).
  rewrite (@replace_global_skip _ linkMatch (fun g => fst g) _ linkMatch_first _ _ Hp3).
  f_equal.
  pose proof (@linkMatch_link lb rb lp rp label url V Hlb Hrb Hlp Hrp Hdl Hdu Hnl Hnu)
    as Hm.
  rewrite (@replace_global_some _ _ _ _ _ _ _ Hm (linkMatch_shorter _ Hm)).
  reflexivity.
Qed.

Lemma link_keeps_its_text_witness :
  removeMarkdown (input "see [the page](https://x.io/a[1]) now")
  = removeMarkdown (input "see the page now").
Proof.
  apply (@link_keeps_its_text (input "see ") (U16 91 Input) (input "the page")
           (U16 93 Input) (U16 40 Input) (input "https://x.io/a[1]") (U16 41 Input)
           (input " now")); try reflexivity; repeat constructor.
Defined.

(** X18: of an image the alternative text is spoken.  Where the text
    before the image and the alternative text have no backtick and no [!],
    the alternative text and the address no line terminator, the text no
    []] and the address no [)] and no backtick, [removeMarkdown] gives what it
    gives for the same text with the image replaced by its alternative
    text. *)
Theorem image_keeps_its_text p bang lb alt_ rb lp url rp s :
  code bang = c_bang -> code lb = c_lbracket -> code rb = c_rbracket ->
  code lp = c_lparen -> code rp = c_rparen ->
  Forall (fun c => has_code c_backtick c = false) p ->
  Forall (fun c => has_code c_bang c = false) p ->
  Forall (fun c => has_code c_backtick c = false) alt_ ->
  Forall (fun c => has_code c_bang c = false) alt_ ->
  Forall (fun c => has_code c_backtick c = false) url ->
  Forall (fun c => is_dot c = true) alt_ -> Forall (fun c => is_dot c = true) url ->
  Forall (fun c => has_code c_rbracket c = false) alt_ ->
  Forall (fun c => has_code c_rparen c = false) url ->
  removeMarkdown (p ++ bang :: lb :: alt_ ++ rb :: lp :: url ++ rp :: s)
  = removeMarkdown (p ++ alt_ ++ s).
Proof.
  intros Hbang Hlb Hrb Hlp Hrp Hp1 Hp2 Hl1 Hl2 Hu1 Hdl Hdu Hnl Hnu.
  apply stages_from_unimaged.
  assert (Hbang1 : has_code c_backtick bang = false)
    by (unfold has_code; now rewrite Hbang).
  assert (Hlb1 : has_code c_backtick lb = false) by (unfold has_code; now rewrite Hlb).
  assert (Hrb1 : has_code c_backtick rb = false) by (unfold has_code; now rewrite Hrb).
  assert (Hlp1 : has_code c_backtick lp = false) by (unfold has_code; now rewrite Hlp).
  assert (Hrp1 : has_code c_backtick rp = false) by (unfold has_code; now rewrite Hrp).
  set (A := p ++ bang :: lb :: alt_ ++ rb :: lp :: url ++ [rp]).
  assert (EA : p ++ bang :: lb :: alt_ ++ rb :: lp :: url ++ rp :: s = A ++ s).
  { unfold A. repeat (rewrite <- ?app_assoc; cbn [app]). reflexivity. }
  assert (HA1 : Forall (fun c => has_code c_backtick c = false) A).
  { unfold A. repeat (first [apply Forall_app; split | apply Forall_cons | apply Forall_nil]); auto. }
  unfold unimaged, unfenced.
  rewrite EA.
  rewrite (@replace_global_skip _ fenceMatch (@nothing str) _ fenceMatch_first _ _ HA1).
  rewrite (app_assoc p alt_ s).
  assert (HB1 : Forall (fun c => has_code c_backtick c = false) (p ++ alt_))
    by (apply Forall_app; split; assumption).
  assert (HB2 : Forall (fun c => has_code c_bang c = false) (p ++ alt_))
    by (apply Forall_app; split; assumption).
  rewrite (@replace_global_skip _ fenceMatch (@nothing str) _ fenceMatch_first _ _ HB1).
  rewrite (@replace_global_skip _ imageMatch group _ imageMatch_first _ _ HB2).
  set (U := replace_global fenceMatch (@nothing str) s).
  unfold A. repeat (rewrite <- ?app_assoc; cbn [app]).
  rewrite (@replace_global_skip _ imageMatch group _ imageMatch_first _ _ Hp2).
  f_equal.
  pose proof (@imageMatch_image bang lb rb lp rp alt_ url U Hbang Hlb Hrb Hlp Hrp
                Hdl Hdu Hnl Hnu) as Hm.
  rewrite (@replace_global_some _ _ _ _ _ _ _ Hm (imageMatch_shorter _ Hm)).
  reflexivity.
Qed.

Lemma image_keeps_its_text_witness :
  removeMarkdown (input "a ![cat](c.png) b") = removeMarkdown (input "a cat b").
Proof.
  apply (@image_keeps_its_text (input "a ") (U16 33 Input) (U16 91 Input) (input "cat")
           (U16 93 Input) (U16 40 Input) (input "c.png") (U16 41 Input)
           (input " b")); try reflexivity; repeat constructor.
Defined.

(** ** The shape of the result *)

Lemma doubled_suffix a s : doubled s = true -> doubled (a ++ s) = true.
Proof.
  intros H. induction a as [| c a IH]; [exact H |].
  cbn [app]. destruct (a ++ s) as [| d t] eqn:E; [discriminate |].
  cbn [doubled]. cbn [doubled] in IH. rewrite IH. apply orb_true_r.
Qed.

Lemma doubled_prefix s : forall b, doubled s = true -> doubled (s ++ b) = true.
Proof.
  induction s as [| c s IH]; intros b H; [discriminate |].
  destruct s as [| d t]; [discriminate |].
  cbn [doubled] in H. apply orb_true_iff in H.
  change ((c :: d :: t) ++ b) with (c :: d :: (t ++ b)).
  cbn [doubled]. apply orb_true_iff. destruct H as [H | H]; [now left | right].
  apply (IH b H).
Qed.

Lemma trimStart_suffix s : exists a, s = a ++ trimStart s.
Proof.
  induction s as [| c s [a IH]]; [now exists [] |].
  simpl. destruct (is_space c).
  - exists (c :: a). simpl. now rewrite <- IH.
  - now exists [].
Qed.

Lemma trimEnd_prefix s : exists b, s = trimEnd s ++ b.
Proof.
  unfold trimEnd. destruct (trimStart_suffix (rev s)) as [a H].
  exists (rev a). rewrite <- rev_app_distr, <- H. now rewrite rev_involutive.
Qed.

Lemma trim_not_doubled s : doubled s = false -> doubled (trim s) = false.
Proof.
  intros H. destruct (doubled (trim s)) eqn:E; [| reflexivity].
  unfold trim in E.
  destruct (trimEnd_prefix (trimStart s)) as [b Hb].
  destruct (trimStart_suffix s) as [a Ha].
  apply (doubled_prefix _ b) in E. rewrite <- Hb in E.
  apply (doubled_suffix a) in E. rewrite <- Ha in E. congruence.
Qed.

Lemma trimStart_head s c t : trimStart s = c :: t -> is_space c = false.
Proof.
  induction s as [| x s IH]; simpl; [discriminate |].
  destruct (is_space x) eqn:Hx; [exact IH |].
  intros H. inversion H; subst. exact Hx.
Qed.

Lemma trim_ends s :
  (forall c t, trim s = c :: t -> is_space c = false)
  /\ (forall t c, trim s = t ++ [c] -> is_space c = false).
Proof.
  split.
  - intros c t H. unfold trim in H.
    destruct (trimEnd_prefix (trimStart s)) as [b Hb].
    rewrite H in Hb. apply (@trimStart_head s c ((t ++ b))). exact Hb.
  - intros t c H. unfold trim, trimEnd in H.
    apply (f_equal (@rev unit16)) in H.
    rewrite rev_involutive, rev_app_distr in H. simpl in H.
    apply (trimStart_head _ H).
Qed.

Lemma greedy_done_longest (p : unit16 -> bool) s : forall lo g x,
  greedy lo p done s = Some (g, x) -> s = g ++ x /\ stopsAt p x.
Proof.
  induction s as [| c s IH]; intros lo g x H; simpl in H.
  - apply stop_sound in H. destruct H as (_ & -> & H). inversion H. now split.
  - destruct (p c) eqn:Hp.
    + destruct (greedy (pred lo) p done s) as [[g' x'] |] eqn:Hg.
      * inversion H; subst. destruct (IH _ _ _ Hg) as [-> Hx]. now split.
      * apply stop_sound in H. destruct H as (-> & _ & _). simpl in Hg.
        exfalso. revert Hg.
        apply (@greedy_complete _ p done [] 0 s (Forall_nil _) (le_n 0)).
        discriminate.
    + apply stop_sound in H. destruct H as (_ & -> & H). inversion H; subst.
      split; [reflexivity | exact Hp].
Qed.

Lemma newlinesMatch_sound s rest :
  newlinesMatch s = Some (tt, rest) ->
  exists c d g, s = c :: d :: g ++ rest /\ has_code c_nl c = true
                /\ has_code c_nl d = true /\ stopsAt (has_code c_nl) rest.
Proof.
  unfold newlinesMatch. intros H.
  destruct (greedy 2 (has_code c_nl) done s) as [[g x] |] eqn:Hg; [| discriminate].
  inversion H; subst.
  destruct (@greedy_done_longest _ _ _ _ _ Hg) as [-> Hstop].
  apply greedy_sound in Hg. destruct Hg as (s' & E & Hk & Hall & Hlen).
  destruct g as [| c [| d g]]; simpl in Hlen; try lia.
  inversion Hall as [| ? ? Hc Hall']; subst. inversion Hall' as [| ? ? Hd _]; subst.
  exists c, d, g. repeat split; auto.
Qed.

Lemma newlinesMatch_two c d t :
  has_code c_nl c = true -> has_code c_nl d = true -> newlinesMatch (c :: d :: t) <> None.
Proof.
  intros Hc Hd. unfold newlinesMatch.
  pose proof (@greedy_complete _ (has_code c_nl) done [c; d] 2 t) as H.
  destruct (greedy 2 (has_code c_nl) done ([c; d] ++ t)) as [[g x] |] eqn:Hg.
  - cbn [app] in Hg. rewrite Hg. discriminate.
  - exfalso. apply H; auto. discriminate.
Qed.

Lemma collapsed_not_doubled s :
  doubled (replace_global newlinesMatch (fun _ => newline) s) = false.
Proof.
  enough (H : doubled (replace_global newlinesMatch (fun _ => newline) s) = false
              /\ (stopsAt (has_code c_nl) s ->
                  stopsAt (has_code c_nl)
                    (replace_global newlinesMatch (fun _ => newline) s)))
    by apply H.
  apply (@replace_global_scan _ newlinesMatch (fun _ => newline)
           (fun s r => doubled r = false
                       /\ (stopsAt (has_code c_nl) s -> stopsAt (has_code c_nl) r))).
  - now split.
  - intros c t Hm [IH1 IH2]. split; [| exact (fun H => H)].
    destruct (replace_global newlinesMatch (fun _ => newline) t) as [| d r] eqn:Er;
      [reflexivity |].
    cbn [doubled]. cbn [doubled] in IH1. rewrite IH1, orb_false_r.
    destruct (has_code c_nl c) eqn:Hc; [| reflexivity].
    destruct (has_code c_nl d) eqn:Hd; [| reflexivity].
    exfalso. destruct t as [| e t].
    + rewrite replace_global_nil in Er. discriminate.
    + destruct (has_code c_nl e) eqn:He.
      * now apply (@newlinesMatch_two c e t Hc He).
      * specialize (IH2 He). simpl in IH2. congruence.
  - intros c t [] rest Hm Hlt [IH1 IH2].
    destruct (newlinesMatch_sound _ Hm) as (c' & d' & g & E & Hc & _ & Hstop).
    inversion E; subst. split.
    + specialize (IH2 Hstop).
      destruct (replace_global newlinesMatch (fun _ => newline) rest) as [| d r] eqn:Er;
        [reflexivity |].
      change (newline ++ d :: r) with (U16 10 Markup :: d :: r).
      cbn [doubled]. cbn [doubled] in IH1. rewrite IH1, orb_false_r.
      simpl in IH2. rewrite IH2. apply andb_false_r.
    + simpl. congruence.
  - intros c t [] rest Hm Hle _.
    destruct (newlinesMatch_sound _ Hm) as (c' & d' & g & E & _).
    apply (f_equal (@length unit16)) in E. simpl in E, Hle.
    rewrite length_app in E. lia.
Qed.

Lemma last_hd_rev (s : str) d : last s d = hd d (rev s).
Proof.
  induction s as [| x l _] using rev_ind; [reflexivity |].
  now rewrite last_last, rev_app_distr.
Qed.

Lemma trim_tidyEnds s : tidyEnds (trim s) = true.
Proof.
  destruct (trim_ends s) as [H1 H2]. unfold tidyEnds.
  destruct (trim s) as [| c t] eqn:E; [reflexivity |].
  rewrite (H1 _ _ eq_refl).
  rewrite (H2 (removelast (c :: t)) (last (c :: t) c)); [reflexivity |].
  apply app_removelast_last. discriminate.
Qed.

(** X19: the shape of the text for speech.  Whatever the input,
    what [removeMarkdown] gives has no two line feeds in a row, and it neither
    starts nor ends with white space. *)
Theorem speech_text_is_tidy text :
  doubled (removeMarkdown text) = false /\ tidyEnds (removeMarkdown text) = true.
Proof.
  rewrite removeMarkdown_stages. split.
  - apply trim_not_doubled. apply collapsed_not_doubled.
  - apply trim_tidyEnds.
Qed.

(** ** Plain prose *)

Lemma space_no_mark c :
  is_space c = true ->
  is_line_mark c = false /\ is_inline_mark c = false /\ is_opener c = false.
Proof.
  intros H.
  assert (Hn : forall n, In n [33; 35; 42; 43; 45; 62; 91; 95; 96; 126]%N ->
               has_code n c = false).
  { intros n Hn. unfold has_code. apply N.eqb_neq. intros E.
    unfold is_space, has_code in H. rewrite E in H.
    simpl in Hn. repeat (destruct Hn as [<- | Hn]; [discriminate H |]). exact Hn. }
  assert (Hd : is_digit c = false).
  { unfold is_digit. destruct (N.leb 48 (code c) && N.leb (code c) 57) eqn:E;
      [| reflexivity].
    apply andb_true_iff in E. destruct E as [E1 E2].
    apply N.leb_le in E1, E2. exfalso.
    unfold is_space, has_code in H.
    repeat (apply orb_true_iff in H; destruct H as [H | H]);
      try (apply andb_true_iff in H; destruct H as [H1 H2];
           apply N.leb_le in H1, H2; lia);
      apply N.eqb_eq in H; lia. }
  unfold is_line_mark, is_inline_mark, is_opener, is_marker,
    c_hash, c_gt, c_dash, c_star, c_plus, c_backtick, c_lbracket, c_underscore,
    c_tilde, c_bang.
  rewrite Hd, !Hn by (simpl; tauto). auto.
Qed.

Lemma startOk_head ok c t :
  (is_space c = true -> ok c = true) -> startOk ok (c :: t) = true -> ok c = true.
Proof.
  unfold startOk. simpl. destruct (is_space c); auto.
Qed.

Lemma startOk_impl (ok ok' : unit16 -> bool) s :
  (forall c, ok c = true -> ok' c = true) -> startOk ok s = true -> startOk ok' s = true.
Proof. unfold startOk. destruct (trimStart s); auto. Qed.

Lemma linesStartWith_impl (ok ok' : unit16 -> bool) s :
  (forall c, ok c = true -> ok' c = true) ->
  forall bol, linesStartWith ok bol s = true -> linesStartWith ok' bol s = true.
Proof.
  intros Hok. induction s as [| c s IH]; intros bol H; simpl in *;
    apply andb_true_iff in H; destruct H as [H1 H2]; apply andb_true_iff; split; auto;
    destruct bol; auto; revert H1; now apply startOk_impl.
Qed.

(** Where every line starts well for an expression with [^], the
    expression matches nowhere. *)
Lemma lines_nowhere (G : Type) (m : bool -> str -> option (G * str)) ok :
  (forall s, m false s = None) ->
  (forall s, startOk ok s = true -> m true s = None) ->
  forall s bol, linesStartWith ok bol s = true -> matchesNowhere m bol s.
Proof.
  intros Hf Ht. induction s as [| c s IH]; intros bol H; simpl in H;
    apply andb_true_iff in H; destruct H as [H1 H2]; simpl; split; auto;
    destruct bol; auto.
Qed.

Lemma headingMark_none s : startOk (notCode c_hash) s = true -> headingMark true s = None.
Proof.
  destruct s as [| c t]; [reflexivity |]. intros H.
  apply startOk_head in H.
  - unfold notCode in H. apply negb_true_iff in H.
    unfold headingMark, atLineStart. simpl. now rewrite H.
  - intros Hc. destruct (space_no_mark _ Hc) as (Hm & _).
    unfold is_line_mark in Hm. apply orb_false_iff in Hm. destruct Hm as [Hm _].
    apply orb_false_iff in Hm. destruct Hm as [Hm _].
    apply orb_false_iff in Hm. destruct Hm as [Hm _].
    unfold notCode. now rewrite Hm.
Qed.

Lemma quoteMark_none s : startOk (notCode c_gt) s = true -> quoteMark true s = None.
Proof.
  destruct s as [| c t]; [reflexivity |]. intros H.
  apply startOk_head in H.
  - unfold notCode in H. apply negb_true_iff in H.
    unfold quoteMark, atLineStart. simpl. now rewrite H.
  - intros Hc. destruct (space_no_mark _ Hc) as (Hm & _).
    unfold is_line_mark in Hm. apply orb_false_iff in Hm. destruct Hm as [Hm _].
    apply orb_false_iff in Hm. destruct Hm as [Hm _].
    apply orb_false_iff in Hm. destruct Hm as [_ Hm].
    unfold notCode. now rewrite Hm.
Qed.

Lemma ruleMark_none s : startOk (notCode c_dash) s = true -> ruleMark true s = None.
Proof.
  destruct s as [| c t]; [reflexivity |]. intros H.
  apply startOk_head in H.
  - unfold notCode in H. apply negb_true_iff in H.
    unfold ruleMark, atLineStart. simpl. now rewrite H.
  - intros Hc. destruct (space_no_mark _ Hc) as (Hm & _).
    unfold is_line_mark, is_marker in Hm.
    apply orb_false_iff in Hm. destruct Hm as [Hm _].
    apply orb_false_iff in Hm. destruct Hm as [_ Hm].
    apply orb_false_iff in Hm. destruct Hm as [Hm _].
    apply orb_false_iff in Hm. destruct Hm as [Hm _].
    unfold notCode. now rewrite Hm.
Qed.

(** After white space at the start of [s] comes more white space or the
    first visible character. *)
Lemma after_spaces ok g : forall s c t,
  s = g ++ c :: t -> Forall (fun x => is_space x = true) g ->
  (is_space c = true -> ok c = true) ->
  startOk ok s = true -> ok c = true.
Proof.
  induction g as [| x g IH]; intros s c t -> Hg Hc H.
  - now apply (@startOk_head ok c t).
  - inversion Hg as [| ? ? Hx Hg']; subst.
    apply (IH (g ++ c :: t) c t eq_refl Hg' Hc).
    unfold startOk in *. simpl in H. now rewrite Hx in H.
Qed.

Lemma bulletMark_none s :
  startOk (fun c => negb (is_marker c)) s = true -> bulletMark true s = None.
Proof.
  intros H. unfold bulletMark, atLineStart.
  rewrite greedy_fails; [reflexivity |].
  intros g t -> Hg. destruct t as [| c t]; [reflexivity |].
  assert (Hc : negb (is_marker c) = true).
  { apply (@after_spaces (fun c => negb (is_marker c)) g _ c t eq_refl Hg); [| exact H].
    intros Hs. destruct (space_no_mark _ Hs) as (Hm & _).
    unfold is_line_mark in Hm. apply orb_false_iff in Hm. destruct Hm as [Hm _].
    apply orb_false_iff in Hm. destruct Hm as [_ Hm]. now rewrite Hm. }
  apply negb_true_iff in Hc. simpl. now rewrite Hc.
Qed.

Lemma numberMark_none s :
  startOk (fun c => negb (is_digit c)) s = true -> numberMark true s = None.
Proof.
  intros H. unfold numberMark, atLineStart.
  rewrite greedy_fails; [reflexivity |].
  intros g t -> Hg. destruct t as [| c t]; [reflexivity |].
  assert (Hc : negb (is_digit c) = true).
  { apply (@after_spaces (fun c => negb (is_digit c)) g _ c t eq_refl Hg); [| exact H].
    intros Hs. destruct (space_no_mark _ Hs) as (Hm & _).
    unfold is_line_mark in Hm. apply orb_false_iff in Hm. destruct Hm as [_ Hm].
    now rewrite Hm. }
  apply negb_true_iff in Hc. simpl. now rewrite Hc.
Qed.

Lemma imageMatch_no_bracket s :
  Forall (fun c => has_code c_lbracket c = false) s -> imageMatch s = None.
Proof.
  intros H. unfold imageMatch. destruct s as [| c [| d t]]; simpl.
  - reflexivity.
  - now destruct (has_code c_bang c).
  - inversion H as [| ? ? _ H']; subst. inversion H' as [| ? ? Hd _]; subst.
    rewrite Hd. now destruct (has_code c_bang c).
Qed.

Lemma newlinesMatch_nowhere s :
  doubled s = false -> forall a b, s = a ++ b -> newlinesMatch b = None.
Proof.
  intros H a b ->. destruct (newlinesMatch b) as [[[] rest] |] eqn:Hm; [| reflexivity].
  destruct (newlinesMatch_sound _ Hm) as (c & d & g & -> & Hc & Hd & _).
  rewrite doubled_suffix in H; [discriminate |].
  cbn [app doubled]. now rewrite Hc, Hd.
Qed.

Lemma trim_tidy s : tidyEnds s = true -> trim s = s.
Proof.
  destruct s as [| c t]; [reflexivity |]. unfold tidyEnds. intros H.
  apply andb_true_iff in H. destruct H as [H1 H2].
  apply negb_true_iff in H1, H2.
  unfold trim. replace (trimStart (c :: t)) with (c :: t) by (simpl; now rewrite H1).
  unfold trimEnd. rewrite last_hd_rev in H2.
  destruct (rev (c :: t)) as [| x r] eqn:E.
  - apply (f_equal (@rev unit16)) in E. rewrite rev_involutive in E. discriminate.
  - simpl in H2. simpl trimStart. rewrite H2. rewrite <- E. apply rev_involutive.
Qed.

Lemma Forall_inline_split (s : str) :
  Forall (fun c => is_inline_mark c = false) s ->
  Forall (fun c => has_code c_backtick c = false) s
  /\ Forall (fun c => has_code c_lbracket c = false) s
  /\ Forall (fun c => has_code c_star c || has_code c_underscore c = false) s
  /\ Forall (fun c => has_code c_tilde c = false) s.
Proof.
  intros H. repeat split; eapply Forall_impl; try exact H; intros c Hc;
    unfold is_inline_mark in Hc;
    apply orb_false_iff in Hc; destruct Hc as [Hc H5];
    apply orb_false_iff in Hc; destruct Hc as [Hc H4];
    apply orb_false_iff in Hc; destruct Hc as [Hc H3];
    apply orb_false_iff in Hc; destruct Hc as [H1 H2]; try assumption.
  now rewrite H3, H4.
Qed.

(** The first three and the three replacements of emphasis leave a text
    without inline marks as it is. *)
Lemma inline_stages_id (s : str) :
  Forall (fun c => is_inline_mark c = false) s ->
  replace_global linkMatch (fun g => fst g)
    (replace_global imageMatch group (replace_global fenceMatch (@nothing str) s)) = s
  /\ replace_global delMatch group
       (replace_global emMatch group (replace_global strongMatch group s)) = s.
Proof.
  intros H. destruct (Forall_inline_split H) as (H1 & H2 & H3 & H4). split.
  - rewrite (@replace_global_id _ fenceMatch (@nothing str) _ fenceMatch_first _ H1).
    rewrite (@replace_global_nowhere _ imageMatch group s).
    + apply (@replace_global_id _ linkMatch (fun g => fst g) _ linkMatch_first _ H2).
    + intros a b ->. apply imageMatch_no_bracket. apply Forall_app in H2. tauto.
  - rewrite (@replace_global_id _ strongMatch group _ strongMatch_first _ H3).
    rewrite (@replace_global_id _ emMatch group _ emMatch_first _ H3).
    apply (@replace_global_id _ delMatch group _ delMatch_first _ H4).
Qed.

(** X20: plain prose is spoken as it is written.  A text without
    backtick, [[], [*], [_] and [~], in which the first visible character
    after the start of a line is none of [#], [>], [-], [*], [+] and no digit,
    without two line feeds in a row and without white space at its ends, is
    what [removeMarkdown] gives for it. *)
Theorem prose_is_spoken_as_written text :
  Forall (fun c => is_inline_mark c = false) text ->
  linesStartWith (fun c => negb (is_line_mark c)) true text = true ->
  doubled text = false ->
  tidyEnds text = true ->
  removeMarkdown text = text.
Proof.
  intros Hin Hl Hd Ht. rewrite removeMarkdown_stages.
  destruct (inline_stages_id Hin) as [E1 E2].
  assert (L : forall ok, (forall c, is_line_mark c = false -> ok c = true) ->
              linesStartWith ok true text = true).
  { intros ok Hok. revert Hl. apply linesStartWith_impl.
    intros c Hc. apply Hok. now apply negb_true_iff. }
  unfold collapsed, unruled, unnumbered, unbulleted, unquoted, unstruck, unslanted,
    unbolded, unheaded, unlinked, unimaged, unfenced.
  rewrite E1.
  rewrite (@replace_lines_id _ headingMark (@nothing unit) text true).
  2:{ apply (@lines_nowhere _ headingMark (notCode c_hash)); auto using headingMark_none.
      apply L. intros c Hc. unfold is_line_mark in Hc. unfold notCode.
      destruct (has_code c_hash c); [discriminate | reflexivity]. }
  rewrite E2.
  rewrite (@replace_lines_id _ quoteMark (@nothing unit) text true).
  2:{ apply (@lines_nowhere _ quoteMark (notCode c_gt)); auto using quoteMark_none.
      apply L. intros c Hc. unfold is_line_mark in Hc. unfold notCode.
      destruct (has_code c_gt c); [| reflexivity].
      rewrite orb_true_r in Hc. discriminate. }
  rewrite (@replace_lines_id _ bulletMark (@nothing unit) text true).
  2:{ apply (@lines_nowhere _ bulletMark (fun c => negb (is_marker c)));
        auto using bulletMark_none.
      apply L. intros c Hc. unfold is_line_mark in Hc.
      destruct (is_marker c); [| reflexivity].
      rewrite orb_true_r in Hc. discriminate. }
  rewrite (@replace_lines_id _ numberMark (@nothing unit) text true).
  2:{ apply (@lines_nowhere _ numberMark (fun c => negb (is_digit c)));
        auto using numberMark_none.
      apply L. intros c Hc. unfold is_line_mark in Hc.
      destruct (is_digit c); [| reflexivity].
      rewrite orb_true_r in Hc. discriminate. }
  rewrite (@replace_lines_id _ ruleMark (@nothing unit) text true).
  2:{ apply (@lines_nowhere _ ruleMark (notCode c_dash)); auto using ruleMark_none.
      apply L. intros c Hc. unfold is_line_mark, is_marker in Hc. unfold notCode.
      destruct (has_code c_dash c); [| reflexivity].
      simpl in Hc. rewrite !orb_true_r in Hc. discriminate. }
  rewrite (@replace_global_nowhere _ newlinesMatch (fun _ => newline) text
             (newlinesMatch_nowhere Hd)).
  apply trim_tidy. exact Ht.
Qed.

Lemma prose_is_spoken_as_written_witness :
  removeMarkdown (textOf ["Hello, world!"; "It is 2 + 2 = 4 - isn't it?"]%string)
  = textOf ["Hello, world!"; "It is 2 + 2 = 4 - isn't it?"]%string.
Proof.
  apply prose_is_spoken_as_written; try reflexivity.
  repeat constructor.
Defined.

(** ** Headings *)

Lemma replace_lines_skip (G : Type) (m : bool -> str -> option (G * str)) repl
  (T : unit16 -> bool) :
  (forall bol c t, T c = false -> m bol (c :: t) = None) ->
  forall a b bol, Forall (fun c => T c = false) a ->
  replace_lines m repl bol (a ++ b) = a ++ replace_lines m repl (lineStartAfter bol a) b.
Proof.
  intros Hm a b. induction a as [| c a IH]; intros bol Ha; [reflexivity |].
  inversion Ha as [| ? ? Hc Ha']; subst. cbn [app].
  rewrite replace_lines_none by (apply Hm; exact Hc).
  now rewrite IH.
Qed.

(** Where the expression does not match, it does not matter whether the
    place is the start of a line. *)
Lemma replace_lines_bol (G : Type) (m : bool -> str -> option (G * str)) repl s b1 b2 :
  m b1 s = None -> m b2 s = None ->
  replace_lines m repl b1 s = replace_lines m repl b2 s.
Proof.
  destruct s as [| c s]; intros H1 H2.
  - now rewrite !replace_lines_nil.
  - now rewrite !replace_lines_none.
Qed.

Lemma headingMark_first bol c t : has_code c_hash c = false -> headingMark bol (c :: t) = None.
Proof.
  intros H. unfold headingMark, atLineStart. destruct bol; [| reflexivity].
  simpl. now rewrite H.
Qed.

Lemma headingMark_stop bol t :
  stopsAt (fun c => is_space c || has_code c_hash c) t -> headingMark bol t = None.
Proof.
  destruct t as [| c t]; intros H.
  - now destruct bol.
  - simpl in H. apply orb_false_iff in H. now apply headingMark_first.
Qed.

Lemma headingMark_heading hs sp t :
  Forall (fun c => has_code c_hash c = true) hs -> 1 <= length hs <= 6 ->
  Forall (fun c => is_space c = true) sp -> sp <> [] ->
  stopsAt (fun c => is_space c || has_code c_hash c) t ->
  headingMark true (hs ++ sp ++ t) = Some (tt, t).
Proof.
  intros Hh Hlen Hs Hne Ht. unfold headingMark, atLineStart.
  rewrite (@greedy_upto_run _ (has_code c_hash) _ hs 1 5 (sp ++ t) (sp, t));
    [reflexivity | exact Hh | lia | |].
  - apply greedy_run; auto.
    + destruct sp; [congruence | simpl; lia].
    + destruct t as [| c t]; simpl in *; [exact I |].
      apply orb_false_iff in Ht. tauto.
  - destruct sp as [| x sp]; [congruence |]. simpl.
    inversion Hs as [| ? ? Hx _]; subst.
    destruct (space_no_mark _ Hx) as (Hm & _).
    unfold is_line_mark in Hm. apply orb_false_iff in Hm. destruct Hm as [Hm _].
    apply orb_false_iff in Hm. destruct Hm as [Hm _].
    apply orb_false_iff in Hm. tauto.
Qed.

Lemma unlinked_id text : Forall (fun c => is_opener c = false) text -> unlinked text = text.
Proof.
  intros H. destruct (Forall_opener_split H) as (H1 & H2 & H3).
  unfold unlinked, unimaged, unfenced.
  rewrite (@replace_global_id _ fenceMatch (@nothing str) _ fenceMatch_first _ H1).
  rewrite (@replace_global_id _ imageMatch group _ imageMatch_first _ H2).
  apply (@replace_global_id _ linkMatch (fun g => fst g) _ linkMatch_first _ H3).
Qed.

(** X21: the mark of a heading is not spoken.  At the start of a line,
    one to six [#] followed by white space, in front of a text that starts
    with neither of them, can be taken out without changing what
    [removeMarkdown] gives, where the text has no backtick, [!] and [[] and
    what stands before the heading no [#] either. *)
Theorem heading_mark_is_not_spoken p hs sp t :
  Forall (fun c => is_opener c = false) p ->
  Forall (fun c => has_code c_hash c = false) p ->
  lineStartAfter true p = true ->
  Forall (fun c => has_code c_hash c = true) hs -> 1 <= length hs <= 6 ->
  Forall (fun c => is_space c = true) sp -> sp <> [] ->
  Forall (fun c => is_opener c = false) t ->
  stopsAt (fun c => is_space c || has_code c_hash c) t ->
  removeMarkdown (p ++ hs ++ sp ++ t) = removeMarkdown (p ++ t).
Proof.
  intros Hp Hph Hbol Hh Hlen Hs Hne Ht Hstop.
  apply stages_from_unheaded. unfold unheaded.
  assert (Ho : Forall (fun c => is_opener c = false) (p ++ hs ++ sp ++ t)).
  { repeat (apply Forall_app; split); auto.
    - eapply Forall_impl; [| exact Hh]. intros c Hc. simpl in Hc.
      unfold has_code in Hc. apply N.eqb_eq in Hc.
      unfold is_opener, has_code. now rewrite Hc.
    - eapply Forall_impl; [| exact Hs]. intros c Hc. now apply space_no_mark. }
  rewrite (unlinked_id Ho).
  rewrite (@unlinked_id (p ++ t)) by (apply Forall_app; split; assumption).
  rewrite !(@replace_lines_skip _ headingMark (@nothing unit) _ headingMark_first _ _ _ Hph).
  rewrite Hbol. f_equal.
  pose proof (@headingMark_heading hs sp t Hh Hlen Hs Hne Hstop) as Hm.
  destruct hs as [| h hs]; [simpl in Hlen; lia |].
  cbn [app] in *.
  rewrite (@replace_lines_some _ _ _ _ _ _ _ _ Hm).
  - apply replace_lines_bol; now apply headingMark_stop.
  - simpl. rewrite !length_app. destruct sp; [congruence | simpl; lia].
Qed.

Lemma heading_mark_is_not_spoken_witness :
  removeMarkdown (textOf ["Intro"; "## Next **part**"; "- one"]%string)
  = removeMarkdown (textOf ["Intro"; "Next **part**"; "- one"]%string).
Proof.
  apply (@heading_mark_is_not_spoken (input "Intro" ++ [U16 c_nl Input]) (input "##")
           (input " ") (input "Next **part**" ++ U16 c_nl Input :: input "- one"));
    try reflexivity; try (repeat constructor); try (simpl; lia); discriminate.
Defined.

(** ** Marks at the start of a line *)

Lemma line_terminator_space c : is_line_terminator c = true -> is_space c = true.
Proof.
  unfold is_line_terminator, is_space, has_code. intros H.
  repeat (apply orb_true_iff in H; destruct H as [H | H]);
    apply N.eqb_eq in H; rewrite H; reflexivity.
Qed.

Lemma visible_not_terminator c : is_space c = false -> is_line_terminator c = false.
Proof.
  intros H. destruct (is_line_terminator c) eqn:E; [| reflexivity].
  apply line_terminator_space in E. congruence.
Qed.

Lemma lineStartAfter_last bol a c : lineStartAfter bol (a ++ [c]) = is_line_terminator c.
Proof. unfold lineStartAfter. now rewrite fold_left_app. Qed.

Lemma startOk_app ok a b : endsVisible a = true -> startOk ok (a ++ b) = startOk ok a.
Proof.
  unfold startOk. induction a as [| c a IH]; [discriminate |]. intros H.
  cbn [app trimStart]. destruct (is_space c) eqn:Hc; [| reflexivity].
  destruct a as [| d a]; [simpl in H; rewrite Hc in H; discriminate |].
  apply IH. exact H.
Qed.

Lemma startOk_all ok s : Forall (fun c => ok c = true) s -> startOk ok s = true.
Proof.
  unfold startOk. destruct (trimStart_suffix s) as [a E]. intros H.
  rewrite E in H. apply Forall_app in H. destruct H as [_ H].
  destruct (trimStart s); [reflexivity | now inversion H].
Qed.

Lemma linesStartWith_all ok s : forall bol,
  Forall (fun c => ok c = true) s -> linesStartWith ok bol s = true.
Proof.
  induction s as [| c s IH]; intros bol H; simpl; apply andb_true_iff; split; auto.
  - destruct bol; [apply startOk_all; exact H | reflexivity].
  - destruct bol; [apply startOk_all; exact H | reflexivity].
  - apply IH. now inversion H.
Qed.

Section LineStage.
Variable m : bool -> str -> option (unit * str).
Variable ok : unit16 -> bool.
Hypothesis m_inside : forall s, m false s = None.
Hypothesis m_start : forall s, startOk ok s = true -> m true s = None.

(** Lines that start well and end with a visible character are copied,
    whatever follows them. *)
Lemma replace_lines_skip_lines a : forall b bol,
  linesStartWith ok bol a = true -> endsVisible a = true ->
  replace_lines m (@nothing unit) bol (a ++ b)
  = a ++ replace_lines m (@nothing unit) false b.
Proof.
  induction a as [| c a IH]; intros b bol Hl He; [discriminate |].
  assert (Hm : m bol ((c :: a) ++ b) = None).
  { destruct bol; [| apply m_inside]. apply m_start.
    rewrite startOk_app by exact He.
    simpl in Hl. apply andb_true_iff in Hl. tauto. }
  cbn [app] in *. rewrite replace_lines_none by exact Hm. f_equal.
  simpl in Hl. apply andb_true_iff in Hl. destruct Hl as [_ Hl].
  destruct a as [| d a].
  - simpl in He. apply negb_true_iff in He.
    now rewrite (visible_not_terminator _ He).
  - apply IH; assumption.
Qed.

Hypothesis ok_plain : forall c, is_line_mark c = false -> ok c = true.

Lemma replace_lines_before p X :
  linesBefore p ->
  replace_lines m (@nothing unit) true (p ++ X)
  = p ++ replace_lines m (@nothing unit) true X.
Proof.
  intros [-> | (q & lt & -> & Hlt & He & Hl)]; [reflexivity |].
  rewrite <- !app_assoc. cbn [app].
  rewrite replace_lines_skip_lines; auto.
  - rewrite replace_lines_none by apply m_inside. now rewrite Hlt.
  - revert Hl. apply linesStartWith_impl. intros c Hc. apply ok_plain.
    now apply negb_true_iff.
Qed.

(** The stage leaves the lines before the mark, the mark and the first
    character after it as they are, with and without the mark. *)
Lemma line_stage_passes p M c u :
  linesBefore p -> Forall (fun x => ok x = true) M -> ok c = true ->
  is_space c = false ->
  replace_lines m (@nothing unit) true (p ++ M ++ c :: u)
  = p ++ M ++ c :: replace_lines m (@nothing unit) false u
  /\ replace_lines m (@nothing unit) true (p ++ c :: u)
     = p ++ c :: replace_lines m (@nothing unit) false u.
Proof.
  intros Hp HM Hc Hs.
  rewrite (@replace_lines_before p (M ++ c :: u) Hp), (@replace_lines_before p (c :: u) Hp).
  split; f_equal.
  - change (M ++ c :: u) with (M ++ [c] ++ u). rewrite app_assoc.
    rewrite replace_lines_skip_lines.
    + now rewrite <- app_assoc.
    + apply linesStartWith_all. apply Forall_app. split; [exact HM | now constructor].
    + clear HM. induction M as [| x M IH]; [simpl; now rewrite Hs |].
      cbn [app]. destruct (M ++ [c]) eqn:E; [now destruct M |]. exact IH.
  - change (c :: u) with ([c] ++ u).
    rewrite replace_lines_skip_lines; [reflexivity | |].
    + apply linesStartWith_all. now constructor.
    + simpl. now rewrite Hs.
Qed.
(** The stage takes out a mark that it matches at the start of a line, in
    front of a visible character at which it does not match. *)
Lemma line_stage_matches p M c u :
  linesBefore p -> M <> [] -> m true (M ++ c :: u) = Some (tt, c :: u) ->
  ok c = true -> is_space c = false ->
  replace_lines m (@nothing unit) true (p ++ M ++ c :: u)
  = p ++ c :: replace_lines m (@nothing unit) false u.
Proof.
  intros Hp HM Hm Hc Hs. rewrite (@replace_lines_before p (M ++ c :: u) Hp). f_equal.
  destruct M as [| x M]; [congruence |]. cbn [app] in *.
  rewrite (@replace_lines_some _ _ _ _ _ _ _ _ Hm)
    by (simpl; rewrite length_app; simpl; lia).
  cbn [nothing app].
  rewrite replace_lines_none.
  - now rewrite (visible_not_terminator _ Hs).
  - match goal with |- m ?b _ = None => destruct b end; [| apply m_inside].
    apply m_start. unfold startOk. simpl. now rewrite Hs.
Qed.

(** The same where the match leaves what stands in [R], which the stage
    copies. *)
Lemma line_stage_cuts p M R c u :
  linesBefore p -> M <> [] -> m true (M ++ R ++ c :: u) = Some (tt, R ++ c :: u) ->
  Forall (fun x => ok x = true) R -> ok c = true -> is_space c = false ->
  replace_lines m (@nothing unit) true (p ++ M ++ R ++ c :: u)
  = p ++ R ++ c :: replace_lines m (@nothing unit) false u.
Proof.
  intros Hp HM Hm HR Hc Hs.
  rewrite (@replace_lines_before p (M ++ R ++ c :: u) Hp). f_equal.
  destruct M as [| x M]; [congruence |]. cbn [app] in *.
  rewrite (@replace_lines_some _ _ _ _ _ _ _ _ Hm)
    by (simpl; rewrite !length_app; simpl; lia).
  cbn [nothing app].
  match goal with |- replace_lines _ _ ?b _ = _ => generalize b; intros b' end.
  change (R ++ c :: u) with (R ++ [c] ++ u). rewrite (app_assoc R [c] u).
  rewrite (@replace_lines_skip_lines (R ++ [c]) u b').
  - now rewrite <- app_assoc.
  - apply linesStartWith_all. apply Forall_app. split; [exact HR | now constructor].
  - clear HR Hm. induction R as [| y R IH]; [simpl; now rewrite Hs |].
    cbn [app]. destruct (R ++ [c]) eqn:E; [now destruct R |]. exact IH.
Qed.

(** The stage passes a line at whose first character it does not match
    although the character could start a mark. *)
Lemma line_stage_passes_from p x A c u :
  linesBefore p -> m true (x :: A ++ c :: u) = None ->
  is_line_terminator x = false ->
  linesStartWith ok false (A ++ [c]) = true -> is_space c = false ->
  replace_lines m (@nothing unit) true (p ++ x :: A ++ c :: u)
  = p ++ x :: A ++ c :: replace_lines m (@nothing unit) false u.
Proof.
  intros Hp Hm Hx HA Hs.
  rewrite (@replace_lines_before p (x :: A ++ c :: u) Hp). f_equal.
  rewrite replace_lines_none by exact Hm. f_equal. rewrite Hx.
  change (A ++ c :: u) with (A ++ [c] ++ u). rewrite app_assoc.
  rewrite replace_lines_skip_lines; [now rewrite <- app_assoc | exact HA |].
  clear HA Hm. induction A as [| y A IH]; [simpl; now rewrite Hs |].
  cbn [app]. destruct (A ++ [c]) eqn:E; [now destruct A |]. exact IH.
Qed.
End LineStage.

Lemma global_stage_passes (G : Type) (m : str -> option (G * str)) repl
  (T : unit16 -> bool) p M c u :
  (forall c t, T c = false -> m (c :: t) = None) ->
  Forall (fun x => T x = false) p -> Forall (fun x => T x = false) M -> T c = false ->
  replace_global m repl (p ++ M ++ c :: u) = p ++ M ++ c :: replace_global m repl u
  /\ replace_global m repl (p ++ c :: u) = p ++ c :: replace_global m repl u.
Proof.
  intros Hm Hp HM Hc. split.
  - replace (p ++ M ++ c :: u) with ((p ++ M ++ [c]) ++ u)
      by (now rewrite <- !app_assoc).
    rewrite (@replace_global_skip _ m repl T Hm).
    + now rewrite <- !app_assoc.
    + repeat (apply Forall_app; split); auto.
  - replace (p ++ c :: u) with ((p ++ [c]) ++ u) by (now rewrite <- !app_assoc).
    rewrite (@replace_global_skip _ m repl T Hm).
    + now rewrite <- !app_assoc.
    + apply Forall_app; split; auto.
Qed.

Lemma plain_char_classes c :
  is_plain_char c = true ->
  is_opener c = false /\ is_inline_mark c = false /\ is_line_mark c = false.
Proof.
  unfold is_plain_char. intros H. apply negb_true_iff in H.
  apply orb_false_iff in H. destruct H as [H H3].
  apply orb_false_iff in H. tauto.
Qed.

Lemma line_mark_classes c :
  is_line_mark c = false ->
  has_code c_hash c = false /\ has_code c_gt c = false /\ is_marker c = false
  /\ is_digit c = false /\ has_code c_dash c = false.
Proof.
  unfold is_line_mark. intros H.
  apply orb_false_iff in H. destruct H as [H H4].
  apply orb_false_iff in H. destruct H as [H H3].
  apply orb_false_iff in H. destruct H as [H1 H2].
  repeat split; auto.
  unfold is_marker in H3. apply orb_false_iff in H3. destruct H3 as [H3 _].
  apply orb_false_iff in H3. tauto.
Qed.

Lemma headingMark_inside s : headingMark false s = None.
Proof. reflexivity. Qed.

Lemma quoteMark_inside s : quoteMark false s = None.
Proof. reflexivity. Qed.

Lemma bulletMark_inside s : bulletMark false s = None.
Proof. reflexivity. Qed.

Lemma numberMark_inside s : numberMark false s = None.
Proof. reflexivity. Qed.

Lemma notCode_hash_plain c : is_line_mark c = false -> notCode c_hash c = true.
Proof. intros H. unfold notCode. now rewrite (proj1 (@line_mark_classes _ H)). Qed.

Lemma notCode_gt_plain c : is_line_mark c = false -> notCode c_gt c = true.
Proof.
  intros H. unfold notCode. destruct (@line_mark_classes _ H) as (_ & -> & _). reflexivity.
Qed.

Lemma not_marker_plain c : is_line_mark c = false -> negb (is_marker c) = true.
Proof.
  intros H. destruct (@line_mark_classes _ H) as (_ & _ & -> & _). reflexivity.
Qed.

Lemma not_digit_plain c : is_line_mark c = false -> negb (is_digit c) = true.
Proof.
  intros H. destruct (@line_mark_classes _ H) as (_ & _ & _ & -> & _). reflexivity.
Qed.

Lemma early_mark_classes c :
  is_early_mark c = false ->
  has_code c_backtick c = false /\ has_code c_bang c = false
  /\ has_code c_lbracket c = false
  /\ has_code c_star c || has_code c_underscore c = false
  /\ has_code c_tilde c = false /\ has_code c_hash c = false.
Proof.
  unfold is_early_mark, is_opener, is_inline_mark. intros H.
  repeat (apply orb_false_iff in H; destruct H as [H ?]).
  repeat match goal with H : _ || _ = false |- _ =>
    apply orb_false_iff in H; destruct H end.
  repeat split; auto. apply orb_false_iff. split; assumption.
Qed.

Lemma space_early c : is_space c = true -> is_early_mark c = false.
Proof.
  intros H. destruct (space_no_mark _ H) as (H1 & H2 & H3).
  unfold is_early_mark. rewrite H2, H3. simpl.
  apply (proj1 (@line_mark_classes _ H1)).
Qed.

Lemma plain_char_early c : is_plain_char c = true -> is_early_mark c = false.
Proof.
  intros H. destruct (plain_char_classes _ H) as (H1 & H2 & H3).
  unfold is_early_mark. rewrite H1, H2. simpl.
  apply (proj1 (@line_mark_classes _ H3)).
Qed.

(** The first seven replacements leave the lines before a mark, the mark
    and the first character after it as they are. *)
Lemma early_stages_pass p M c u :
  linesBefore p ->
  Forall (fun x => is_opener x || is_inline_mark x = false) p ->
  Forall (fun x => is_early_mark x = false) M ->
  is_plain_char c = true -> is_space c = false ->
  exists u', unstruck (p ++ M ++ c :: u) = p ++ M ++ c :: u'
             /\ unstruck (p ++ c :: u) = p ++ c :: u'.
Proof.
  intros Hp Hq HM Hc Hs.
  pose proof (plain_char_early _ Hc) as Hce.
  destruct (plain_char_classes _ Hc) as (_ & _ & Hcl).
  destruct (early_mark_classes _ Hce) as (C1 & C2 & C3 & C4 & C5 & C6).
  assert (HMs : forall T : unit16 -> bool,
            (forall x, is_early_mark x = false -> T x = false) ->
            Forall (fun x => T x = false) M).
  { intros T HT. eapply Forall_impl; [| exact HM]. intros x Hx. now apply HT. }
  assert (Hps : forall T : unit16 -> bool,
            (forall x, is_opener x || is_inline_mark x = false -> T x = false) ->
            Forall (fun x => T x = false) p).
  { intros T HT. eapply Forall_impl; [| exact Hq]. intros x Hx. now apply HT. }
  unfold unstruck, unslanted, unbolded, unheaded, unlinked, unimaged, unfenced.
  destruct (@global_stage_passes _ fenceMatch (@nothing str) (has_code c_backtick)
              p M c u fenceMatch_first) as [E1 E2]; auto.
  { apply Hps. intros x Hx. unfold is_opener, is_inline_mark in Hx.
    repeat (apply orb_false_iff in Hx; destruct Hx as [Hx ?]). assumption. }
  { apply HMs. intros x Hx. apply (early_mark_classes _ Hx). }
  rewrite E1, E2. clear E1 E2.
  set (u1 := replace_global fenceMatch (@nothing str) u).
  destruct (@global_stage_passes _ imageMatch group (has_code c_bang)
              p M c u1 imageMatch_first) as [E1 E2]; auto.
  { apply Hps. intros x Hx. unfold is_opener, is_inline_mark in Hx.
    repeat (apply orb_false_iff in Hx; destruct Hx as [Hx ?]).
    repeat match goal with H : _ || _ = false |- _ =>
      apply orb_false_iff in H; destruct H end. assumption. }
  { apply HMs. intros x Hx. apply (early_mark_classes _ Hx). }
  rewrite E1, E2. clear E1 E2.
  set (u2 := replace_global imageMatch group u1).
  destruct (@global_stage_passes _ linkMatch (fun g => fst g) (has_code c_lbracket)
              p M c u2 linkMatch_first) as [E1 E2]; auto.
  { apply Hps. intros x Hx. unfold is_opener, is_inline_mark in Hx.
    repeat (apply orb_false_iff in Hx; destruct Hx as [Hx ?]).
    repeat match goal with H : _ || _ = false |- _ =>
      apply orb_false_iff in H; destruct H end. assumption. }
  { apply HMs. intros x Hx. apply (early_mark_classes _ Hx). }
  rewrite E1, E2. clear E1 E2.
  set (u3 := replace_global linkMatch (fun g => fst g) u2).
  destruct (@line_stage_passes headingMark (notCode c_hash) headingMark_inside
              headingMark_none notCode_hash_plain p M c u3) as [E1 E2]; auto.
  { eapply Forall_impl; [| exact HM]. intros x Hx. unfold notCode.
    destruct (early_mark_classes _ Hx) as (_ & _ & _ & _ & _ & ->). reflexivity. }
  { unfold notCode. now rewrite C6. }
  rewrite E1, E2. clear E1 E2.
  set (u4 := replace_lines headingMark (@nothing unit) false u3).
  assert (Hstar : forall x, is_opener x || is_inline_mark x = false ->
                  has_code c_star x || has_code c_underscore x = false
                  /\ has_code c_tilde x = false).
  { intros x Hx. unfold is_opener, is_inline_mark in Hx.
    repeat (apply orb_false_iff in Hx; destruct Hx as [Hx ?]).
    repeat match goal with H : _ || _ = false |- _ =>
      apply orb_false_iff in H; destruct H end.
    split; [apply orb_false_iff; split |]; assumption. }
  destruct (@global_stage_passes _ strongMatch group
              (fun x => has_code c_star x || has_code c_underscore x)
              p M c u4 strongMatch_first) as [E1 E2]; auto.
  { apply Hps. intros x Hx. apply (Hstar _ Hx). }
  { apply HMs. intros x Hx. apply (early_mark_classes _ Hx). }
  rewrite E1, E2. clear E1 E2.
  set (u5 := replace_global strongMatch group u4).
  destruct (@global_stage_passes _ emMatch group
              (fun x => has_code c_star x || has_code c_underscore x)
              p M c u5 emMatch_first) as [E1 E2]; auto.
  { apply Hps. intros x Hx. apply (Hstar _ Hx). }
  { apply HMs. intros x Hx. apply (early_mark_classes _ Hx). }
  rewrite E1, E2. clear E1 E2.
  set (u6 := replace_global emMatch group u5).
  destruct (@global_stage_passes _ delMatch group (has_code c_tilde)
              p M c u6 delMatch_first) as [E1 E2]; auto.
  { apply Hps. intros x Hx. apply (Hstar _ Hx). }
  { apply HMs. intros x Hx. apply (early_mark_classes _ Hx). }
  rewrite E1, E2. eauto.
Qed.

Lemma spaces_run sp c u :
  Forall (fun x => is_space x = true) sp -> sp <> [] -> is_space c = false ->
  greedy 1 is_space done (sp ++ c :: u) = Some (sp, c :: u).
Proof.
  intros Hs Hne Hc. apply greedy_run; auto.
  destruct sp; [congruence | simpl; lia].
Qed.

Lemma quoteMark_quote gt sp c u :
  code gt = c_gt -> Forall (fun x => is_space x = true) sp -> sp <> [] ->
  is_space c = false ->
  quoteMark true (gt :: sp ++ c :: u) = Some (tt, c :: u).
Proof.
  intros Hg Hs Hne Hc. unfold quoteMark, atLineStart. simpl.
  unfold has_code at 1. rewrite Hg, N.eqb_refl.
  now rewrite spaces_run.
Qed.

Lemma marker_visible mk : is_marker mk = true -> is_space mk = false.
Proof.
  intros H. destruct (is_space mk) eqn:E; [| reflexivity].
  destruct (space_no_mark _ E) as (Hm & _).
  destruct (@line_mark_classes _ Hm) as (_ & _ & Hk & _). congruence.
Qed.

Lemma digit_visible d : is_digit d = true -> is_space d = false.
Proof.
  intros H. destruct (is_space d) eqn:E; [| reflexivity].
  destruct (space_no_mark _ E) as (Hm & _).
  destruct (@line_mark_classes _ Hm) as (_ & _ & _ & Hk & _). congruence.
Qed.

Lemma bulletMark_bullet ind mk sp c u :
  Forall (fun x => is_space x = true) ind -> is_marker mk = true ->
  Forall (fun x => is_space x = true) sp -> sp <> [] -> is_space c = false ->
  bulletMark true (ind ++ mk :: sp ++ c :: u) = Some (tt, c :: u).
Proof.
  intros Hi Hm Hs Hne Hc. unfold bulletMark, atLineStart.
  rewrite (@greedy_run _ is_space _ ind 0 (mk :: sp ++ c :: u) (sp, c :: u)); auto.
  - lia.
  - simpl. rewrite Hm. now apply spaces_run.
  - simpl. now apply marker_visible.
Qed.

Lemma numberMark_number ind ds dot sp c u :
  Forall (fun x => is_space x = true) ind ->
  Forall (fun x => is_digit x = true) ds -> ds <> [] -> code dot = c_dot ->
  Forall (fun x => is_space x = true) sp -> sp <> [] -> is_space c = false ->
  numberMark true (ind ++ ds ++ dot :: sp ++ c :: u) = Some (tt, c :: u).
Proof.
  intros Hi Hd Hdne Hdot Hs Hne Hc. unfold numberMark, atLineStart.
  rewrite (@greedy_run _ is_space _ ind 0 (ds ++ dot :: sp ++ c :: u)
             (ds, (sp, c :: u))); auto.
  - lia.
  - apply greedy_run; auto.
    + destruct ds; [congruence | simpl; lia].
    + simpl. unfold has_code at 1. rewrite Hdot, N.eqb_refl. now apply spaces_run.
    + simpl. unfold is_digit. now rewrite Hdot.
  - destruct ds as [| d ds]; [congruence |]. simpl.
    apply digit_visible. now inversion Hd.
Qed.

(** X22: the mark of a quotation is not spoken.  Suppose that
    [c] is a character that is no white space, no digit and none of
    backtick, [!], [[], [*], [_], [~], [#], [>], [-], [+], and that the text
    [p] before the mark is empty, or is such that it ends with a line terminator, the
    character in front of this line terminator is no white space, it has no
    backtick, [!], [[], [*], [_], [~], and the first character that is no
    white space of each of its lines is no digit and none of [#], [>], [-],
    [*], [+].  Then [removeMarkdown] gives the same for [p], [>], one or more characters of
    white space, [c] and any text [u] as for [p], [c] and [u]. *)
Theorem quote_mark_is_not_spoken p gt sp c u :
  linesBefore p ->
  Forall (fun x => is_opener x || is_inline_mark x = false) p ->
  code gt = c_gt ->
  Forall (fun x => is_space x = true) sp -> sp <> [] ->
  is_plain_char c = true -> is_space c = false ->
  removeMarkdown (p ++ gt :: sp ++ c :: u) = removeMarkdown (p ++ c :: u).
Proof.
  intros Hp Hq Hg Hs Hne Hc Hv.
  destruct (plain_char_classes _ Hc) as (_ & _ & Hl).
  assert (HM : Forall (fun x => is_early_mark x = false) (gt :: sp)).
  { constructor.
    - unfold is_early_mark, is_opener, is_inline_mark, has_code. now rewrite Hg.
    - eapply Forall_impl; [| exact Hs]. apply space_early. }
  pose proof (@early_stages_pass p (gt :: sp) c u Hp Hq HM Hc Hv) as (u' & E1 & E2).
  apply stages_from_unquoted. rewrite !unquoted_eq.
  change (gt :: sp ++ c :: u) with ((gt :: sp) ++ c :: u). rewrite E1, E2.
  rewrite (@line_stage_matches quoteMark (notCode c_gt) quoteMark_inside quoteMark_none
             notCode_gt_plain p (gt :: sp) c u' Hp); auto.
  - symmetry.
    apply (@line_stage_passes quoteMark (notCode c_gt) quoteMark_inside quoteMark_none
             notCode_gt_plain p [] c u' Hp); auto.
    now apply notCode_gt_plain.
  - discriminate.
  - now apply quoteMark_quote.
  - now apply notCode_gt_plain.
Qed.

Lemma quote_mark_is_not_spoken_witness :
  removeMarkdown (textOf ["She said:"; "> so **be** it"; "> and left"]%string)
  = removeMarkdown (textOf ["She said:"; "so **be** it"; "> and left"]%string).
Proof.
  apply (@quote_mark_is_not_spoken (input "She said:" ++ [U16 c_nl Input])
           (U16 62 Input) (input " ") (U16 115 Input)
           (input "o **be** it" ++ U16 c_nl Input :: input "> and left"));
    try reflexivity; try discriminate.
  - right. exists (input "She said:"), (U16 c_nl Input). repeat split.
  - repeat constructor.
  - repeat constructor.
Defined.

(** X23: the marker of a list item is not spoken.  Suppose that
    [c] is a character that is no white space, no digit and none of
    backtick, [!], [[], [*], [_], [~], [#], [>], [-], [+], and that the text
    [p] before the mark is empty, or is such that it ends with a line terminator, the
    character in front of this line terminator is no white space, it has no
    backtick, [!], [[], [*], [_], [~], and the first character that is no
    white space of each of its lines is no digit and none of [#], [>], [-],
    [*], [+].  Then [removeMarkdown] gives the same for [p], white space or none, [-] or [+],
    one or more characters of white space, [c] and any text [u] as for [p],
    [c] and [u].  The white space in front of the marker goes with it, line
    terminators included: after a carriage return and a line feed, the line
    feed is lost. *)
Theorem bullet_is_not_spoken p ind mk sp c u :
  linesBefore p ->
  Forall (fun x => is_opener x || is_inline_mark x = false) p ->
  Forall (fun x => is_space x = true) ind ->
  has_code c_dash mk || has_code c_plus mk = true ->
  Forall (fun x => is_space x = true) sp -> sp <> [] ->
  is_plain_char c = true -> is_space c = false ->
  removeMarkdown (p ++ ind ++ mk :: sp ++ c :: u) = removeMarkdown (p ++ c :: u).
Proof.
  intros Hp Hq Hi Hmk Hs Hne Hc Hv.
  destruct (plain_char_classes _ Hc) as (_ & _ & Hl).
  assert (Hmk' : is_marker mk = true /\ is_early_mark mk = false
                 /\ has_code c_gt mk = false).
  { unfold is_marker, is_early_mark, is_opener, is_inline_mark, has_code in *.
    apply orb_true_iff in Hmk. destruct Hmk as [H | H]; apply N.eqb_eq in H;
      rewrite H; repeat split. }
  destruct Hmk' as (Hm & Hme & Hmg).
  set (M := ind ++ mk :: sp).
  assert (EM : forall X, p ++ ind ++ mk :: sp ++ X = p ++ M ++ X).
  { intros X. unfold M. now rewrite <- app_assoc. }
  assert (HM : Forall (fun x => is_space x = true \/ x = mk) M).
  { unfold M. apply Forall_app. split; [| constructor; [now right |]];
      (eapply Forall_impl; [| eassumption]); intros x Hx; now left. }
  assert (HMe : Forall (fun x => is_early_mark x = false) M).
  { eapply Forall_impl; [| exact HM]. intros x [Hx | ->]; [now apply space_early | exact Hme]. }
  pose proof (@early_stages_pass p M c u Hp Hq HMe Hc Hv) as (u' & E1 & E2).
  apply stages_from_unbulleted. rewrite !unbulleted_eq, !unquoted_eq.
  rewrite EM, E1, E2.
  destruct (@line_stage_passes quoteMark (notCode c_gt) quoteMark_inside quoteMark_none
              notCode_gt_plain p M c u' Hp) as [F1 F2]; auto.
  { eapply Forall_impl; [| exact HM]. intros x [Hx | ->].
    - apply notCode_gt_plain. apply (space_no_mark _ Hx).
    - unfold notCode. now rewrite Hmg. }
  { now apply notCode_gt_plain. }
  rewrite F1, F2.
  set (u8 := replace_lines quoteMark (@nothing unit) false u').
  rewrite (@line_stage_matches bulletMark (fun x => negb (is_marker x)) bulletMark_inside
             bulletMark_none not_marker_plain p M c u8 Hp); auto.
  - symmetry.
    apply (@line_stage_passes bulletMark (fun x => negb (is_marker x)) bulletMark_inside
             bulletMark_none not_marker_plain p [] c u8 Hp); auto.
    now apply not_marker_plain.
  - unfold M. now destruct ind.
  - unfold M. rewrite <- app_assoc. now apply bulletMark_bullet.
  - now apply not_marker_plain.
Qed.

Lemma bullet_is_not_spoken_witness :
  removeMarkdown (input "To do:" ++ [U16 13 Input; U16 10 Input] ++ input "  - buy *milk*")
  = removeMarkdown (input "To do:" ++ [U16 13 Input] ++ input "buy *milk*").
Proof.
  apply (@bullet_is_not_spoken (input "To do:" ++ [U16 13 Input])
           (U16 10 Input :: input "  ") (U16 45 Input) (input " ") (U16 98 Input)
           (input "uy *milk*"));
    try reflexivity; try discriminate.
  - right. exists (input "To do:"), (U16 13 Input). repeat split.
  - repeat constructor.
  - repeat constructor.
  - repeat constructor.
Defined.

(** X24: the number of a list item is not spoken.  Suppose that
    [c] is a character that is no white space, no digit and none of
    backtick, [!], [[], [*], [_], [~], [#], [>], [-], [+], and that the text
    [p] before the mark is empty, or is such that it ends with a line terminator, the
    character in front of this line terminator is no white space, it has no
    backtick, [!], [[], [*], [_], [~], and the first character that is no
    white space of each of its lines is no digit and none of [#], [>], [-],
    [*], [+].  Then [removeMarkdown] gives the same for [p], white space or none, one or more
    digits, a full stop, one or more characters of white space, [c] and any
    text [u] as for [p], [c] and [u]. *)
Theorem number_is_not_spoken p ind ds dot sp c u :
  linesBefore p ->
  Forall (fun x => is_opener x || is_inline_mark x = false) p ->
  Forall (fun x => is_space x = true) ind ->
  Forall (fun x => is_digit x = true) ds -> ds <> [] -> code dot = c_dot ->
  Forall (fun x => is_space x = true) sp -> sp <> [] ->
  is_plain_char c = true -> is_space c = false ->
  removeMarkdown (p ++ ind ++ ds ++ dot :: sp ++ c :: u) = removeMarkdown (p ++ c :: u).
Proof.
  intros Hp Hq Hi Hd Hdne Hdot Hs Hne Hc Hv.
  destruct (plain_char_classes _ Hc) as (_ & _ & Hl).
  set (M := ind ++ ds ++ dot :: sp).
  assert (EM : forall X, p ++ ind ++ ds ++ dot :: sp ++ X = p ++ M ++ X).
  { intros X. unfold M. now rewrite <- !app_assoc. }
  assert (HM : Forall (fun x => is_early_mark x = false /\ has_code c_gt x = false
                               /\ is_marker x = false) M).
  { assert (Hsp : forall x, is_space x = true ->
                  is_early_mark x = false /\ has_code c_gt x = false
                  /\ is_marker x = false).
    { intros x Hx. split; [now apply space_early |].
      destruct (space_no_mark _ Hx) as (Hm & _).
      destruct (@line_mark_classes _ Hm) as (_ & ? & ? & _). now split. }
    unfold M. repeat (apply Forall_app; split).
    - eapply Forall_impl; [| exact Hi]. exact Hsp.
    - eapply Forall_impl; [| exact Hd]. intros x Hx.
      unfold is_digit in Hx. apply andb_true_iff in Hx. destruct Hx as [H1 H2].
      apply N.leb_le in H1, H2.
      unfold is_early_mark, is_opener, is_inline_mark, is_marker, has_code.
      repeat split;
        repeat match goal with
          | |- context [N.eqb (code x) ?n] =>
              destruct (N.eqb_spec (code x) n) as [E | _];
              [exfalso; revert H1 H2; rewrite E;
               unfold c_backtick, c_bang, c_lbracket, c_star, c_underscore, c_tilde,
                 c_hash, c_gt, c_dash, c_plus; lia |]
          end; reflexivity.
    - constructor.
      + unfold is_early_mark, is_opener, is_inline_mark, is_marker, has_code.
        rewrite Hdot. repeat split.
      + eapply Forall_impl; [| exact Hs]. exact Hsp. }
  assert (HMe : Forall (fun x => is_early_mark x = false) M).
  { eapply Forall_impl; [| exact HM]. intros x Hx. apply Hx. }
  pose proof (@early_stages_pass p M c u Hp Hq HMe Hc Hv) as (u' & E1 & E2).
  apply stages_from_unnumbered. rewrite !unnumbered_eq, !unbulleted_eq, !unquoted_eq.
  rewrite EM, E1, E2.
  destruct (@line_stage_passes quoteMark (notCode c_gt) quoteMark_inside quoteMark_none
              notCode_gt_plain p M c u' Hp) as [F1 F2]; auto.
  { eapply Forall_impl; [| exact HM]. intros x (_ & Hx & _). unfold notCode.
    now rewrite Hx. }
  { now apply notCode_gt_plain. }
  rewrite F1, F2.
  set (u8 := replace_lines quoteMark (@nothing unit) false u').
  destruct (@line_stage_passes bulletMark (fun x => negb (is_marker x)) bulletMark_inside
              bulletMark_none not_marker_plain p M c u8 Hp) as [F3 F4]; auto.
  { eapply Forall_impl; [| exact HM]. intros x (_ & _ & Hx). now rewrite Hx. }
  { now apply not_marker_plain. }
  rewrite F3, F4.
  set (u9 := replace_lines bulletMark (@nothing unit) false u8).
  rewrite (@line_stage_matches numberMark (fun x => negb (is_digit x)) numberMark_inside
             numberMark_none not_digit_plain p M c u9 Hp); auto.
  - symmetry.
    apply (@line_stage_passes numberMark (fun x => negb (is_digit x)) numberMark_inside
             numberMark_none not_digit_plain p [] c u9 Hp); auto.
    now apply not_digit_plain.
  - unfold M. destruct ind; [destruct ds; [congruence | discriminate] | discriminate].
  - unfold M. rewrite <- !app_assoc. now apply numberMark_number.
  - now apply not_digit_plain.
Qed.

Lemma number_is_not_spoken_witness :
  removeMarkdown (textOf ["Steps:"; " 12. stir"; "13. serve"]%string)
  = removeMarkdown (textOf ["Steps:"; "stir"; "13. serve"]%string).
Proof.
  apply (@number_is_not_spoken (input "Steps:" ++ [U16 c_nl Input])
           (input " ") (input "12") (U16 46 Input) (input " ") (U16 115 Input)
           (input "tir" ++ U16 c_nl Input :: input "13. serve"));
    try reflexivity; try discriminate.
  - right. exists (input "Steps:"), (U16 c_nl Input). repeat split.
  - repeat constructor.
  - repeat constructor.
  - repeat constructor.
  - repeat constructor.
Defined.

(** ** Bold and struck text *)

Lemma strongMatch_match n d1 body d2 X :
  n = c_star \/ n = c_underscore ->
  codes d1 = [n; n] -> codes d2 = [n; n] ->
  Forall (fun x => is_dot x = true) body ->
  Forall (fun x => has_code c_star x || has_code c_underscore x = false) body ->
  strongMatch (d1 ++ body ++ d2 ++ X) = Some (body, X).
Proof.
  intros Hn H1 H2 Hdot Hb. unfold strongMatch, alt.
  assert (Hbn : Forall (fun x => has_code n x = false) body).
  { eapply Forall_impl; [| exact Hb]. intros x Hx. apply orb_false_iff in Hx.
    destruct Hn; subst n; tauto. }
  destruct Hn; subst n.
  - now rewrite (@delimited_match c_star [c_star] d1 body d2 X).
  - destruct d1 as [| o d1]; [discriminate |]. injection H1 as Ho H1.
    cbn [app]. rewrite delimited_first by (unfold has_code; now rewrite Ho).
    change (o :: d1 ++ body ++ d2 ++ X) with ((o :: d1) ++ body ++ d2 ++ X).
    apply (@delimited_match c_underscore [c_underscore] (o :: d1) body d2 X); auto.
    simpl. now rewrite Ho, H1.
Qed.

Lemma lineStartAfter_visible bol a :
  a <> [] -> Forall (fun x => is_dot x = true) a -> lineStartAfter bol a = false.
Proof.
  intros Hne Ha. destruct (exists_last Hne) as (q & x & ->).
  rewrite lineStartAfter_last. apply Forall_app in Ha. destruct Ha as [_ Ha].
  inversion Ha as [| ? ? Hx _]; subst. unfold is_dot in Hx.
  now apply negb_true_iff in Hx.
Qed.

(** X25: the marks of bold and of struck text are not spoken.  Text
    without marks, then [**], [__] or [~~], content that is not empty and has
    no marks and no line terminators, then the same delimiter: the two
    delimiters can be taken out without changing what [removeMarkdown] gives,
    whatever follows. *)
Theorem doubled_marks_are_not_spoken p d1 body d2 u n :
  n = c_star \/ n = c_underscore \/ n = c_tilde ->
  codes d1 = [n; n] -> codes d2 = [n; n] ->
  Forall (fun x => is_early_mark x = false) p ->
  Forall (fun x => is_early_mark x = false) body ->
  Forall (fun x => is_dot x = true) body -> body <> [] ->
  removeMarkdown (p ++ d1 ++ body ++ d2 ++ u) = removeMarkdown (p ++ body ++ u).
Proof.
  intros Hn H1 H2 Hp Hb Hdot Hne.
  assert (Hd : forall d, codes d = [n; n] ->
               Forall (fun x => code x = n) d /\ d <> []).
  { intros d Hd. destruct d as [| x [| y [| z d]]]; try discriminate.
    injection Hd as Hx Hy. split; [| discriminate]. repeat constructor; assumption. }
  destruct (Hd _ H1) as [Hd1 _]. destruct (Hd _ H2) as [Hd2 Hne2].
  assert (Hnd : forall x, code x = n -> is_dot x = true).
  { intros x Hx. unfold is_dot, is_line_terminator, has_code. rewrite Hx.
    destruct Hn as [-> | [-> | ->]]; reflexivity. }
  set (A := p ++ d1 ++ body ++ d2).
  set (B := p ++ body).
  assert (EA : p ++ d1 ++ body ++ d2 ++ u = A ++ u)
    by (unfold A; now rewrite <- !app_assoc).
  assert (EB : p ++ body ++ u = B ++ u) by (unfold B; now rewrite <- !app_assoc).
  assert (HA : forall T : unit16 -> bool,
            (forall x, is_early_mark x = false -> T x = false) ->
            (forall x, code x = n -> T x = false) ->
            Forall (fun x => T x = false) A /\ Forall (fun x => T x = false) B).
  { intros T HT HTn.
    assert (Forall (fun x => T x = false) p) by (eapply Forall_impl; [| exact Hp]; auto).
    assert (Forall (fun x => T x = false) body)
      by (eapply Forall_impl; [| exact Hb]; auto).
    assert (Forall (fun x => T x = false) d1)
      by (eapply Forall_impl; [| exact Hd1]; auto).
    assert (Forall (fun x => T x = false) d2)
      by (eapply Forall_impl; [| exact Hd2]; auto).
    unfold A, B. split; repeat (apply Forall_app; split); assumption. }
  assert (Hcode : forall k, k <> n -> forall x, code x = n -> has_code k x = false).
  { intros k Hk x Hx. unfold has_code. rewrite Hx. apply N.eqb_neq. congruence. }
  assert (Hk : forall k, In k [c_backtick; c_bang; c_lbracket; c_hash] -> k <> n).
  { intros k Hin E. subst k. simpl in Hin.
    destruct Hn as [-> | [-> | ->]];
      repeat (destruct Hin as [Hin | Hin]; [discriminate Hin |]); exact Hin. }
  destruct (HA (has_code c_backtick)) as [A1 B1];
    [intros x Hx; apply (early_mark_classes _ Hx)
    | apply Hcode, Hk; simpl; tauto |].
  destruct (HA (has_code c_bang)) as [A2 B2];
    [intros x Hx; apply (early_mark_classes _ Hx)
    | apply Hcode, Hk; simpl; tauto |].
  destruct (HA (has_code c_lbracket)) as [A3 B3];
    [intros x Hx; apply (early_mark_classes _ Hx)
    | apply Hcode, Hk; simpl; tauto |].
  destruct (HA (has_code c_hash)) as [A4 B4];
    [intros x Hx; apply (early_mark_classes _ Hx)
    | apply Hcode, Hk; simpl; tauto |].
  assert (LA : lineStartAfter true A = false).
  { unfold A. rewrite !app_assoc. apply exists_last in Hne2.
    destruct Hne2 as (q & x & ->). rewrite app_assoc, lineStartAfter_last.
    apply Forall_app in Hd2. destruct Hd2 as [_ Hx]. inversion Hx as [| ? ? Hx' _].
    specialize (Hnd _ Hx'). unfold is_dot in Hnd. now apply negb_true_iff in Hnd. }
  assert (LB : lineStartAfter true B = false).
  { unfold B. apply exists_last in Hne. destruct Hne as (q & x & ->).
    rewrite app_assoc, lineStartAfter_last.
    apply Forall_app in Hdot. destruct Hdot as [_ Hx]. inversion Hx as [| ? ? Hx' _].
    unfold is_dot in Hx'. now apply negb_true_iff in Hx'. }
  assert (E4 : exists U, unheaded (A ++ u) = A ++ U /\ unheaded (B ++ u) = B ++ U).
  { unfold unheaded, unlinked, unimaged, unfenced.
    rewrite (@replace_global_skip _ fenceMatch (@nothing str) _ fenceMatch_first _ _ A1).
    rewrite (@replace_global_skip _ fenceMatch (@nothing str) _ fenceMatch_first _ _ B1).
    rewrite (@replace_global_skip _ imageMatch group _ imageMatch_first _ _ A2).
    rewrite (@replace_global_skip _ imageMatch group _ imageMatch_first _ _ B2).
    rewrite (@replace_global_skip _ linkMatch (fun g => fst g) _ linkMatch_first _ _ A3).
    rewrite (@replace_global_skip _ linkMatch (fun g => fst g) _ linkMatch_first _ _ B3).
    rewrite (@replace_lines_skip _ headingMark (@nothing unit) _ headingMark_first _ _ _ A4).
    rewrite (@replace_lines_skip _ headingMark (@nothing unit) _ headingMark_first _ _ _ B4).
    rewrite LA, LB. eauto. }
  destruct E4 as (U & E4a & E4b).
  assert (Hq : Forall (fun x => has_code c_star x || has_code c_underscore x = false) p
               /\ Forall (fun x => has_code c_star x || has_code c_underscore x = false) body
               /\ Forall (fun x => has_code c_tilde x = false) p
               /\ Forall (fun x => has_code c_tilde x = false) body).
  { repeat split;
      [eapply Forall_impl; [| exact Hp] | eapply Forall_impl; [| exact Hb]
      | eapply Forall_impl; [| exact Hp] | eapply Forall_impl; [| exact Hb]];
      intros x Hx; apply (early_mark_classes _ Hx). }
  destruct Hq as (P5 & B5 & P7 & B7).
  rewrite EA, EB.
  destruct Hn as [Hn | [Hn | Hn]].
  - (* bold, with stars *)
    apply stages_from_unbolded. unfold unbolded. rewrite E4a, E4b.
    unfold A, B. rewrite <- !app_assoc.
    rewrite !(@replace_global_skip _ strongMatch group _ strongMatch_first _ _ P5).
    f_equal.
    rewrite (@replace_global_skip _ strongMatch group _ strongMatch_first _ _ B5).
    pose proof (@strongMatch_match n d1 body d2 U (or_introl Hn) H1 H2 Hdot B5) as Hm.
    destruct d1 as [| o d1]; [discriminate |]. cbn [app] in *.
    now rewrite (@replace_global_some _ _ _ _ _ _ _ Hm (strongMatch_shorter _ Hm)).
  - (* bold, with underscores *)
    apply stages_from_unbolded. unfold unbolded. rewrite E4a, E4b.
    unfold A, B. rewrite <- !app_assoc.
    rewrite !(@replace_global_skip _ strongMatch group _ strongMatch_first _ _ P5).
    f_equal.
    rewrite (@replace_global_skip _ strongMatch group _ strongMatch_first _ _ B5).
    pose proof (@strongMatch_match n d1 body d2 U (or_intror Hn) H1 H2 Hdot B5) as Hm.
    destruct d1 as [| o d1]; [discriminate |]. cbn [app] in *.
    now rewrite (@replace_global_some _ _ _ _ _ _ _ Hm (strongMatch_shorter _ Hm)).
  - (* struck *)
    subst n.
    destruct (HA (fun x => has_code c_star x || has_code c_underscore x)) as [A5 B5'].
    { intros x Hx. apply (early_mark_classes _ Hx). }
    { intros x Hx. unfold has_code. now rewrite Hx. }
    apply stages_from_unstruck. unfold unstruck, unslanted, unbolded.
    rewrite E4a, E4b.
    rewrite (@replace_global_skip _ strongMatch group _ strongMatch_first _ _ A5).
    rewrite (@replace_global_skip _ strongMatch group _ strongMatch_first _ _ B5').
    rewrite (@replace_global_skip _ emMatch group _ emMatch_first _ _ A5).
    rewrite (@replace_global_skip _ emMatch group _ emMatch_first _ _ B5').
    unfold A, B. rewrite <- !app_assoc.
    rewrite !(@replace_global_skip _ delMatch group _ delMatch_first _ _ P7).
    f_equal.
    rewrite (@replace_global_skip _ delMatch group _ delMatch_first _ _ B7).
    assert (Hm : delMatch (d1 ++ body ++ d2 ++
                   replace_global emMatch group (replace_global strongMatch group U))
                 = Some (body, replace_global emMatch group
                                 (replace_global strongMatch group U))).
    { unfold delMatch. now apply delimited_match. }
    destruct d1 as [| o d1]; [discriminate |]. cbn [app] in *.
    now rewrite (@replace_global_some _ _ _ _ _ _ _ Hm (delMatch_shorter _ Hm)).
Qed.

Lemma doubled_marks_are_not_spoken_witness :
  removeMarkdown (input "It is ~~not~~ so. # 1")
  = removeMarkdown (input "It is not so. # 1").
Proof.
  apply (@doubled_marks_are_not_spoken (input "It is ") (input "~~") (input "not")
           (input "~~") (input " so. # 1") c_tilde);
    try reflexivity; try discriminate;
    try (right; right; reflexivity); repeat constructor.
Defined.

(** ** Rules *)

(** A greedy repetition gives back what its continuation needs: the
    class matches [g] and [r], and the continuation accepts the string from
    [r] on but from no place inside [r] or after it. *)
Lemma greedy_gives_back (R : Type) (p : unit16 -> bool) (k : str -> option R) g :
  forall lo r s x,
    Forall (fun c => p c = true) g -> Forall (fun c => p c = true) r ->
    lo <= length g -> k (r ++ s) = Some x -> stopsAt p s ->
    (forall r1 r2, r = r1 ++ r2 -> r1 <> [] -> k (r2 ++ s) = None) ->
    greedy lo p k (g ++ r ++ s) = Some (g, x).
Proof.
  induction g as [| c g IH]; intros lo r s x Hg Hr Hlo Hk Hs Hno.
  - simpl in Hlo. assert (lo = 0) by lia. subst lo. cbn [app].
    destruct r as [| y r].
    + cbn [app] in *. destruct s as [| z s]; simpl in *; [now rewrite Hk |].
      rewrite Hs. simpl. now rewrite Hk.
    + cbn [app] in *. inversion Hr as [| ? ? Hy Hr']; subst.
      simpl. rewrite Hy.
      rewrite greedy_fails; [simpl; now rewrite Hk |].
      intros g t E Hg'.
      assert (Hsplit : exists r2, r = g ++ r2 /\ t = r2 ++ s).
      { clear - E Hg' Hs. revert r E. induction g as [| a g IHg]; intros r E.
        - exists r. now split.
        - inversion Hg' as [| ? ? Ha Hg'']; subst. destruct r as [| b r].
          + cbn [app] in E. subst s. simpl in Hs. congruence.
          + cbn [app] in E. injection E as -> E.
            destruct (IHg Hg'' r E) as (r2 & -> & ->). exists r2. now split. }
      destruct Hsplit as (r2 & -> & ->).
      apply (Hno (y :: g) r2 eq_refl). discriminate.
  - inversion Hg as [| ? ? Hc Hg']; subst. cbn [app]. simpl. rewrite Hc.
    rewrite (IH (pred lo) r s x); auto. simpl in Hlo. lia.
Qed.

Lemma ruleMark_rule ds w1 lt w2 c u :
  Forall (fun x => has_code c_dash x = true) ds -> 3 <= length ds ->
  Forall (fun x => is_space x = true) w1 -> is_line_terminator lt = true ->
  Forall (fun x => is_space x = true) w2 ->
  Forall (fun x => is_line_terminator x = false) w2 ->
  is_space c = false ->
  ruleMark true (ds ++ w1 ++ lt :: w2 ++ c :: u) = Some (tt, lt :: w2 ++ c :: u).
Proof.
  intros Hd Hlen H1 Hlt H2 H2' Hc. unfold ruleMark, atLineStart.
  assert (Hk : greedy 0 is_space at_line_end (w1 ++ lt :: w2 ++ c :: u)
               = Some (w1, lt :: w2 ++ c :: u)).
  { change (lt :: w2 ++ c :: u) with ((lt :: w2) ++ c :: u).
    apply greedy_gives_back; auto.
    - constructor; [now apply line_terminator_space | exact H2].
    - lia.
    - simpl. now rewrite Hlt.
    - intros r1 r2 E Hne. destruct r1 as [| y r1]; [congruence |].
      injection E as -> E.
      assert (Hr2 : Forall (fun x => is_line_terminator x = false) r2).
      { rewrite E in H2'. apply Forall_app in H2'. tauto. }
      destruct r2 as [| z r2]; simpl.
      + now rewrite (visible_not_terminator _ Hc).
      + inversion Hr2 as [| ? ? Hz _]; subst. now rewrite Hz. }
  rewrite (@greedy_run _ (has_code c_dash) _ ds 3 (w1 ++ lt :: w2 ++ c :: u)
             (w1, lt :: w2 ++ c :: u)); auto.
  assert (Hsp : forall x, is_space x = true -> has_code c_dash x = false).
  { intros x Hx. destruct (space_no_mark _ Hx) as (Hm & _).
    apply (@line_mark_classes _ Hm). }
  destruct w1 as [| x w1]; simpl.
  - apply Hsp. now apply line_terminator_space.
  - apply Hsp. now inversion H1.
Qed.

Lemma bulletMark_dashes d0 d1 t :
  has_code c_dash d0 = true -> has_code c_dash d1 = true ->
  bulletMark true (d0 :: d1 :: t) = None.
Proof.
  intros H0 H1.
  assert (Hd : forall d, has_code c_dash d = true -> is_marker d = true /\ is_space d = false).
  { intros d Hd. assert (Hm : is_marker d = true) by (unfold is_marker; now rewrite Hd).
    split; [exact Hm | now apply marker_visible]. }
  destruct (Hd _ H0) as [M0 S0]. destruct (Hd _ H1) as [_ S1].
  unfold bulletMark, atLineStart. simpl. rewrite S0. simpl. rewrite M0. simpl.
  now rewrite S1.
Qed.

Lemma notCode_dash_plain c : is_line_mark c = false -> notCode c_dash c = true.
Proof.
  intros H. unfold notCode. destruct (@line_mark_classes _ H) as (_ & _ & _ & _ & ->).
  reflexivity.
Qed.

Lemma ruleMark_inside s : ruleMark false s = None.
Proof. reflexivity. Qed.

(** White space in front of a visible character that starts no mark:
    every line in it starts well. *)
Lemma linesStartWith_spaces ok w c :
  Forall (fun x => is_space x = true) w -> is_space c = false -> ok c = true ->
  forall bol, linesStartWith ok bol (w ++ [c]) = true.
Proof.
  intros Hw Hc Hok. induction Hw as [| x w Hx Hw IH]; intros bol.
  - cbn [app linesStartWith]. rewrite (visible_not_terminator _ Hc).
    unfold startOk. cbn [trimStart]. rewrite Hc, Hok. now destruct bol.
  - cbn [app linesStartWith]. rewrite IH. rewrite andb_true_r.
    destruct bol; [| reflexivity].
    specialize (IH true). destruct (w ++ [c]) as [| y t] eqn:E; [now destruct w |].
    simpl in IH. apply andb_true_iff in IH. destruct IH as [IH _].
    unfold startOk in *. simpl. now rewrite Hx.
Qed.

Lemma linesStartWith_visible ok a b :
  Forall (fun x => is_line_terminator x = false) a ->
  linesStartWith ok false b = true -> linesStartWith ok false (a ++ b) = true.
Proof.
  intros Ha Hb. induction Ha as [| x a Hx Ha IH]; [exact Hb |].
  cbn [app linesStartWith]. now rewrite Hx, IH.
Qed.

(** X26: a rule is not spoken.  Suppose that
    [c] is a character that is no white space, no digit and none of
    backtick, [!], [[], [*], [_], [~], [#], [>], [-], [+], and that the text
    [p] before the mark is empty, or is such that it ends with a line terminator, the
    character in front of this line terminator is no white space, it has no
    backtick, [!], [[], [*], [_], [~], and the first character that is no
    white space of each of its lines is no digit and none of [#], [>], [-],
    [*], [+].  Then [removeMarkdown] gives the same for [p], three or more [-], white space
    or none, a line terminator, white space without line terminator or none,
    [c] and any text [u] as for [p], the same line terminator, the same white
    space after it, [c] and [u]. *)
Theorem rule_is_not_spoken p ds w1 lt w2 c u :
  linesBefore p ->
  Forall (fun x => is_opener x || is_inline_mark x = false) p ->
  Forall (fun x => has_code c_dash x = true) ds -> 3 <= length ds ->
  Forall (fun x => is_space x = true) w1 -> is_line_terminator lt = true ->
  Forall (fun x => is_space x = true) w2 ->
  Forall (fun x => is_line_terminator x = false) w2 ->
  is_plain_char c = true -> is_space c = false ->
  removeMarkdown (p ++ ds ++ w1 ++ lt :: w2 ++ c :: u) = removeMarkdown (p ++ lt :: w2 ++ c :: u).
Proof.
  intros Hp Hq Hd Hlen H1 Hlt H2 H2' Hc Hv.
  destruct (plain_char_classes _ Hc) as (_ & _ & Hl).
  pose proof (line_terminator_space _ Hlt) as Hls.
  set (R := lt :: w2).
  set (M := ds ++ w1 ++ R).
  assert (EM : p ++ ds ++ w1 ++ lt :: w2 ++ c :: u = p ++ M ++ c :: u).
  { unfold M, R. rewrite <- !app_assoc. reflexivity. }
  assert (ER : p ++ lt :: w2 ++ c :: u = p ++ R ++ c :: u) by reflexivity.
  assert (HR : Forall (fun x => is_space x = true) R) by (constructor; assumption).
  assert (Hdash : forall x, has_code c_dash x = true ->
            is_early_mark x = false /\ has_code c_gt x = false /\ is_digit x = false
            /\ is_line_terminator x = false).
  { intros x Hx. unfold has_code in Hx. apply N.eqb_eq in Hx.
    unfold is_early_mark, is_opener, is_inline_mark, is_digit, is_line_terminator,
      has_code. rewrite Hx. repeat split. }
  assert (Hspace : forall x, is_space x = true ->
            is_early_mark x = false /\ has_code c_gt x = false /\ is_digit x = false
            /\ is_marker x = false /\ has_code c_dash x = false).
  { intros x Hx. split; [now apply space_early |].
    destruct (space_no_mark _ Hx) as (Hm & _).
    destruct (@line_mark_classes _ Hm) as (_ & ? & ? & ? & ?). repeat split; assumption. }
  assert (HW : Forall (fun x => is_space x = true) (w1 ++ R))
    by (apply Forall_app; split; assumption).
  assert (HM : forall T : unit16 -> bool,
            (forall x, has_code c_dash x = true -> T x = true) ->
            (forall x, is_space x = true -> T x = true) ->
            Forall (fun x => T x = true) M /\ Forall (fun x => T x = true) R).
  { intros T Td Ts. split.
    - unfold M. apply Forall_app. split.
      + eapply Forall_impl; [| exact Hd]. exact Td.
      + eapply Forall_impl; [| exact HW]. exact Ts.
    - eapply Forall_impl; [| exact HR]. exact Ts. }
  destruct (HM (fun x => negb (is_early_mark x))) as [HMe HRe].
  { intros x Hx. now rewrite (proj1 (Hdash _ Hx)). }
  { intros x Hx. now rewrite (proj1 (Hspace _ Hx)). }
  assert (HMe' : Forall (fun x => is_early_mark x = false) M)
    by (eapply Forall_impl; [| exact HMe]; intros x Hx; now apply negb_true_iff).
  assert (HRe' : Forall (fun x => is_early_mark x = false) R)
    by (eapply Forall_impl; [| exact HRe]; intros x Hx; now apply negb_true_iff).
  pose proof (@early_stages_pass p M c u Hp Hq HMe' Hc Hv) as (u7 & E1 & E2).
  pose proof (@early_stages_pass p R c u Hp Hq HRe' Hc Hv) as (u7' & E3 & E4).
  assert (u7' = u7).
  { rewrite E2 in E4. apply app_inv_head in E4. now injection E4. }
  subst u7'.
  apply stages_from_unruled. rewrite EM, ER.
  change (replace_lines ruleMark (@nothing unit) true
            (replace_lines numberMark (@nothing unit) true
               (replace_lines bulletMark (@nothing unit) true
                  (replace_lines quoteMark (@nothing unit) true
                     (unstruck (p ++ M ++ c :: u)))))
          = replace_lines ruleMark (@nothing unit) true
              (replace_lines numberMark (@nothing unit) true
                 (replace_lines bulletMark (@nothing unit) true
                    (replace_lines quoteMark (@nothing unit) true
                       (unstruck (p ++ R ++ c :: u)))))).
  rewrite E1, E3.
  (* the marks of quotations *)
  destruct (HM (notCode c_gt)) as [HMg HRg].
  { intros x Hx. unfold notCode. destruct (Hdash _ Hx) as (_ & -> & _). reflexivity. }
  { intros x Hx. unfold notCode. destruct (Hspace _ Hx) as (_ & -> & _). reflexivity. }
  destruct (@line_stage_passes quoteMark (notCode c_gt) quoteMark_inside quoteMark_none
              notCode_gt_plain p M c u7 Hp HMg (notCode_gt_plain _ Hl) Hv) as [F1 _].
  destruct (@line_stage_passes quoteMark (notCode c_gt) quoteMark_inside quoteMark_none
              notCode_gt_plain p R c u7 Hp HRg (notCode_gt_plain _ Hl) Hv) as [F2 _].
  rewrite F1, F2. clear F1 F2.
  set (u8 := replace_lines quoteMark (@nothing unit) false u7).
  (* the markers of list items *)
  assert (HRm : Forall (fun x => negb (is_marker x) = true) R).
  { eapply Forall_impl; [| exact HR]. intros x Hx.
    destruct (Hspace _ Hx) as (_ & _ & _ & -> & _). reflexivity. }
  destruct (@line_stage_passes bulletMark (fun x => negb (is_marker x)) bulletMark_inside
              bulletMark_none not_marker_plain p R c u8 Hp HRm (not_marker_plain _ Hl) Hv)
    as [F2 _].
  assert (F1 : replace_lines bulletMark (@nothing unit) true (p ++ M ++ c :: u8)
               = p ++ M ++ c :: replace_lines bulletMark (@nothing unit) false u8).
  { destruct ds as [| d0 [| d1 ds]]; try (simpl in Hlen; lia).
    inversion Hd as [| ? ? Hd0 Hd']; subst. inversion Hd' as [| ? ? Hd1 Hd'']; subst.
    unfold M. cbn [app].
    change (d0 :: d1 :: ds ++ w1 ++ R) with (d0 :: (d1 :: ds ++ w1 ++ R)).
    apply (@line_stage_passes_from bulletMark (fun x => negb (is_marker x))
             bulletMark_inside bulletMark_none not_marker_plain p d0
             (d1 :: ds ++ w1 ++ R) c u8 Hp).
    - now apply bulletMark_dashes.
    - apply (Hdash _ Hd0).
    - change (d1 :: ds ++ w1 ++ R) with ((d1 :: ds) ++ w1 ++ R).
      rewrite <- app_assoc. apply linesStartWith_visible.
      + eapply Forall_impl; [| exact Hd']. intros x Hx. apply (Hdash _ Hx).
      + rewrite <- app_assoc. rewrite app_assoc.
        apply linesStartWith_spaces; auto. now apply not_marker_plain.
    - exact Hv. }
  rewrite F1, F2. clear F1 F2.
  set (u9 := replace_lines bulletMark (@nothing unit) false u8).
  (* the numbers of list items *)
  destruct (HM (fun x => negb (is_digit x))) as [HMd HRd].
  { intros x Hx. destruct (Hdash _ Hx) as (_ & _ & -> & _). reflexivity. }
  { intros x Hx. destruct (Hspace _ Hx) as (_ & _ & -> & _). reflexivity. }
  destruct (@line_stage_passes numberMark (fun x => negb (is_digit x)) numberMark_inside
              numberMark_none not_digit_plain p M c u9 Hp HMd (not_digit_plain _ Hl) Hv)
    as [F1 _].
  destruct (@line_stage_passes numberMark (fun x => negb (is_digit x)) numberMark_inside
              numberMark_none not_digit_plain p R c u9 Hp HRd (not_digit_plain _ Hl) Hv)
    as [F2 _].
  rewrite F1, F2. clear F1 F2.
  set (u10 := replace_lines numberMark (@nothing unit) false u9).
  (* the rule itself *)
  assert (HRr : Forall (fun x => notCode c_dash x = true) R).
  { eapply Forall_impl; [| exact HR]. intros x Hx. unfold notCode.
    destruct (Hspace _ Hx) as (_ & _ & _ & _ & ->). reflexivity. }
  destruct (@line_stage_passes ruleMark (notCode c_dash) ruleMark_inside ruleMark_none
              notCode_dash_plain p R c u10 Hp HRr (notCode_dash_plain _ Hl) Hv)
    as [F2 _].
  rewrite F2. unfold M. rewrite <- !app_assoc.
  rewrite (app_assoc ds w1 (R ++ c :: u10)).
  apply (@line_stage_cuts ruleMark (notCode c_dash) ruleMark_inside ruleMark_none
           notCode_dash_plain p (ds ++ w1) R c u10 Hp); auto.
  - destruct ds; [simpl in Hlen; lia | discriminate].
  - rewrite <- app_assoc. unfold R. cbn [app]. now apply ruleMark_rule.
  - now apply notCode_dash_plain.
Qed.

Lemma rule_is_not_spoken_witness :
  removeMarkdown (textOf ["One."; "---  "; ""; " Two *or* three."]%string)
  = removeMarkdown (textOf ["One."; ""; " Two *or* three."]%string).
Proof.
  apply (@rule_is_not_spoken (input "One." ++ [U16 c_nl Input]) (input "---")
           (input "  " ++ [U16 c_nl Input]) (U16 c_nl Input) (input " ") (U16 84 Input)
           (input "wo *or* three."));
    [right; exists (input "One."), (U16 c_nl Input); repeat split | ..];
    try reflexivity; try (simpl; lia); repeat constructor.
Defined.

(** ** Italic text *)

Lemma strongMatch_lone x t : stopsAt is_emphasis_char t -> strongMatch (x :: t) = None.
Proof.
  intros H. unfold strongMatch, alt, delimited. simpl.
  destruct t as [| y t].
  - now destruct (has_code c_star x), (has_code c_underscore x).
  - simpl in H. unfold is_emphasis_char in H. apply orb_false_iff in H.
    destruct H as [H1 H2]. rewrite H1, H2.
    now destruct (has_code c_star x), (has_code c_underscore x).
Qed.

Lemma emMatch_match n o body cl X :
  n = c_star \/ n = c_underscore ->
  code o = n -> code cl = n ->
  Forall (fun x => is_dot x = true) body ->
  Forall (fun x => is_emphasis_char x = false) body ->
  emMatch (o :: body ++ cl :: X) = Some (body, X).
Proof.
  intros Hn Ho Hcl Hdot Hb. unfold emMatch, alt.
  assert (Hbn : Forall (fun x => has_code n x = false) body).
  { eapply Forall_impl; [| exact Hb]. intros x Hx. unfold is_emphasis_char in Hx.
    apply orb_false_iff in Hx. destruct Hn; subst n; tauto. }
  change (o :: body ++ cl :: X) with ([o] ++ body ++ [cl] ++ X).
  destruct Hn; subst n.
  - rewrite (@delimited_match c_star [] [o] body [cl] X); auto; simpl; congruence.
  - cbn [app]. rewrite delimited_first by (unfold has_code; now rewrite Ho).
    change (o :: body ++ cl :: X) with ([o] ++ body ++ [cl] ++ X).
    apply (@delimited_match c_underscore [] [o] body [cl] X); auto; simpl; congruence.
Qed.

Lemma lineStartAfter_app bol a b :
  b <> [] -> lineStartAfter bol (a ++ b) = lineStartAfter bol b.
Proof.
  intros Hne. destruct (exists_last Hne) as (q & x & ->).
  now rewrite app_assoc, !lineStartAfter_last.
Qed.

(** The replacements up to the one of italic text, on a text in italics
    followed by [t], a character that starts no mark or nothing at the end of
    the text. *)
Lemma italic_stages p o body cl t u n :
  n = c_star \/ n = c_underscore ->
  code o = n -> code cl = n ->
  Forall (fun x => is_early_mark x = false) p ->
  Forall (fun x => is_early_mark x = false) body ->
  Forall (fun x => is_dot x = true) body -> body <> [] ->
  Forall (fun x => is_early_mark x = false) t ->
  lineStartAfter true ((p ++ o :: body ++ [cl]) ++ t)
  = lineStartAfter true ((p ++ body) ++ t) ->
  stopsAt is_emphasis_char
    (t ++ replace_lines headingMark (@nothing unit)
            (lineStartAfter true ((p ++ body) ++ t))
            (replace_global linkMatch (fun g => fst g)
               (replace_global imageMatch group
                  (replace_global fenceMatch (@nothing str) u)))) ->
  unslanted ((p ++ o :: body ++ [cl]) ++ t ++ u) = unslanted ((p ++ body) ++ t ++ u).
Proof.
  intros Hn Ho Hcl Hp Hb Hdot Hne Ht Hbol Hstop.
  set (A := p ++ o :: body ++ [cl]) in *. set (B := p ++ body) in *.
  assert (HT : forall T : unit16 -> bool,
            (forall x, is_early_mark x = false -> T x = false) ->
            (forall x, code x = n -> T x = false) ->
            Forall (fun x => T x = false) (A ++ t)
            /\ Forall (fun x => T x = false) (B ++ t)).
  { intros T HTe HTn.
    assert (Forall (fun x => T x = false) p) by (eapply Forall_impl; [| exact Hp]; auto).
    assert (Forall (fun x => T x = false) body)
      by (eapply Forall_impl; [| exact Hb]; auto).
    assert (Forall (fun x => T x = false) t) by (eapply Forall_impl; [| exact Ht]; auto).
    unfold A, B. split;
      repeat first [apply Forall_app; split | apply Forall_cons | apply Forall_nil];
      auto. }
  assert (Hcode : forall k, k <> n -> forall x, code x = n -> has_code k x = false).
  { intros k Hk x Hx. unfold has_code. rewrite Hx. apply N.eqb_neq. congruence. }
  assert (Hk : forall k, In k [c_backtick; c_bang; c_lbracket; c_hash] -> k <> n).
  { intros k Hin E. subst k. simpl in Hin.
    destruct Hn as [-> | ->];
      repeat (destruct Hin as [Hin | Hin]; [discriminate Hin |]); exact Hin. }
  destruct (HT (has_code c_backtick)) as [A1 B1];
    [intros x Hx; apply (early_mark_classes _ Hx) | apply Hcode, Hk; simpl; tauto |].
  destruct (HT (has_code c_bang)) as [A2 B2];
    [intros x Hx; apply (early_mark_classes _ Hx) | apply Hcode, Hk; simpl; tauto |].
  destruct (HT (has_code c_lbracket)) as [A3 B3];
    [intros x Hx; apply (early_mark_classes _ Hx) | apply Hcode, Hk; simpl; tauto |].
  destruct (HT (has_code c_hash)) as [A4 B4];
    [intros x Hx; apply (early_mark_classes _ Hx) | apply Hcode, Hk; simpl; tauto |].
  assert (He : forall l, Forall (fun x => is_early_mark x = false) l ->
               Forall (fun x => has_code c_star x || has_code c_underscore x = false) l).
  { intros l. apply Forall_impl. intros x Hx. apply (early_mark_classes _ Hx). }
  pose proof (He _ Hp) as P5. pose proof (He _ Hb) as B5. pose proof (He _ Ht) as T5.
  unfold unslanted, unbolded, unheaded, unlinked, unimaged, unfenced.
  rewrite (app_assoc A t u), (app_assoc B t u).
  rewrite (@replace_global_skip _ fenceMatch (@nothing str) _ fenceMatch_first _ _ A1).
  rewrite (@replace_global_skip _ fenceMatch (@nothing str) _ fenceMatch_first _ _ B1).
  rewrite (@replace_global_skip _ imageMatch group _ imageMatch_first _ _ A2).
  rewrite (@replace_global_skip _ imageMatch group _ imageMatch_first _ _ B2).
  rewrite (@replace_global_skip _ linkMatch (fun g => fst g) _ linkMatch_first _ _ A3).
  rewrite (@replace_global_skip _ linkMatch (fun g => fst g) _ linkMatch_first _ _ B3).
  rewrite (@replace_lines_skip _ headingMark (@nothing unit) _ headingMark_first _ _ _ A4).
  rewrite (@replace_lines_skip _ headingMark (@nothing unit) _ headingMark_first _ _ _ B4).
  rewrite Hbol.
  set (U := replace_lines headingMark (@nothing unit) (lineStartAfter true (B ++ t))
              (replace_global linkMatch (fun g => fst g)
                 (replace_global imageMatch group
                    (replace_global fenceMatch (@nothing str) u)))) in *.
  (* bold: nothing matches *)
  assert (E5 : replace_global strongMatch group ((A ++ t) ++ U)
               = A ++ t ++ replace_global strongMatch group U).
  { unfold A. repeat (rewrite <- ?app_assoc; cbn [app]).
    rewrite (@replace_global_skip _ strongMatch group _ strongMatch_first _ _ P5).
    f_equal.
    rewrite replace_global_none.
    2:{ apply strongMatch_lone. destruct body as [| y body]; [congruence |].
        simpl. inversion B5; subst. assumption. }
    f_equal.
    rewrite (@replace_global_skip _ strongMatch group _ strongMatch_first _ _ B5).
    f_equal.
    rewrite replace_global_none by (apply strongMatch_lone; exact Hstop).
    f_equal.
    apply (@replace_global_skip _ strongMatch group _ strongMatch_first _ _ T5). }
  rewrite E5.
  assert (BT5 : Forall (fun x => has_code c_star x || has_code c_underscore x = false)
                  (B ++ t)).
  { unfold B. repeat (apply Forall_app; split); assumption. }
  rewrite (@replace_global_skip _ strongMatch group _ strongMatch_first _ _ BT5).
  set (U5 := replace_global strongMatch group U).
  rewrite (@replace_global_skip _ emMatch group _ emMatch_first _ _ BT5).
  unfold A, B. repeat (rewrite <- ?app_assoc; cbn [app]).
  rewrite (@replace_global_skip _ emMatch group _ emMatch_first _ _ P5).
  f_equal.
  assert (Hm : emMatch (o :: body ++ cl :: t ++ U5) = Some (body, t ++ U5)).
  { apply (@emMatch_match n); auto. }
  rewrite (@replace_global_some _ _ _ _ _ _ _ Hm (emMatch_shorter _ Hm)).
  unfold group. f_equal.
  apply (@replace_global_skip _ emMatch group _ emMatch_first _ _ T5).
Qed.

(** X27: the marks of italic text are not spoken, and an underscore
    inside a word is one of them.  Text without marks, then [*] or [_],
    content that is not empty and has no marks and no line terminators, then
    the same character, at the end of the text or in front of a character
    that starts no mark: the two characters can be taken out without changing
    what [removeMarkdown] gives, whatever follows. *)
Theorem italic_marks_are_not_spoken p o body cl u n :
  n = c_star \/ n = c_underscore ->
  code o = n -> code cl = n ->
  Forall (fun x => is_early_mark x = false) p ->
  Forall (fun x => is_early_mark x = false) body ->
  Forall (fun x => is_dot x = true) body -> body <> [] ->
  stopsAt is_early_mark u ->
  removeMarkdown (p ++ o :: body ++ cl :: u) = removeMarkdown (p ++ body ++ u).
Proof.
  intros Hn Ho Hcl Hp Hb Hdot Hne Hu.
  apply stages_from_unslanted.
  assert (Hcl' : is_line_terminator cl = false).
  { unfold is_line_terminator, has_code. rewrite Hcl. destruct Hn; subst n; reflexivity. }
  destruct u as [| c u].
  - assert (Hbol : lineStartAfter true ((p ++ o :: body ++ [cl]) ++ [])
                   = lineStartAfter true ((p ++ body) ++ [])).
    { rewrite !app_nil_r. change (p ++ o :: body ++ [cl]) with (p ++ (o :: body) ++ [cl]).
      rewrite app_assoc, lineStartAfter_last, Hcl'.
      symmetry. rewrite (lineStartAfter_app true p Hne).
      now apply lineStartAfter_visible. }
    pose proof (@italic_stages p o body cl [] [] n Hn Ho Hcl Hp Hb Hdot Hne
                  (Forall_nil _) Hbol) as H.
    rewrite !replace_global_nil, replace_lines_nil in H. specialize (H I).
    rewrite !app_nil_r in H. repeat (rewrite <- ?app_assoc in H; cbn [app] in H).
    rewrite app_nil_r. exact H.
  - simpl in Hu.
    assert (Hbol : lineStartAfter true ((p ++ o :: body ++ [cl]) ++ [c])
                   = lineStartAfter true ((p ++ body) ++ [c]))
      by (now rewrite !lineStartAfter_last).
    pose proof (@italic_stages p o body cl [c] u n Hn Ho Hcl Hp Hb Hdot Hne
                  (Forall_cons _ Hu (Forall_nil _)) Hbol) as H.
    cbn [app stopsAt] in H.
    assert (Hc : is_emphasis_char c = false)
      by (unfold is_emphasis_char; apply (early_mark_classes _ Hu)).
    specialize (H Hc).
    repeat (rewrite <- ?app_assoc in H; cbn [app] in H). exact H.
Qed.

Lemma italic_marks_are_not_spoken_witness :
  removeMarkdown (input "use snake_case_names here")
  = removeMarkdown (input "use snakecasenames here").
Proof.
  apply (@italic_marks_are_not_spoken (input "use snake") (U16 95 Input) (input "case")
           (U16 95 Input) (input "names here") c_underscore);
    try reflexivity; try discriminate; try (right; reflexivity); repeat constructor.
Defined.
